(** * fileChunker: a shallow embedding of [main.go] and its chunking properties

    The three strategies of the [Chunker] ([ChunkByLines],
    [ChunkByCharacters], [ChunkByTokens]) and the [tokenize] helper are
    rendered as Rocq functions.  The operating system is explicit:
    - the source file is what [os.Open]/[bufio.Scanner] or [os.ReadFile]
      hand to the program (a line stream with its final [scanner.Err()], or
      the bytes of the file) [NewScanner] gives the line stream of a file
      that can be read, with the scanner's limit on the length of a line;
    - [os.Create] is an oracle telling, per chunk number, whether the chunk
      file can be created (the only error [writeChunk] and [writeTextChunk]
      return; the results of [fmt.Fprintf] are ignored by the program);
    - the files written are recorded as the list of the calls to
      [writeChunk]/[writeTextChunk] that succeeded, in order.
    Go's [int] is 64 bits wide here: arithmetic is done on [Z] and wrapped.
    A run-time panic (index or slice out of range) is an outcome of its own.
    The loops of [ChunkByCharacters] and [ChunkByTokens] need not terminate:
    they take the number of turns they may make ("fuel") and report
    [Unfinished], with the chunks written so far, when it is used up.
    [Process] only dispatches on the chunk type to the three strategies and is
    not modelled.  What [writeChunk]/[writeTextChunk] format from their
    arguments, the name of the chunk file and the bytes printed into it, is
    given apart from the runs ([chunk_filename], [line_chunk_file],
    [text_chunk_file]). *)

From Stdlib Require Import Ascii String DecimalString ZArith List Bool Lia.
From Stdlib Require Import DecimalN.
Import ListNotations.

#[local] Open Scope Z_scope.

(** ** Go integers *)

Module GoInt.

Definition int_min : Z := - 2 ^ 63.
Definition int_max : Z := 2 ^ 63 - 1.

(** Two's complement wrap-around of a 64 bit signed [int]. *)
Definition wrap (z : Z) : Z := (z + 2 ^ 63) mod 2 ^ 64 - 2 ^ 63.

Definition in_range (z : Z) : Prop := int_min <= z <= int_max.

End GoInt.
Import GoInt.

(** ** Go strings and slices *)

(** A Go [string] is a sequence of bytes. *)
Definition gostring : Type := list ascii.

(** String literals. *)
Definition lit (s : string) : gostring := list_ascii_of_string s.

Definition byte_val (b : ascii) : Z := Z.of_N (N_of_ascii b).

(** [byte(x)]: conversion of an integer to a byte keeps the low 8 bits. *)
Definition to_byte (z : Z) : ascii := ascii_of_N (Z.to_N (z mod 256)).

(** [len(s)] *)
Definition len {A : Type} (s : list A) : Z := Z.of_nat (length s).

(** [s[i]]: [None] is the run-time panic "index out of range". *)
Definition index {A : Type} (s : list A) (i : Z) : option A :=
  if i <? 0 then None else nth_error s (Z.to_nat i).

(** [s[lo:hi]]: [None] is the run-time panic "slice bounds out of range".
    (For a slice Go checks [hi] against the capacity; the program only
    slices with [hi <= len(s)] or with a negative [hi].) *)
Definition slice {A : Type} (s : list A) (lo hi : Z) : option (list A) :=
  if (0 <=? lo) && (lo <=? hi) && (hi <=? len s)
  then Some (firstn (Z.to_nat (hi - lo)) (skipn (Z.to_nat lo) s))
  else None.

(** [strings.Join(elems, sep)] *)
Fixpoint Join (elems : list gostring) (sep : gostring) : gostring :=
  match elems with
  | [] => []
  | [e] => e
  | e :: rest => e ++ sep ++ Join rest sep
  end.

(** ** Configuration, errors and outcomes *)

Record ChunkConfig : Type := {
  InputFile : gostring;
  OutputDir : gostring;
  ChunkType : gostring;   (* "lines", "chars", "tokens" *)
  ChunkSize : Z;
  OverlapSize : Z;
  AddMetadata : bool;
  Prefix : gostring
}.

Record Chunker : Type := { config : ChunkConfig }.

Definition NewChunker (cfg : ChunkConfig) : Chunker := {| config := cfg |}.

(** The errors a run can return, by the place that produces them. *)
Inductive error : Type :=
| ErrOpen                       (* os.Open *)
| ErrRead                       (* os.ReadFile *)
| ErrScan                       (* scanner.Err() *)
| ErrCreate (chunkNumber : Z).  (* os.Create in writeChunk / writeTextChunk *)

(** How a run ends.  [Unfinished] is a loop that has used up the fuel it was
    given, with the chunks written up to that point. *)
Inductive status : Type :=
| Completed
| Failed (e : error)
| Panicked
| Unfinished.

(** A successful call [writeChunk(lines, chunkNumber, startLine, endLine)].
    [ChunkByLines] never looks inside a line, so the line chunker is written
    over any type of lines; the program uses it with Go strings. *)
Record LineChunk (Line : Type) : Type := {
  lc_number : Z;
  lc_lines : list Line;
  lc_startLine : Z;
  lc_endLine : Z
}.
Arguments lc_number {Line} _.
Arguments lc_lines {Line} _.
Arguments lc_startLine {Line} _.
Arguments lc_endLine {Line} _.

(** A successful call [writeTextChunk(content, chunkNumber, start, end)]. *)
Record TextChunk : Type := {
  tc_number : Z;
  tc_content : gostring;
  tc_start : Z;
  tc_end : Z
}.

(** What [os.Open] followed by [bufio.NewScanner] gives: either the open
    fails, or [scanner.Scan()] yields the lines in order and then returns
    false, with [scanner.Err()] nil ([scan_fails = false]) or not. *)
Inductive LineSource (Line : Type) : Type :=
| OpenFails
| Opened (lines : list Line) (scan_fails : bool).
Arguments OpenFails {Line}.
Arguments Opened {Line} lines scan_fails.

(** What [os.ReadFile] gives. *)
Inductive FileContent : Type :=
| ReadFails
| ReadOk (content : gostring).

(** ** The chunker *)

(** *** Chunk writer *)

Section Writers.

(** Whether [os.Create] succeeds for the file of a chunk number. *)
Variable create_ok : Z -> bool.

(** [writeChunk] and [writeTextChunk] create the file of the chunk, or return
    the error of [os.Create]; what they then print into the file (an optional
    header and the content) is fixed by their arguments and the
    configuration, and its errors are ignored. *)
Definition writeChunk {Line : Type} (lines : list Line)
  (chunkNumber startLine endLine : Z) : LineChunk Line + error :=
  if create_ok chunkNumber
  then inl {| lc_number := chunkNumber; lc_lines := lines;
              lc_startLine := startLine; lc_endLine := endLine |}
  else inr (ErrCreate chunkNumber).

Definition writeTextChunk (content : gostring) (chunkNumber start end_ : Z)
  : TextChunk + error :=
  if create_ok chunkNumber
  then inl {| tc_number := chunkNumber; tc_content := content;
              tc_start := start; tc_end := end_ |}
  else inr (ErrCreate chunkNumber).

End Writers.

Arguments writeChunk create_ok {Line} lines chunkNumber startLine endLine /.
Arguments writeTextChunk create_ok content chunkNumber start end_ /.

(** *** Line chunker *)

(** The local variables of [ChunkByLines]. *)
Record LinesState (Line : Type) : Type := {
  currentChunk : list Line;
  previousOverlap : list Line;
  chunkNumber : Z;
  lineNumber : Z
}.
Arguments currentChunk {Line} _.
Arguments previousOverlap {Line} _.
Arguments chunkNumber {Line} _.
Arguments lineNumber {Line} _.

Definition after_scan (scan_fails : bool) : status :=
  if scan_fails then Failed ErrScan else Completed.

Section Lines.

Context {Line : Type}.

Variable create_ok : Z -> bool.

Variable c : Chunker.

(** The [for scanner.Scan()] loop of [ChunkByLines] followed by the code
    after it; [lines] are the lines the scanner still has to deliver.  The
    overlap slice shares its array with the chunk just written, which is
    dropped ([currentChunk = nil]) before anything is appended again, so the
    overlap is a plain value. *)
Fixpoint scan_loop (lines : list Line) (scan_fails : bool)
  (st : LinesState Line) : list (LineChunk Line) * status :=
  match lines with
  | [] =>
      (* Write remaining lines as final chunk *)
      let cur := currentChunk st in
      if len cur >? 0 then
        match writeChunk create_ok cur (chunkNumber st)
                (wrap (wrap (lineNumber st - len cur) + 1)) (lineNumber st) with
        | inr err => ([], Failed err)
        | inl file => ([file], after_scan scan_fails)
        end
      else ([], after_scan scan_fails)
  | line :: rest =>
      let lineNumber' := wrap (lineNumber st + 1) in
      (* Start new chunk with overlap from previous chunk *)
      let cur0 :=
        if (len (currentChunk st) =? 0) && (len (previousOverlap st) >? 0)
        then currentChunk st ++ previousOverlap st
        else currentChunk st in
      let cur := cur0 ++ [line] in
      (* Check if chunk is full *)
      if len cur >=? ChunkSize (config c) then
        match writeChunk create_ok cur (chunkNumber st)
                (wrap (wrap (lineNumber' - len cur) + 1)) lineNumber' with
        | inr err => ([], Failed err)
        | inl file =>
            (* Prepare overlap for next chunk *)
            let overlap :=
              if (OverlapSize (config c) >? 0)
                 && (len cur >? OverlapSize (config c))
              then skipn (Z.to_nat (len cur - OverlapSize (config c))) cur
              else [] in
            let '(files, res) :=
              scan_loop rest scan_fails
                {| currentChunk := [];
                   previousOverlap := overlap;
                   chunkNumber := wrap (chunkNumber st + 1);
                   lineNumber := lineNumber' |} in
            (file :: files, res)
        end
      else
        scan_loop rest scan_fails
          {| currentChunk := cur;
             previousOverlap := previousOverlap st;
             chunkNumber := chunkNumber st;
             lineNumber := lineNumber' |}
  end.

Definition ChunkByLines (src : LineSource Line) : list (LineChunk Line) * status :=
  match src with
  | OpenFails => ([], Failed ErrOpen)
  | Opened lines scan_fails =>
      scan_loop lines scan_fails
        {| currentChunk := []; previousOverlap := [];
           chunkNumber := 1; lineNumber := 0 |}
  end.

End Lines.

(** *** Runes: what [for _, char := range text] and [WriteRune] do

    Ranging over a string decodes UTF-8: each iteration yields the code point
    at the current byte offset and moves past its encoding; an offset that
    does not start a well-formed encoding yields U+FFFD and moves one byte.
    [strings.Builder.WriteRune] and the conversion [string(char)] both append
    the UTF-8 encoding of the rune, with U+FFFD in place of a value that is
    not a code point. *)

Definition rune : Type := Z.

Definition RuneError : rune := 65533.   (* U+FFFD *)
Definition MaxRune : rune := 1114111.   (* U+10FFFF *)

(** A rune literal such as [' '] or ['\n']. *)
Definition rune_lit (a : ascii) : rune := byte_val a.

(** A continuation byte, 10xxxxxx. *)
Definition is_cont (b : ascii) : bool :=
  (128 <=? byte_val b) && (byte_val b <=? 191).

(** The rune that starts at byte [b0], followed by [rest], and its width. *)
Definition decoderune (b0 : ascii) (rest : gostring) : rune * nat :=
  let v0 := byte_val b0 in
  if v0 <? 128 then (v0, 1%nat)
  else if (192 <=? v0) && (v0 <? 224) then
    (* 0080-07FF two byte sequence *)
    match rest with
    | b1 :: _ =>
        let r := (v0 - 192) * 64 + (byte_val b1 - 128) in
        if is_cont b1 && (127 <? r) then (r, 2%nat) else (RuneError, 1%nat)
    | _ => (RuneError, 1%nat)
    end
  else if (224 <=? v0) && (v0 <? 240) then
    (* 0800-FFFF three byte sequence *)
    match rest with
    | b1 :: b2 :: _ =>
        let r := (v0 - 224) * 4096 + (byte_val b1 - 128) * 64
                 + (byte_val b2 - 128) in
        if is_cont b1 && is_cont b2 && (2047 <? r)
           && negb ((55296 <=? r) && (r <=? 57343))
        then (r, 3%nat) else (RuneError, 1%nat)
    | _ => (RuneError, 1%nat)
    end
  else if (240 <=? v0) && (v0 <? 248) then
    (* 10000-10FFFF four byte sequence *)
    match rest with
    | b1 :: b2 :: b3 :: _ =>
        let r := (v0 - 240) * 262144 + (byte_val b1 - 128) * 4096
                 + (byte_val b2 - 128) * 64 + (byte_val b3 - 128) in
        if is_cont b1 && is_cont b2 && is_cont b3 && (65535 <? r)
           && (r <=? MaxRune)
        then (r, 4%nat) else (RuneError, 1%nat)
    | _ => (RuneError, 1%nat)
    end
  else (RuneError, 1%nat).

(** The runes a [range] loop over [s] yields; [skip] bytes of the encoding of
    the rune just produced are still to be passed over. *)
Fixpoint runes_from (skip : nat) (s : gostring) : list rune :=
  match s with
  | [] => []
  | b :: rest =>
      match skip with
      | S k => runes_from k rest
      | O => let '(r, width) := decoderune b rest in
             r :: runes_from (Nat.pred width) rest
      end
  end.

Definition runes (s : gostring) : list rune := runes_from 0 s.

(** [utf8.AppendRune] on an empty buffer. *)
Definition encoderune (r : rune) : gostring :=
  if (0 <=? r) && (r <=? 127) then [to_byte r]
  else if (0 <=? r) && (r <=? 2047) then
    [to_byte (192 + r / 64); to_byte (128 + r mod 64)]
  else
    let r := if (r <? 0) || (MaxRune <? r) || ((55296 <=? r) && (r <=? 57343))
             then RuneError else r in
    if r <=? 65535 then
      [to_byte (224 + r / 4096); to_byte (128 + (r / 64) mod 64);
       to_byte (128 + r mod 64)]
    else
      [to_byte (240 + r / 262144); to_byte (128 + (r / 4096) mod 64);
       to_byte (128 + (r / 64) mod 64); to_byte (128 + r mod 64)].

(** *** Tokenizer *)

Definition is_space_rune (char : rune) : bool :=
  (char =? rune_lit " ") || (char =? rune_lit "009") || (char =? rune_lit "010").

Definition is_punct_rune (char : rune) : bool :=
  (char =? rune_lit ".") || (char =? rune_lit ",") || (char =? rune_lit ";")
  || (char =? rune_lit ":") || (char =? rune_lit "!") || (char =? rune_lit "?")
  || (char =? rune_lit "(") || (char =? rune_lit ")") || (char =? rune_lit "[")
  || (char =? rune_lit "]") || (char =? rune_lit "{") || (char =? rune_lit "}").

(** One iteration of the loop of [tokenize] on the pair of its local
    variables [tokens] and [current]. *)
Definition tokenize_step (st : list gostring * gostring) (char : rune)
  : list gostring * gostring :=
  let '(tokens, current) := st in
  if is_space_rune char then
    if len current >? 0 then (tokens ++ [current], []) else (tokens, current)
  else if is_punct_rune char then
    let tokens := if len current >? 0 then tokens ++ [current] else tokens in
    (tokens ++ [encoderune char], [])
  else
    (tokens, current ++ encoderune char).

Definition tokenize (text : gostring) : list gostring :=
  let '(tokens, current) := fold_left tokenize_step (runes text) ([], []) in
  if len current >? 0 then tokens ++ [current] else tokens.

(** *** Character and token chunkers *)

(** [text[i] == ' ' || text[i] == '\n' || text[i] == '\t'] *)
Definition is_boundary (b : ascii) : bool :=
  Ascii.eqb b " " || Ascii.eqb b "010" || Ascii.eqb b "009".

(** The backward search
    [for i := end; i > start && i > end-100; i-- { ... end = i; break }]:
    the value of [end] after it, or [None] when [text[i]] panics.  The loop
    body runs at most 100 times, which is the fuel it is started with. *)
Fixpoint find_boundary (text : gostring) (start end_ : Z) (fuel : nat) (i : Z)
  : option Z :=
  match fuel with
  | O => Some end_
  | S fuel' =>
      if (i >? start) && (i >? wrap (end_ - 100)) then
        match index text i with
        | None => None
        | Some b =>
            if is_boundary b then Some i
            else find_boundary text start end_ fuel' (wrap (i - 1))
        end
      else Some end_
  end.

Section Text.

Variable create_ok : Z -> bool.

Variable c : Chunker.

(** Move start position with overlap *)
Definition next_start (end_ : Z) : Z :=
  if OverlapSize (config c) >? 0 then
    let start := wrap (end_ - OverlapSize (config c)) in
    if start <? 0 then end_ else start
  else end_.

(** The loop [for start < len(text)] of [ChunkByCharacters]; [fuel] bounds
    the number of times its body runs. *)
Fixpoint chars_loop (fuel : nat) (text : gostring) (chunkNumber start : Z)
  : list TextChunk * status :=
  if start <? len text then
    match fuel with
    | O => ([], Unfinished)
    | S fuel' =>
        let end0 := wrap (start + ChunkSize (config c)) in
        let end1 := if end0 >? len text then len text else end0 in
        (* Try to break at word boundary *)
        match (if end1 <? len text
               then find_boundary text start end1 100 end1
               else Some end1) with
        | None => ([], Panicked)
        | Some end_ =>
            match slice text start end_ with
            | None => ([], Panicked)
            | Some chunk =>
                match writeTextChunk create_ok chunk chunkNumber start end_ with
                | inr err => ([], Failed err)
                | inl file =>
                    let '(files, res) :=
                      chars_loop fuel' text (wrap (chunkNumber + 1))
                        (next_start end_) in
                    (file :: files, res)
                end
            end
        end
    end
  else ([], Completed).

Definition ChunkByCharacters (fuel : nat) (src : FileContent)
  : list TextChunk * status :=
  match src with
  | ReadFails => ([], Failed ErrRead)
  | ReadOk content => chars_loop fuel content 1 0
  end.

(** The loop [for start < len(tokens)] of [ChunkByTokens]. *)
Fixpoint tokens_loop (fuel : nat) (tokens : list gostring)
  (chunkNumber start : Z) : list TextChunk * status :=
  if start <? len tokens then
    match fuel with
    | O => ([], Unfinished)
    | S fuel' =>
        let end0 := wrap (start + ChunkSize (config c)) in
        let end_ := if end0 >? len tokens then len tokens else end0 in
        match slice tokens start end_ with
        | None => ([], Panicked)
        | Some chunkTokens =>
            let chunk := Join chunkTokens (lit " ") in
            match writeTextChunk create_ok chunk chunkNumber start end_ with
            | inr err => ([], Failed err)
            | inl file =>
                let '(files, res) :=
                  tokens_loop fuel' tokens (wrap (chunkNumber + 1))
                    (next_start end_) in
                (file :: files, res)
            end
        end
    end
  else ([], Completed).

Definition ChunkByTokens (fuel : nat) (src : FileContent)
  : list TextChunk * status :=
  match src with
  | ReadFails => ([], Failed ErrRead)
  | ReadOk content => tokens_loop fuel (tokenize content) 1 0
  end.

End Text.

(** *** Names of the chunk files *)

(** The decimal digits of a number that is not negative, as [fmt] writes
    them. *)
Definition digits (n : N) : gostring :=
  lit (NilZero.string_of_uint (N.to_uint n)).

(** [fmt.Sprintf("%03d", n)]: the digits padded with zeros to three
    characters; the sign of a negative number comes first and counts as one
    of the three. *)
Definition format_03d (n : Z) : gostring :=
  let d := digits (Z.abs_N n) in
  if n <? 0 then lit "-" ++ repeat "0"%char (2 - length d) ++ d
  else repeat "0"%char (3 - length d) ++ d.

(** [filename := fmt.Sprintf("%s_chunk_%03d.txt", c.config.Prefix,
    chunkNumber)] of [writeChunk] and [writeTextChunk]. *)
Definition chunk_filename (c : Chunker) (chunkNumber : Z) : gostring :=
  Prefix (config c) ++ lit "_chunk_" ++ format_03d chunkNumber ++ lit ".txt".

(** *** Content of the chunk files *)

(** [fmt.Sprintf("%d", n)] *)
Definition format_d (n : Z) : gostring :=
  if n <? 0 then lit "-" ++ digits (Z.abs_N n) else digits (Z.abs_N n).

(** ["\n"] *)
Definition newline : gostring := ["010"%char].

(** What [writeChunk] prints into the file it has created: the header, if
    asked for, and every line with [fmt.Fprintln].  (The program ignores the
    results of the print calls; this is the file when they succeed.) *)
Definition line_chunk_file (c : Chunker) (ch : LineChunk gostring) : gostring :=
  (if AddMetadata (config c) then
     lit "=== CHUNK " ++ format_d (lc_number ch) ++ lit " ===" ++ newline
     ++ lit "Source: " ++ InputFile (config c) ++ newline
     ++ lit "Lines: " ++ format_d (lc_startLine ch) ++ lit "-"
     ++ format_d (lc_endLine ch) ++ newline
     ++ lit "Total lines in chunk: " ++ format_d (len (lc_lines ch)) ++ newline
     ++ lit "=== CONTENT ===" ++ newline ++ newline
   else [])
  ++ concat (map (fun line => line ++ newline) (lc_lines ch)).

(** What [writeTextChunk] prints into the file it has created. *)
Definition text_chunk_file (c : Chunker) (ch : TextChunk) : gostring :=
  (if AddMetadata (config c) then
     lit "=== CHUNK " ++ format_d (tc_number ch) ++ lit " ===" ++ newline
     ++ lit "Source: " ++ InputFile (config c) ++ newline
     ++ lit "Range: " ++ format_d (tc_start ch) ++ lit "-"
     ++ format_d (tc_end ch) ++ newline
     ++ lit "=== CONTENT ===" ++ newline ++ newline
   else [])
  ++ tc_content ch.

(** *** The scanner of [ChunkByLines] *)







(** ** Notions used in the statements *)

(** The last [n] elements of a list. *)
Definition lastn {A : Type} (n : nat) (l : list A) : list A :=
  skipn (length l - n) l.

(** [P] holds of every element but possibly the last. *)
Fixpoint all_but_last {A : Type} (P : A -> Prop) (l : list A) : Prop :=
  match l with
  | [] => True
  | x :: rest =>
      match rest with [] => True | _ :: _ => P x end /\ all_but_last P rest
  end.

(** Each element of [files] starts with the last [k] elements of the one
    before it; [last] is the element before the first, if any. *)
Fixpoint overlap_chain {A : Type} (k : nat) (last : option (list A))
  (files : list (list A)) : Prop :=
  match files with
  | [] => True
  | f :: rest =>
      match last with
      | None => True
      | Some l => lastn k l = firstn k f /\ (k <= length l)%nat
                  /\ (k <= length f)%nat
      end /\ overlap_chain k (Some f) rest
  end.

(** Whether the byte at index [j] is a space, a newline or a tab. *)
Definition boundary_at (text : gostring) (j : Z) : bool :=
  match index text j with
  | Some b => is_boundary b
  | None => false
  end.

(** Runs of bytes that are not boundary bytes. *)
Definition non_boundary_at (text : gostring) (j : Z) : bool :=
  match index text j with
  | Some b => negb (is_boundary b)
  | None => false
  end.

(** The number of non-boundary bytes in a row at [j], [j-1], ... *)
Fixpoint run_back (text : gostring) (n : nat) (j : Z) : nat :=
  match n with
  | O => O
  | S n' => if non_boundary_at text j then S (run_back text n' (j - 1)) else O
  end.

(** The number of non-boundary bytes in a row at [j], [j+1], ... *)
Fixpoint run_fwd (text : gostring) (n : nat) (j : Z) : nat :=
  match n with
  | O => O
  | S n' => if non_boundary_at text j then S (run_fwd text n' (j + 1)) else O
  end.

(** A cut between the bytes [e-1] and [e] splits a run when neither is a
    boundary byte; the run it splits has [run_length text e] bytes. *)
Definition splits_run (text : gostring) (e : Z) : bool :=
  non_boundary_at text (e - 1) && non_boundary_at text e.

Definition run_length (text : gostring) (e : Z) : nat :=
  (run_back text (length text) (e - 1) + run_fwd text (length text) e)%nat.

(** Consecutive chunks of the text from [start] on: each begins where the
    one before it ends, is not empty and is the slice its range names. *)
Fixpoint tiles (text : gostring) (start : Z) (files : list TextChunk) : Prop :=
  match files with
  | [] => True
  | ch :: rest =>
      tc_start ch = start
      /\ start < tc_end ch <= len text
      /\ slice text start (tc_end ch) = Some (tc_content ch)
      /\ tiles text (tc_end ch) rest
  end.

(** A Unicode scalar value: a code point that is not a surrogate. *)
Definition valid_rune (r : rune) : Prop :=
  0 <= r <= 55295 \/ 57344 <= r <= MaxRune.

(** A rune that [tokenize] adds to the current run. *)
Definition plain_rune (r : rune) : Prop :=
  valid_rune r /\ is_space_rune r = false /\ is_punct_rune r = false.

Definition encode_all (rs : list rune) : gostring := concat (map encoderune rs).

(** The shape of a token: the encoding of a non-empty run of plain runes, or
    of one punctuation rune. *)
Definition is_token (t : gostring) : Prop :=
  exists rs, rs <> [] /\ t = encode_all rs
    /\ (Forall plain_rune rs \/ exists p, rs = [p] /\ is_punct_rune p = true).

(** ** Parts of the functions and invariants, named for the proofs *)

(** The value of [end] when [ChunkByCharacters] slices the chunk that
    starts at [start]: the first half of the loop body. *)
Definition chars_end (c : Chunker) (text : gostring) (start : Z) : option Z :=
  let end0 := wrap (start + ChunkSize (config c)) in
  let end1 := if end0 >? len text then len text else end0 in
  if end1 <? len text then find_boundary text start end1 100 end1
  else Some end1.

(** The value of [end] when [ChunkByTokens] slices the tokens of the chunk
    that starts at [start]. *)
Definition tokens_end (c : Chunker) (tokens : list gostring) (start : Z) : Z :=
  let end0 := wrap (start + ChunkSize (config c)) in
  if end0 >? len tokens then len tokens else end0.

(** The end of [tokenize]: the run being built, if any, is the last token. *)
Definition flush_current (st : list gostring * gostring) : list gostring :=
  let '(tokens, current) := st in
  if len current >? 0 then tokens ++ [current] else tokens.

(** The chunks [ChunkByLines] has written by the time [scanner.Scan()]
    returns false: those flushed by the loop body. *)
Fixpoint written_during_scan {Line : Type} (create_ok : Z -> bool)
  (c : Chunker) (lines : list Line) (st : LinesState Line)
  : list (LineChunk Line) :=
  match lines with
  | [] => []
  | line :: rest =>
      let lineNumber' := wrap (lineNumber st + 1) in
      let cur0 :=
        if (len (currentChunk st) =? 0) && (len (previousOverlap st) >? 0)
        then currentChunk st ++ previousOverlap st
        else currentChunk st in
      let cur := cur0 ++ [line] in
      if len cur >=? ChunkSize (config c) then
        match writeChunk create_ok cur (chunkNumber st)
                (wrap (wrap (lineNumber' - len cur) + 1)) lineNumber' with
        | inr err => []
        | inl file =>
            let overlap :=
              if (OverlapSize (config c) >? 0)
                 && (len cur >? OverlapSize (config c))
              then skipn (Z.to_nat (len cur - OverlapSize (config c))) cur
              else [] in
            file :: written_during_scan create_ok c rest
                      {| currentChunk := [];
                         previousOverlap := overlap;
                         chunkNumber := wrap (chunkNumber st + 1);
                         lineNumber := lineNumber' |}
        end
      else
        written_during_scan create_ok c rest
          {| currentChunk := cur;
             previousOverlap := previousOverlap st;
             chunkNumber := chunkNumber st;
             lineNumber := lineNumber' |}
  end.

(** Renaming the lines of a chunk or of the loop state. *)
Definition map_chunk {A B : Type} (f : A -> B) (ch : LineChunk A) : LineChunk B :=
  {| lc_number := lc_number ch; lc_lines := map f (lc_lines ch);
     lc_startLine := lc_startLine ch; lc_endLine := lc_endLine ch |}.

Definition map_state {A B : Type} (f : A -> B) (st : LinesState A) : LinesState B :=
  {| currentChunk := map f (currentChunk st);
     previousOverlap := map f (previousOverlap st);
     chunkNumber := chunkNumber st; lineNumber := lineNumber st |}.

(** What the line loop knows about the chunk written last, [last], when the
    overlap is [k]: the carried-over lines are its last [k] lines, and a
    buffer that is not empty starts with them. *)
Definition carries {Line : Type} (k : nat) (last : option (list Line))
  (st : LinesState Line) : Prop :=
  match last with
  | None => previousOverlap st = []
  | Some l =>
      previousOverlap st = lastn k l /\ (k <= length l)%nat
      /\ (currentChunk st = []
          \/ (firstn k (currentChunk st) = lastn k l
              /\ (k <= length (currentChunk st))%nat))
  end.

(** A chunk is the slice of the text its range names, and either reaches the
    end of the text, or stops right before a boundary byte, or has the
    configured size with no boundary byte at the (at most 100) indices the
    backward search looks at. *)
Definition chunk_end_ok (c : Chunker) (text : gostring) (ch : TextChunk) : Prop :=
  slice text (tc_start ch) (tc_end ch) = Some (tc_content ch)
  /\ (tc_end ch < len text ->
      boundary_at text (tc_end ch) = true
      \/ (tc_end ch = wrap (tc_start ch + ChunkSize (config c))
          /\ forall j, tc_start ch < j -> tc_end ch - 100 < j <= tc_end ch ->
               boundary_at text j = false)).

(** ** Test data *)

(** A configuration that sets only the sizes, and a file system in which
    every chunk file can be created. *)
Definition sizes (size overlap : Z) : Chunker :=
  NewChunker {| InputFile := lit "in.txt"; OutputDir := lit "chunks";
                ChunkType := []; ChunkSize := size; OverlapSize := overlap;
                AddMetadata := true; Prefix := lit "in" |}.

Definition always_ok : Z -> bool := fun _ => true.

(** The lines "1", "2", ..., "n" of a test file. *)
Definition numbered (n : nat) : list gostring :=
  map (fun i => lit (NilZero.string_of_uint (Nat.to_uint i))) (seq 1 n).

(** ** Properties as the specification words them

    These predicates follow the wording of the specification; they are
    compared below with what the functions above compute. *)

(** "If a scan error occurs mid-stream, processing aborts immediately: no
    chunk beyond those already written before the error is written." *)
Definition aborts_at_scan_error {Line : Type} (create_ok : Z -> bool)
  (c : Chunker) (lines : list Line) : Prop :=
  ChunkByLines create_ok c (Opened lines true)
  = (written_during_scan create_ok c lines
       {| currentChunk := []; previousOverlap := [];
          chunkNumber := 1; lineNumber := 0 |},
     Failed ErrScan).

(** "Input = 2500 lines, size=1000, overlap=50: 3 chunk files, chunk 1 lines
    1-1000, chunk 2 starts with lines 951-1000 repeated (1050 lines total: 50
    overlap + 1000 new), chunk 3 holds the remainder." *)
Definition scenario_2500_as_stated {Line : Type} (lines : list Line)
  (files : list (LineChunk Line)) : Prop :=
  exists c1 c2 c3,
    files = [c1; c2; c3]
    /\ lc_lines c1 = firstn 1000 lines
    /\ firstn 50 (lc_lines c2) = firstn 50 (skipn 950 lines)
    /\ length (lc_lines c2) = 1050%nat
    /\ (exists before, lines = before ++ lc_lines c3).

(** "Character-mode chunk boundaries never split a run of non-whitespace
    characters unless the run is longer than the 100-character lookback
    window." *)
Definition never_splits_short_runs (text : gostring) (files : list TextChunk)
  : Prop :=
  forall ch, In ch files -> tc_end ch < len text ->
    splits_run text (tc_end ch) = true ->
    (100 < run_length text (tc_end ch))%nat.

(** ** Notions used in the further properties *)

(** The lines of the chunks without the lines each chunk repeats from the
    one before it: the first chunk whole, [k] lines dropped from the others;
    with [seeded], from the first as well. *)
Definition without_overlap {A : Type} (k : nat) (seeded : bool)
  (files : list (list A)) : list A :=
  match files with
  | [] => []
  | f :: rest =>
      (if seeded then skipn k f else f) ++ concat (map (skipn k) rest)
  end.

(** The lines of the buffer that were read for it, not carried over from
    the chunk written last, [last]. *)
Definition fresh_lines {A : Type} (k : nat) (last : option (list A))
  (cur : list A) : list A :=
  match last with None => cur | Some _ => skipn k cur end.

Definition is_seeded {A : Type} (last : option (list A)) : bool :=
  match last with None => false | Some _ => true end.

(** Where a chunk of [ChunkByCharacters] lies in the text and how long it
    is: it is not empty, has at most [ChunkSize] bytes, and more than
    [ChunkSize - 100] unless it reaches the end of the text. *)
Definition chunk_in_bounds (c : Chunker) (text : gostring) (ch : TextChunk)
  : Prop :=
  0 <= tc_start ch < tc_end ch /\ tc_end ch <= len text
  /\ len (tc_content ch) = tc_end ch - tc_start ch
  /\ len (tc_content ch) <= ChunkSize (config c)
  /\ (tc_end ch < len text ->
      ChunkSize (config c) - 100 < len (tc_content ch)).

(** What a chunk of [ChunkByTokens] holds: between one and [ChunkSize] of
    the tokens, from [tc_start] to [tc_end], joined by single spaces. *)
Definition token_chunk_ok (c : Chunker) (tokens : list gostring)
  (ch : TextChunk) : Prop :=
  exists toks,
    slice tokens (tc_start ch) (tc_end ch) = Some toks
    /\ tc_content ch = Join toks (lit " ")
    /\ 1 <= len toks <= ChunkSize (config c).

(** A byte that is not one of the three white space bytes. *)
Definition not_boundary (b : ascii) : bool := negb (is_boundary b).

(** A rune that [tokenize] does not drop. *)
Definition not_space_rune (r : rune) : bool := negb (is_space_rune r).

(** A white space byte of the character chunker. *)
Definition blank (b : ascii) : Prop := is_boundary b = true.

(** Go's [a < b] on strings: the order of the bytes, in which a sorted
    listing of the output directory shows the chunk files. *)
Fixpoint string_lt (a b : gostring) : bool :=
  match a, b with
  | _, [] => false
  | [], _ :: _ => true
  | x :: a', y :: b' =>
      (byte_val x <? byte_val y)
      || ((byte_val x =? byte_val y) && string_lt a' b')
  end.

(** Every element of a list is below the next one. *)
Fixpoint ascending (l : list gostring) : bool :=
  match l with
  | [] => true
  | x :: rest =>
      match rest with [] => true | y :: _ => string_lt x y end
      && ascending rest
  end.

(** The end of the name of chunk [i]. *)
Definition name_tail (i : nat) : gostring :=
  format_03d (Z.of_nat i) ++ lit ".txt".


(** A string without newline byte. *)
Definition one_line (s : gostring) : Prop :=
  Forall (fun b => Ascii.eqb b "010" = false) s.

(** What is left of [s] after its first [n] lines, each ended by a
    newline. *)
Fixpoint drop_lines (s : gostring) (n : nat) : gostring :=
  match n, s with
  | O, _ => s
  | S _, [] => []
  | S k, b :: rest =>
      if Ascii.eqb b "010" then drop_lines rest k else drop_lines rest n
  end.



(** ** Proof tools *)

(** The state a recursive call of the loop was started in. *)
Ltac run_state H k :=
  match type of H with
  | scan_loop _ _ _ _ ?s = _ => k s
  end.

(** Decides the tests of [decoderune] and [encoderune] whose outcome follows
    from the hypotheses. *)
Ltac decide_tests :=
  repeat match goal with
  | |- context [if ?b then _ else _] =>
      let E := fresh "E" in
      destruct b eqn:E;
      try (exfalso; Z.to_euclidean_division_equations; lia)
  end.

(** ** The functions on small inputs *)

Example tokenize_sentence :
  tokenize (lit "Hello, world! (a b)")
  = [lit "Hello"; lit ","; lit "world"; lit "!"; lit "("; lit "a"; lit "b";
     lit ")"].
Proof. vm_compute. reflexivity. Qed.

(** "h", U+00E9, a stray byte FF, U+20AC: the stray byte is read as U+FFFD
    and comes out of [WriteRune] as EF BF BD. *)
Example tokenize_invalid_utf8 :
  map (map byte_val) (tokenize (map to_byte [104; 195; 169; 255; 226; 130; 172]))
  = [[104; 195; 169; 239; 191; 189; 226; 130; 172]].
Proof. vm_compute. reflexivity. Qed.

Example lines_with_overlap :
  ChunkByLines always_ok (sizes 3 1)
    (Opened [lit "a"; lit "b"; lit "c"; lit "d"; lit "e"; lit "f"] false)
  = ([ {| lc_number := 1; lc_lines := [lit "a"; lit "b"; lit "c"];
          lc_startLine := 1; lc_endLine := 3 |};
       {| lc_number := 2; lc_lines := [lit "c"; lit "d"; lit "e"];
          lc_startLine := 3; lc_endLine := 5 |};
       {| lc_number := 3; lc_lines := [lit "e"; lit "f"];
          lc_startLine := 5; lc_endLine := 6 |} ],
     Completed).
Proof. vm_compute. reflexivity. Qed.

(** The second chunk file cannot be created: the run stops there. *)
Example lines_create_fails :
  ChunkByLines (fun n => negb (n =? 2)) (sizes 2 0)
    (Opened [lit "a"; lit "b"; lit "c"; lit "d"; lit "e"] false)
  = ([ {| lc_number := 1; lc_lines := [lit "a"; lit "b"];
          lc_startLine := 1; lc_endLine := 2 |} ],
     Failed (ErrCreate 2)).
Proof. vm_compute. reflexivity. Qed.

(** A chunk size of 2^63 - 1 with an overlap: the second sum wraps around
    and the slice expression panics. *)
Example chars_huge_size_panics :
  ChunkByCharacters always_ok (sizes int_max 1) 5 (ReadOk (lit "abc"))
  = ([ {| tc_number := 1; tc_content := lit "abc";
          tc_start := 0; tc_end := 3 |} ],
     Panicked).
Proof. vm_compute. reflexivity. Qed.

Example tokens_in_chunks :
  ChunkByTokens always_ok (sizes 3 0) 8 (ReadOk (lit "Hello, world! (a b)"))
  = ([ {| tc_number := 1; tc_content := lit "Hello , world";
          tc_start := 0; tc_end := 3 |};
       {| tc_number := 2; tc_content := lit "! ( a";
          tc_start := 3; tc_end := 6 |};
       {| tc_number := 3; tc_content := lit "b )";
          tc_start := 6; tc_end := 8 |} ],
     Completed).
Proof. vm_compute. reflexivity. Qed.

(** ** Basic facts *)

Lemma wrap_small (z : Z) : in_range z -> wrap z = z.
Proof.
  unfold in_range, int_min, int_max, wrap. intros H.
  rewrite Z.mod_small; lia.
Qed.

Lemma len_nonneg {A : Type} (l : list A) : 0 <= len l.
Proof. unfold len. lia. Qed.

Lemma len_app {A : Type} (l1 l2 : list A) : len (l1 ++ l2) = len l1 + len l2.
Proof. unfold len. rewrite length_app. lia. Qed.

Lemma len_nil_iff {A : Type} (l : list A) : len l = 0 <-> l = [].
Proof.
  unfold len. destruct l; simpl; split; intros H; try reflexivity; try lia.
  discriminate.
Qed.

Lemma lastn_length {A : Type} (n : nat) (l : list A) :
  (n <= length l)%nat -> length (lastn n l) = n.
Proof. intros H. unfold lastn. rewrite length_skipn. lia. Qed.

Lemma len_skipn {A : Type} (k : Z) (l : list A) :
  0 <= k <= len l -> len (skipn (Z.to_nat k) l) = len l - k.
Proof. unfold len. intros H. rewrite length_skipn. lia. Qed.

Lemma all_but_last_cons {A : Type} (P : A -> Prop) (x : A) (l : list A) :
  P x -> all_but_last P l -> all_but_last P (x :: l).
Proof. intros Hx Hl. simpl. split; [destruct l; auto | exact Hl]. Qed.

Lemma all_but_last_nth {A : Type} (P : A -> Prop) (l : list A) :
  all_but_last P l ->
  forall i x, nth_error l i = Some x -> (S i < length l)%nat -> P x.
Proof.
  induction l as [|y l IH]; intros Hall i x Hi Hlt.
  - destruct i; discriminate.
  - destruct Hall as [Hy Hrest]. destruct i as [|i]; simpl in *.
    + injection Hi as <-. destruct l; [simpl in Hlt; lia | exact Hy].
    + apply (IH Hrest i x Hi). lia.
Qed.

Lemma overlap_chain_nth {A : Type} (k : nat) (files : list (list A)) :
  forall last, overlap_chain k last files ->
  forall i a b, nth_error files i = Some a -> nth_error files (S i) = Some b ->
    lastn k a = firstn k b /\ (k <= length a)%nat /\ (k <= length b)%nat.
Proof.
  induction files as [|f rest IH]; intros last Hch i a b Ha Hb.
  - destruct i; discriminate.
  - destruct Hch as [_ Hrest]. destruct i as [|i]; simpl in *.
    + injection Ha as <-. destruct rest as [|g rest]; [discriminate|].
      simpl in Hb. injection Hb as <-. destruct Hrest as [Hlink _]. exact Hlink.
    + exact (IH _ Hrest i a b Ha Hb).
Qed.

Lemma len_map {A B : Type} (f : A -> B) (l : list A) : len (map f l) = len l.
Proof. unfold len. rewrite length_map. reflexivity. Qed.

Lemma skipn_nth_cons {A : Type} (d : A) (l : list A) :
  forall a, (a < length l)%nat -> skipn a l = nth a l d :: skipn (S a) l.
Proof.
  induction l as [|x l IH]; intros a Ha; simpl in Ha; [lia|].
  destruct a as [|a]; [reflexivity|]. simpl. apply IH. lia.
Qed.

(** A window of a list, read off index by index. *)
Lemma map_nth_seq {A : Type} (d : A) (l : list A) (n : nat) :
  forall a, (a + n <= length l)%nat ->
  map (fun i => nth i l d) (seq a n) = firstn n (skipn a l).
Proof.
  induction n as [|n IH]; intros a Ha; [reflexivity|].
  rewrite (skipn_nth_cons d) by lia. simpl. f_equal. apply IH. lia.
Qed.

(** ** Line chunker *)

Section LinesFacts.

Context {Line : Type}.
Variable create_ok : Z -> bool.
Variable c : Chunker.

#[local] Abbreviation size := (ChunkSize (config c)).
#[local] Abbreviation overlap := (OverlapSize (config c)).
#[local] Abbreviation loop := (@scan_loop Line create_ok c).

(** The result of the loop does not depend on what the file system would
    answer for chunk numbers, as long as the answers agree. *)
Lemma scan_loop_ext (ok' : Z -> bool) :
  (forall n, create_ok n = ok' n) ->
  forall lines sf st, loop lines sf st = scan_loop ok' c lines sf st.
Proof.
  intros Hok lines sf. induction lines as [|line rest IH]; intros st; simpl.
  - rewrite Hok. reflexivity.
  - rewrite Hok. destruct (_ >=? size); [|apply IH].
    destruct (ok' _); [|reflexivity]. rewrite IH. reflexivity.
Qed.


(** With an overlap smaller than the chunk size, the buffer is flushed
    exactly when it holds [size] lines, carried-over lines included. *)
Lemma scan_loop_full :
  0 <= overlap < size ->
  forall lines sf st,
    len (currentChunk st) < size ->
    len (previousOverlap st) < size ->
    all_but_last (fun ch => len (lc_lines ch) = size) (fst (loop lines sf st)).
Proof.
  intros Hov lines sf.
  induction lines as [|line rest IH]; intros st Hcur Hprev; simpl.
  - destruct (_ >? 0); [destruct (create_ok _)|]; simpl; auto.
  - set (cur0 := if _ && _ then _ else _).
    assert (Hcur0 : len cur0 < size).
    { subst cur0. destruct (_ && _) eqn:Ht; [|exact Hcur].
      apply andb_true_iff in Ht. destruct Ht as [Ht _].
      apply Z.eqb_eq, len_nil_iff in Ht. rewrite Ht. exact Hprev. }
    clearbody cur0.
    assert (Hone : len (cur0 ++ [line]) = len cur0 + 1) by apply len_app.
    destruct (_ >=? size) eqn:Hfull.
    + destruct (create_ok _); [|simpl; auto].
      destruct (loop rest sf _) as [files res] eqn:Hrun. simpl.
      split; [destruct files; [exact I | lia] |].
      run_state Hrun ltac:(fun s => specialize (IH s)).
      rewrite Hrun in IH. apply IH; simpl.
      * unfold len. simpl. lia.
      * destruct (_ && _); [|unfold len; simpl; lia].
        rewrite len_skipn; lia.
    + apply IH; simpl; [lia | exact Hprev].
Qed.

Section Overlap.

Variable k : nat.
Hypothesis Hk : overlap = Z.of_nat k.
Hypothesis Hpos : 0 < overlap < size.

Lemma scan_loop_chain :
  forall lines sf st last,
    carries k last st ->
    overlap_chain k last (map lc_lines (fst (loop lines sf st))).
Proof.
  intros lines sf.
  induction lines as [|line rest IH]; intros st last Hc; simpl.
  - destruct (len (currentChunk st) >? 0) eqn:Hlen; [|simpl; auto].
    destruct (create_ok _); simpl; [|auto]. split; [|exact I].
    destruct last as [l|]; [|exact I].
    destruct Hc as (_ & Hl & [Hnil | [Hfirst Hge]]).
    + rewrite Hnil in Hlen. discriminate.
    + auto.
  - set (cur0 := if _ && _ then _ else _).
    assert (Hcur0 : match last with
                    | None => True
                    | Some l => firstn k cur0 = lastn k l
                                /\ (k <= length cur0)%nat
                                /\ (k <= length l)%nat
                    end).
    { destruct last as [l|]; [|exact I].
      destruct Hc as (Hprev & Hl & Hcur). subst cur0.
      pose proof (lastn_length k l Hl) as Hlast.
      destruct Hcur as [Hnil | [Hfirst Hge]].
      - rewrite Hnil, Hprev. simpl.
        replace (len (lastn k l) >? 0) with true
          by (unfold len; rewrite Hlast; lia).
        rewrite <- Hlast at 1. rewrite firstn_all.
        repeat split; [rewrite Hlast; apply Nat.le_refl | exact Hl].
      - replace (len (currentChunk st) =? 0) with false; simpl; auto.
        symmetry. apply Z.eqb_neq. unfold len. lia. }
    assert (Hcur : match last with
                   | None => True
                   | Some l => firstn k (cur0 ++ [line]) = lastn k l
                               /\ (k <= length (cur0 ++ [line]))%nat
                               /\ (k <= length l)%nat
                   end).
    { destruct last as [l|]; [|exact I].
      destruct Hcur0 as (Hf & Hge & Hl). rewrite length_app.
      rewrite firstn_app. replace (k - length cur0)%nat with 0%nat by lia.
      simpl. rewrite app_nil_r. auto with arith. }
    assert (Hne : cur0 ++ [line] <> []) by (destruct cur0; discriminate).
    assert (Hprev : previousOverlap st
                    = match last with None => [] | Some l => lastn k l end).
    { destruct last; [apply Hc | exact Hc]. }
    clearbody cur0. clear Hcur0.
    destruct (_ >=? size) eqn:Hfull.
    + destruct (create_ok _); [|simpl; auto].
      destruct (loop rest sf _) as [files res] eqn:Hrun. simpl.
      split.
      * destruct last as [l|]; [|exact I]. destruct Hcur as (Hf & Hge & Hl).
        auto.
      * run_state Hrun ltac:(fun s => specialize (IH s (Some (cur0 ++ [line])))).
        rewrite Hrun in IH. apply IH. simpl.
        assert (Hlen : size <= len (cur0 ++ [line])) by lia.
        replace ((overlap >? 0) && (len (cur0 ++ [line]) >? overlap))
          with true by (symmetry; apply andb_true_iff; split; lia).
        unfold len in Hlen. unfold lastn, len.
        split; [f_equal; lia | split; [lia | left; reflexivity]].
    + apply IH. destruct last as [l|]; simpl.
      * destruct Hcur as (Hf & Hge & Hl). rewrite Hprev. auto.
      * exact Hprev.
Qed.

End Overlap.

End LinesFacts.

(** Only the two sizes of the configuration matter. *)
Lemma scan_loop_config {Line : Type} (create_ok : Z -> bool) (c c' : Chunker) :
  ChunkSize (config c) = ChunkSize (config c') ->
  OverlapSize (config c) = OverlapSize (config c') ->
  forall (lines : list Line) sf st,
    scan_loop create_ok c lines sf st = scan_loop create_ok c' lines sf st.
Proof.
  intros Hsize Hov lines sf.
  induction lines as [|line rest IH]; intros st; simpl; [reflexivity|].
  rewrite Hsize, Hov. destruct (_ >=? _); [|apply IH].
  destruct (create_ok _); [|reflexivity]. rewrite IH. reflexivity.
Qed.

(** The loop treats lines as opaque: renaming them commutes with it. *)
Lemma scan_loop_map {A B : Type} (f : A -> B) (create_ok : Z -> bool)
  (c : Chunker) (lines : list A) (sf : bool) :
  forall st,
    scan_loop create_ok c (map f lines) sf (map_state f st)
    = (map (map_chunk f) (fst (scan_loop create_ok c lines sf st)),
       snd (scan_loop create_ok c lines sf st)).
Proof.
  induction lines as [|line rest IH]; intros st; simpl.
  - rewrite len_map. destruct (_ >? 0); [|reflexivity].
    destruct (create_ok _); reflexivity.
  - rewrite !len_map.
    set (t := (len (currentChunk st) =? 0) && (len (previousOverlap st) >? 0)).
    replace ((if t then map f (currentChunk st) ++ map f (previousOverlap st)
              else map f (currentChunk st)) ++ [f line])
      with (map f ((if t then currentChunk st ++ previousOverlap st
                    else currentChunk st) ++ [line]))
      by (destruct t; rewrite !map_app; reflexivity).
    set (cur := (if t then _ else _) ++ [line]). clearbody cur. clear t.
    rewrite !len_map. destruct (_ >=? _).
    + destruct (create_ok _); [|reflexivity].
      specialize (IH {| currentChunk := [];
                        previousOverlap :=
                          if (OverlapSize (config c) >? 0)
                             && (len cur >? OverlapSize (config c))
                          then skipn (Z.to_nat (len cur - OverlapSize (config c))) cur
                          else [];
                        chunkNumber := wrap (chunkNumber st + 1);
                        lineNumber := wrap (lineNumber st + 1) |}).
      unfold map_state in IH. simpl in IH.
      replace (map f (if (OverlapSize (config c) >? 0)
                         && (len cur >? OverlapSize (config c))
                      then skipn (Z.to_nat (len cur - OverlapSize (config c))) cur
                      else []))
        with (if (OverlapSize (config c) >? 0)
                 && (len cur >? OverlapSize (config c))
              then skipn (Z.to_nat (len cur - OverlapSize (config c))) (map f cur)
              else []) in IH
        by (destruct (_ && _); [rewrite skipn_map|]; reflexivity).
      rewrite IH. destruct (scan_loop create_ok c rest sf _). reflexivity.
    + apply (IH {| currentChunk := cur;
                   previousOverlap := previousOverlap st;
                   chunkNumber := chunkNumber st;
                   lineNumber := wrap (lineNumber st + 1) |}).
Qed.

(** The start state of [ChunkByLines]. *)
Lemma ChunkByLines_opened {Line : Type} (create_ok : Z -> bool) (c : Chunker)
  (lines : list Line) (sf : bool) :
  ChunkByLines create_ok c (Opened lines sf)
  = scan_loop create_ok c lines sf
      {| currentChunk := []; previousOverlap := [];
         chunkNumber := 1; lineNumber := 0 |}.
Proof. reflexivity. Qed.

(** The scanner's final error only changes the result returned after the
    last flush. *)
Lemma scan_loop_scan_error {Line : Type} (create_ok : Z -> bool) (c : Chunker)
  (lines : list Line) :
  forall st,
    fst (scan_loop create_ok c lines true st)
    = fst (scan_loop create_ok c lines false st)
    /\ (snd (scan_loop create_ok c lines false st) = Completed ->
        snd (scan_loop create_ok c lines true st) = Failed ErrScan)
    /\ (forall e, snd (scan_loop create_ok c lines false st) = Failed e ->
        snd (scan_loop create_ok c lines true st) = Failed e).
Proof.
  induction lines as [|line rest IH]; intros st; simpl.
  - destruct (_ >? 0); [destruct (create_ok _)|]; simpl;
      repeat split; auto; discriminate.
  - destruct (_ >=? _); [|apply IH].
    destruct (create_ok _); [|simpl; repeat split; auto; discriminate].
    match goal with
    | |- context [scan_loop _ _ _ true ?s] => specialize (IH s)
    end.
    destruct (scan_loop create_ok c rest true _) as [f1 r1].
    destruct (scan_loop create_ok c rest false _) as [f2 r2].
    simpl in *. destruct IH as (-> & H1 & H2). auto.
Qed.

(** The chunks of a run are those flushed by the loop body, followed by at
    most one chunk: the final flush. *)
Lemma scan_loop_written {Line : Type} (create_ok : Z -> bool) (c : Chunker)
  (lines : list Line) (sf : bool) :
  forall st, exists final,
    fst (scan_loop create_ok c lines sf st)
    = written_during_scan create_ok c lines st ++ final
    /\ (length final <= 1)%nat.
Proof.
  induction lines as [|line rest IH]; intros st; simpl.
  - destruct (_ >? 0); [destruct (create_ok _)|]; simpl; eexists;
      (split; [reflexivity | simpl; lia]).
  - destruct (_ >=? _); [|apply IH].
    destruct (create_ok _); [|exists []; split; [reflexivity | simpl; lia]].
    match goal with
    | |- context [scan_loop _ _ _ _ ?s] => destruct (IH s) as (final & Hf & Hl)
    end.
    destruct (scan_loop create_ok c rest sf _) as [files res].
    simpl in *. exists final. rewrite Hf. auto.
Qed.

(** The 2500 line run, on the indices of the lines. *)
Lemma scan_2500_indices (create_ok : Z -> bool) :
  scan_loop
    (fun n => if (n =? 1) || (n =? 2) || (n =? 3) then true else create_ok n)
    (sizes 1000 50) (seq 0 2500) false
    {| currentChunk := []; previousOverlap := [];
       chunkNumber := 1; lineNumber := 0 |}
  = ([ {| lc_number := 1; lc_lines := seq 0 1000;
          lc_startLine := 1; lc_endLine := 1000 |};
       {| lc_number := 2; lc_lines := seq 950 1000;
          lc_startLine := 951; lc_endLine := 1950 |};
       {| lc_number := 3; lc_lines := seq 1900 600;
          lc_startLine := 1901; lc_endLine := 2500 |} ],
     Completed).
Proof. vm_compute. reflexivity. Qed.

Lemma scan_2500 {Line : Type} (create_ok : Z -> bool) (c : Chunker)
  (lines : list Line) :
  ChunkSize (config c) = 1000 -> OverlapSize (config c) = 50 ->
  length lines = 2500%nat ->
  create_ok 1 = true -> create_ok 2 = true -> create_ok 3 = true ->
  ChunkByLines create_ok c (Opened lines false)
  = ([ {| lc_number := 1; lc_lines := firstn 1000 lines;
          lc_startLine := 1; lc_endLine := 1000 |};
       {| lc_number := 2; lc_lines := firstn 1000 (skipn 950 lines);
          lc_startLine := 951; lc_endLine := 1950 |};
       {| lc_number := 3; lc_lines := skipn 1900 lines;
          lc_startLine := 1901; lc_endLine := 2500 |} ],
     Completed).
Proof.
  intros Hsize Hov Hlen H1 H2 H3.
  destruct lines as [|d tl] eqn:Hlines; [discriminate|]. rewrite <- Hlines in *.
  clear Hlines tl.
  rewrite ChunkByLines_opened.
  rewrite (scan_loop_config create_ok c (sizes 1000 50) Hsize Hov).
  rewrite <- ChunkByLines_opened.
  set (ok' := fun n => if (n =? 1) || (n =? 2) || (n =? 3)
                       then true else create_ok n).
  assert (Hok : forall n, create_ok n = ok' n).
  { intros n. unfold ok'.
    destruct (n =? 1) eqn:E1; [apply Z.eqb_eq in E1; subst; exact H1|].
    destruct (n =? 2) eqn:E2; [apply Z.eqb_eq in E2; subst; exact H2|].
    destruct (n =? 3) eqn:E3; [apply Z.eqb_eq in E3; subst; exact H3|].
    reflexivity. }
  rewrite ChunkByLines_opened, (scan_loop_ext _ _ ok' Hok).
  set (f := fun i => nth i lines d).
  assert (Hmap : lines = map f (seq 0 2500)).
  { unfold f. rewrite map_nth_seq by lia. simpl skipn.
    rewrite firstn_all2 by lia. reflexivity. }
  rewrite Hmap at 1.
  change {| currentChunk := []; previousOverlap := [];
            chunkNumber := 1; lineNumber := 0 |}
    with (map_state f {| currentChunk := []; previousOverlap := [];
                         chunkNumber := 1; lineNumber := 0 |}).
  rewrite scan_loop_map. unfold ok'. rewrite scan_2500_indices.
  cbn [fst snd map]. unfold map_chunk.
  cbn [lc_number lc_lines lc_startLine lc_endLine].
  unfold f. rewrite !map_nth_seq by lia. simpl skipn at 1.
  rewrite (firstn_all2 (n := 600)) by (rewrite length_skipn; lia).
  reflexivity.
Qed.

(** *** Claims about the line chunker *)

(** C3 (corrected).  On any input of 2500 lines, with chunk size 1000 and
    overlap 50, when the first three chunk files can be created the run completes
    with exactly three chunks: chunk 1 is lines 1-1000; chunk 2 is lines
    951-1950, that is the 50 lines 951-1000 again followed by 950 new lines,
    1000 lines in all; chunk 3 is lines 1901-2500. *)
Theorem scenario_2500_lines_three_chunks {Line : Type}
  (create_ok : Z -> bool) (c : Chunker) (lines : list Line) :
  ChunkSize (config c) = 1000 -> OverlapSize (config c) = 50 ->
  length lines = 2500%nat ->
  create_ok 1 = true -> create_ok 2 = true -> create_ok 3 = true ->
  exists c1 c2 c3,
    ChunkByLines create_ok c (Opened lines false)
    = ([c1; c2; c3], Completed)
    /\ lc_lines c1 = firstn 1000 lines
    /\ (lc_startLine c1, lc_endLine c1) = (1, 1000)
    /\ lc_lines c2 = firstn 50 (skipn 950 lines) ++ firstn 950 (skipn 1000 lines)
    /\ length (lc_lines c2) = 1000%nat
    /\ (lc_startLine c2, lc_endLine c2) = (951, 1950)
    /\ lc_lines c3 = skipn 1900 lines
    /\ length (lc_lines c3) = 600%nat
    /\ (lc_startLine c3, lc_endLine c3) = (1901, 2500).
Proof.
  intros Hsize Hov Hlen H1 H2 H3.
  rewrite (scan_2500 create_ok c lines Hsize Hov Hlen H1 H2 H3).
  do 3 eexists. split; [reflexivity|]. cbn [lc_lines lc_startLine lc_endLine].
  repeat split.
  - rewrite <- (firstn_skipn 50 (skipn 950 lines)) at 1.
    rewrite firstn_app, firstn_firstn, length_firstn, length_skipn.
    rewrite skipn_skipn. replace (Nat.min 1000 50) with 50%nat by reflexivity.
    replace (1000 - Nat.min 50 (length lines - 950))%nat with 950%nat by lia.
    reflexivity.
  - rewrite length_firstn, length_skipn. lia.
  - rewrite length_skipn. lia.
Qed.

Lemma numbered_length (n : nat) : length (numbered n) = n.
Proof. unfold numbered. rewrite length_map, length_seq. reflexivity. Qed.

Lemma scenario_2500_lines_three_chunks_witness :
  ChunkSize (config (sizes 1000 50)) = 1000
  /\ OverlapSize (config (sizes 1000 50)) = 50
  /\ length (numbered 2500) = 2500%nat
  /\ always_ok 1 = true /\ always_ok 2 = true /\ always_ok 3 = true
  /\ exists c1 c2 c3,
    ChunkByLines always_ok (sizes 1000 50) (Opened (numbered 2500) false)
    = ([c1; c2; c3], Completed)
    /\ lc_lines c1 = firstn 1000 (numbered 2500)
    /\ (lc_startLine c1, lc_endLine c1) = (1, 1000)
    /\ lc_lines c2 = firstn 50 (skipn 950 (numbered 2500))
                     ++ firstn 950 (skipn 1000 (numbered 2500))
    /\ length (lc_lines c2) = 1000%nat
    /\ (lc_startLine c2, lc_endLine c2) = (951, 1950)
    /\ lc_lines c3 = skipn 1900 (numbered 2500)
    /\ length (lc_lines c3) = 600%nat
    /\ (lc_startLine c3, lc_endLine c3) = (1901, 2500).
Proof.
  repeat (split; [reflexivity|]).
  apply (scenario_2500_lines_three_chunks always_ok (sizes 1000 50)
           (numbered 2500));
    reflexivity.
Defined.

(** The scenario as the specification words it fails: the second chunk has
    1000 lines, not 1050. *)
Lemma scenario_2500_as_stated_fails :
  ~ scenario_2500_as_stated (numbered 2500)
      (fst (ChunkByLines always_ok (sizes 1000 50)
              (Opened (numbered 2500) false))).
Proof.
  rewrite (scan_2500 always_ok (sizes 1000 50) (numbered 2500) eq_refl eq_refl
             (numbered_length 2500) eq_refl eq_refl eq_refl).
  intros (c1 & c2 & c3 & Hfiles & _ & _ & Hlen & _).
  cbn [fst] in Hfiles.
  apply (f_equal (fun l => match nth_error l 1 with
                           | Some ch => length (lc_lines ch)
                           | None => 0%nat
                           end)) in Hfiles.
  cbn [nth_error lc_lines] in Hfiles.
  rewrite length_firstn, length_skipn, numbered_length in Hfiles. lia.
Qed.

(** C4 (corrected).  A scan error does not change which chunks are written:
    the run writes what it would write had the input ended normally at that
    point, that is the chunks flushed while lines were read followed by the
    final flush of a buffer that is not empty, and then returns the scanner's
    error (or the chunk file creation error that stopped it earlier). *)
Theorem scan_error_reported_after_final_flush {Line : Type}
  (create_ok : Z -> bool) (c : Chunker) (lines : list Line) :
  fst (ChunkByLines create_ok c (Opened lines true))
  = fst (ChunkByLines create_ok c (Opened lines false))
  /\ (snd (ChunkByLines create_ok c (Opened lines false)) = Completed ->
      snd (ChunkByLines create_ok c (Opened lines true)) = Failed ErrScan)
  /\ (forall e, snd (ChunkByLines create_ok c (Opened lines false)) = Failed e ->
      snd (ChunkByLines create_ok c (Opened lines true)) = Failed e)
  /\ (exists final,
        fst (ChunkByLines create_ok c (Opened lines true))
        = written_during_scan create_ok c lines
            {| currentChunk := []; previousOverlap := [];
               chunkNumber := 1; lineNumber := 0 |} ++ final
        /\ (length final <= 1)%nat).
Proof.
  rewrite !ChunkByLines_opened.
  destruct (scan_loop_scan_error create_ok c lines
              {| currentChunk := []; previousOverlap := [];
                 chunkNumber := 1; lineNumber := 0 |}) as (Hfiles & Hok & Herr).
  split; [exact Hfiles|]. split; [exact Hok|]. split; [exact Herr|].
  apply scan_loop_written.
Qed.

(** One line read, then a scan error, with chunk size 2: no chunk had been
    written when the scanner stopped, yet the line is flushed as chunk 1. *)
Lemma aborts_at_scan_error_fails :
  ~ aborts_at_scan_error always_ok (sizes 2 0) [lit "a"].
Proof. unfold aborts_at_scan_error. vm_compute. discriminate. Qed.








(** C7.  In lines mode with overlap k, 0 < k < chunk size, for every two
    adjacent chunks written the last k lines of the first are the first k
    lines of the second (and both have at least k lines). *)
Theorem lines_overlap_adjacent {Line : Type}
  (create_ok : Z -> bool) (c : Chunker) (src : LineSource Line) (k : nat) :
  OverlapSize (config c) = Z.of_nat k ->
  0 < OverlapSize (config c) < ChunkSize (config c) ->
  forall i a b,
    nth_error (fst (ChunkByLines create_ok c src)) i = Some a ->
    nth_error (fst (ChunkByLines create_ok c src)) (S i) = Some b ->
    lastn k (lc_lines a) = firstn k (lc_lines b)
    /\ (k <= length (lc_lines a))%nat /\ (k <= length (lc_lines b))%nat.
Proof.
  intros Hk Hpos i a b Ha Hb.
  destruct src as [|lines sf]; [destruct i; discriminate|].
  rewrite ChunkByLines_opened in *.
  pose proof (scan_loop_chain create_ok c k Hk Hpos lines sf
                {| currentChunk := []; previousOverlap := [];
                   chunkNumber := 1; lineNumber := 0 |} None eq_refl) as Hch.
  exact (overlap_chain_nth k _ None Hch i _ _
           (map_nth_error lc_lines i _ Ha)
           (map_nth_error lc_lines (S i) _ Hb)).
Qed.

Lemma lines_overlap_adjacent_witness :
  OverlapSize (config (sizes 3 1)) = Z.of_nat 1
  /\ 0 < OverlapSize (config (sizes 3 1)) < ChunkSize (config (sizes 3 1))
  /\ nth_error
       (fst (ChunkByLines always_ok (sizes 3 1)
               (Opened [lit "a"; lit "b"; lit "c"; lit "d"] false))) 0
     = Some {| lc_number := 1; lc_lines := [lit "a"; lit "b"; lit "c"];
               lc_startLine := 1; lc_endLine := 3 |}
  /\ nth_error
       (fst (ChunkByLines always_ok (sizes 3 1)
               (Opened [lit "a"; lit "b"; lit "c"; lit "d"] false))) 1
     = Some {| lc_number := 2; lc_lines := [lit "c"; lit "d"];
               lc_startLine := 3; lc_endLine := 4 |}
  /\ (lastn 1 [lit "a"; lit "b"; lit "c"] = firstn 1 [lit "c"; lit "d"]
      /\ (1 <= 3)%nat /\ (1 <= 2)%nat).
Proof.
  split; [reflexivity|]. split; [simpl; lia|].
  split; [reflexivity|]. split; [reflexivity|].
  apply (lines_overlap_adjacent always_ok (sizes 3 1)
           (Opened [lit "a"; lit "b"; lit "c"; lit "d"] false) 1 eq_refl
           ltac:(simpl; lia) 0%nat
           {| lc_number := 1; lc_lines := [lit "a"; lit "b"; lit "c"];
              lc_startLine := 1; lc_endLine := 3 |}
           {| lc_number := 2; lc_lines := [lit "c"; lit "d"];
              lc_startLine := 3; lc_endLine := 4 |});
    reflexivity.
Defined.

(** C10.  In lines mode with 0 <= overlap < chunk size, every chunk written
    except possibly the last holds exactly chunk-size lines, the lines
    carried over from the chunk before included. *)
Theorem lines_chunks_have_chunk_size {Line : Type}
  (create_ok : Z -> bool) (c : Chunker) (src : LineSource Line) :
  0 <= OverlapSize (config c) < ChunkSize (config c) ->
  forall i ch,
    nth_error (fst (ChunkByLines create_ok c src)) i = Some ch ->
    (S i < length (fst (ChunkByLines create_ok c src)))%nat ->
    len (lc_lines ch) = ChunkSize (config c).
Proof.
  intros Hov i ch Hi Hlt.
  destruct src as [|lines sf]; [destruct i; discriminate|].
  rewrite ChunkByLines_opened in *.
  refine (all_but_last_nth (fun ch => len (lc_lines ch) = _) _ _ i ch Hi Hlt).
  apply scan_loop_full; [exact Hov | simpl; unfold len; simpl; lia ..].
Qed.

Lemma lines_chunks_have_chunk_size_witness :
  0 <= OverlapSize (config (sizes 3 1)) < ChunkSize (config (sizes 3 1))
  /\ nth_error
       (fst (ChunkByLines always_ok (sizes 3 1)
               (Opened [lit "a"; lit "b"; lit "c"; lit "d"; lit "e"; lit "f"]
                  false))) 1
     = Some {| lc_number := 2; lc_lines := [lit "c"; lit "d"; lit "e"];
               lc_startLine := 3; lc_endLine := 5 |}
  /\ (2 < length
        (fst (ChunkByLines always_ok (sizes 3 1)
                (Opened [lit "a"; lit "b"; lit "c"; lit "d"; lit "e"; lit "f"]
                   false))))%nat
  /\ len [lit "c"; lit "d"; lit "e"] = ChunkSize (config (sizes 3 1)).
Proof.
  split; [simpl; lia|]. split; [reflexivity|]. split; [simpl; lia|].
  apply (lines_chunks_have_chunk_size always_ok (sizes 3 1)
           (Opened [lit "a"; lit "b"; lit "c"; lit "d"; lit "e"; lit "f"] false)
           ltac:(simpl; lia) 1%nat
           {| lc_number := 2; lc_lines := [lit "c"; lit "d"; lit "e"];
              lc_startLine := 3; lc_endLine := 5 |});
    [reflexivity | simpl; lia].
Defined.

(** ** Character chunker *)

Lemma wrap_range (z : Z) : in_range (wrap z).
Proof.
  unfold in_range, int_min, int_max, wrap.
  pose proof (Z.mod_pos_bound (z + 2 ^ 63) (2 ^ 64) ltac:(lia)). lia.
Qed.

Lemma index_Some {A : Type} (s : list A) (i : Z) :
  0 <= i < len s -> exists x, index s i = Some x.
Proof.
  unfold index, len. intros H.
  destruct (i <? 0) eqn:E; [lia|].
  destruct (nth_error s (Z.to_nat i)) as [x|] eqn:Hn; [eauto|].
  apply nth_error_None in Hn. lia.
Qed.

Lemma slice_Some {A : Type} (s : list A) (lo hi : Z) :
  0 <= lo <= hi -> hi <= len s ->
  slice s lo hi = Some (firstn (Z.to_nat (hi - lo)) (skipn (Z.to_nat lo) s)).
Proof.
  intros H1 H2. unfold slice.
  replace ((0 <=? lo) && (lo <=? hi) && (hi <=? len s)) with true;
    [reflexivity|].
  symmetry. rewrite !andb_true_iff. repeat split; lia.
Qed.

Lemma slice_inv {A : Type} (s : list A) (lo hi : Z) (x : list A) :
  slice s lo hi = Some x ->
  0 <= lo <= hi /\ hi <= len s
  /\ x = firstn (Z.to_nat (hi - lo)) (skipn (Z.to_nat lo) s).
Proof.
  unfold slice. destruct (_ && _) eqn:E; [|discriminate].
  rewrite !andb_true_iff in E. intros [= <-]. repeat split; lia.
Qed.

(** A slice followed by the rest of the list. *)
Lemma slice_skipn {A : Type} (s : list A) (lo hi : Z) :
  0 <= lo <= hi ->
  firstn (Z.to_nat (hi - lo)) (skipn (Z.to_nat lo) s) ++ skipn (Z.to_nat hi) s
  = skipn (Z.to_nat lo) s.
Proof.
  intros H.
  replace (Z.to_nat hi) with (Z.to_nat (hi - lo) + Z.to_nat lo)%nat by lia.
  rewrite <- skipn_skipn. apply firstn_skipn.
Qed.

Section Boundary.

Variable text : gostring.
Variables start end_ : Z.
Hypothesis Hstart : 0 <= start.
Hypothesis Hend : end_ < len text.

(** What the backward search returns when it is at index [i] with [fuel]
    iterations left: an index holding a boundary byte, with none after it up
    to [i]; or [end_] unchanged, no index it looked at holding one. *)
Lemma find_boundary_from (fuel : nat) :
  forall i, i <= end_ -> in_range i ->
  exists r, find_boundary text start end_ fuel i = Some r
    /\ ((r = end_
         /\ forall j, start < j -> wrap (end_ - 100) < j ->
              i - Z.of_nat fuel < j <= i -> boundary_at text j = false)
        \/ (start < r /\ wrap (end_ - 100) < r /\ r <= i
            /\ boundary_at text r = true
            /\ forall j, r < j <= i -> boundary_at text j = false)).
Proof.
  induction fuel as [|fuel IH]; intros i Hi Hri; simpl.
  - exists end_. split; [reflexivity|]. left. split; [reflexivity|]. lia.
  - destruct ((i >? start) && (i >? wrap (end_ - 100))) eqn:Hc.
    + apply andb_true_iff in Hc. destruct Hc as [Hc1 Hc2].
      destruct (index_Some text i ltac:(lia)) as [b Hb]. rewrite Hb.
      assert (Hbi : boundary_at text i = is_boundary b)
        by (unfold boundary_at; rewrite Hb; reflexivity).
      destruct (is_boundary b) eqn:Hisb.
      * exists i. split; [reflexivity|]. right.
        split; [lia|]. split; [lia|]. split; [lia|].
        split; [exact Hbi | intros j Hj; lia].
      * rewrite (wrap_small (i - 1))
          by (unfold in_range, int_min, int_max in *; lia).
        destruct (IH (i - 1) ltac:(lia)) as (r & Hr & Hcases).
        { unfold in_range, int_min, int_max in *. lia. }
        exists r. split; [exact Hr|].
        destruct Hcases as [[Hre Hclear] | (H1 & H2 & H3 & H4 & Hclear)].
        -- left. split; [exact Hre|]. intros j Hj1 Hj2 Hj3.
           destruct (Z.eq_dec j i) as [->|Hne]; [exact Hbi|].
           apply Hclear; lia.
        -- right. split; [lia|]. split; [lia|]. split; [lia|].
           split; [exact H4|]. intros j Hj.
           destruct (Z.eq_dec j i) as [->|Hne]; [exact Hbi|].
           apply Hclear; lia.
    + exists end_. split; [reflexivity|]. left. split; [reflexivity|].
      intros j Hj1 Hj2 Hj3. apply andb_false_iff in Hc. lia.
Qed.

(** The search as [ChunkByCharacters] starts it. *)
Lemma find_boundary_spec :
  in_range end_ ->
  exists r, find_boundary text start end_ 100 end_ = Some r
    /\ (r = end_ \/ (start < r < end_))
    /\ (boundary_at text r = true
        \/ (r = end_ /\ forall j, start < j -> end_ - 100 < j <= end_ ->
                          boundary_at text j = false)).
Proof.
  intros Hr.
  destruct (find_boundary_from 100 end_ (Z.le_refl _) Hr) as (r & Hf & Hcases).
  exists r. split; [exact Hf|].
  destruct Hcases as [[-> Hclear] | (H1 & H2 & H3 & H4 & Hclear)].
  - split; [left; reflexivity|]. right. split; [reflexivity|].
    intros j Hj1 Hj2. apply Hclear; try lia.
    destruct (Z_le_gt_dec int_min (end_ - 100)) as [Hle|Hgt].
    + rewrite wrap_small; [lia|].
      unfold in_range, int_min, int_max in *. lia.
    + unfold int_min in Hgt. lia.
  - split; [lia|]. left. exact H4.
Qed.

(** More fuel than 100 changes nothing: the loop counter leaves the window
    after 100 steps. *)
Lemma find_boundary_fuel (extra : nat) :
  in_range end_ ->
  find_boundary text start end_ (100 + extra) end_
  = find_boundary text start end_ 100 end_.
Proof.
  intros Hr.
  assert (Hgen : forall fuel i, i <= end_ -> in_range i ->
            i - Z.of_nat fuel <= wrap (end_ - 100) \/ i - Z.of_nat fuel <= start ->
            find_boundary text start end_ (fuel + extra) i
            = find_boundary text start end_ fuel i).
  { induction fuel as [|fuel IH]; intros i Hi Hri Hout.
    - simpl. destruct extra; [reflexivity|]. simpl.
      replace ((i >? start) && (i >? wrap (end_ - 100))) with false;
        [reflexivity|].
      symmetry. apply andb_false_iff. lia.
    - simpl. destruct ((i >? start) && (i >? wrap (end_ - 100))) eqn:Hc;
        [|reflexivity].
      apply andb_true_iff in Hc. destruct Hc as [Hc1 Hc2].
      destruct (index text i) as [b|]; [|reflexivity].
      destruct (is_boundary b); [reflexivity|].
      rewrite (wrap_small (i - 1))
        by (unfold in_range, int_min, int_max in *; lia).
      apply IH; [lia | unfold in_range, int_min, int_max in *; lia | lia]. }
  apply Hgen; [lia | exact Hr |].
  destruct (Z_le_gt_dec int_min (end_ - 100)) as [Hle|Hgt].
  - left. rewrite wrap_small; [lia|].
    unfold in_range, int_min, int_max in *. lia.
  - right. unfold int_min in Hgt. lia.
Qed.

End Boundary.

Section CharsFacts.

Variable create_ok : Z -> bool.
Variable c : Chunker.
Variable text : gostring.

#[local] Abbreviation size := (ChunkSize (config c)).
#[local] Abbreviation overlap := (OverlapSize (config c)).

Lemma chars_loop_done (fuel : nat) (cn start : Z) :
  len text <= start -> chars_loop create_ok c fuel text cn start = ([], Completed).
Proof.
  intros H. destruct fuel; cbn [chars_loop];
    (replace (start <? len text) with false by (symmetry; apply Z.ltb_ge; lia));
    reflexivity.
Qed.

Lemma chars_loop_O (cn start : Z) :
  start < len text -> chars_loop create_ok c 0 text cn start = ([], Unfinished).
Proof.
  intros H. cbn [chars_loop].
  replace (start <? len text) with true by (symmetry; apply Z.ltb_lt; lia).
  reflexivity.
Qed.

(** One turn of the loop. *)
Lemma chars_loop_S (fuel : nat) (cn start : Z) :
  start < len text ->
  chars_loop create_ok c (S fuel) text cn start
  = match chars_end c text start with
    | None => ([], Panicked)
    | Some e =>
        match slice text start e with
        | None => ([], Panicked)
        | Some chunk =>
            if create_ok cn then
              ({| tc_number := cn; tc_content := chunk;
                  tc_start := start; tc_end := e |}
               :: fst (chars_loop create_ok c fuel text (wrap (cn + 1))
                         (next_start c e)),
               snd (chars_loop create_ok c fuel text (wrap (cn + 1))
                      (next_start c e)))
            else ([], Failed (ErrCreate cn))
        end
    end.
Proof.
  intros H. cbn [chars_loop]. unfold chars_end.
  replace (start <? len text) with true by (symmetry; apply Z.ltb_lt; lia).
  destruct (if _ <? len text then _ else _) as [e|]; [|reflexivity].
  destruct (slice text start e); [|reflexivity].
  unfold writeTextChunk. destruct (create_ok cn); [|reflexivity].
  destruct (chars_loop create_ok c fuel text _ _). reflexivity.
Qed.

Lemma next_start_nonneg (e : Z) : 0 <= e -> 0 <= next_start c e.
Proof.
  intros H. unfold next_start. destruct (overlap >? 0); [|exact H].
  destruct (_ <? 0) eqn:E; lia.
Qed.

(** Whatever the sizes, the end of a chunk is where the search put it. *)
Lemma chars_end_boundary (start e : Z) :
  0 <= start -> chars_end c text start = Some e -> e < len text ->
  boundary_at text e = true
  \/ (e = wrap (start + size)
      /\ forall j, start < j -> e - 100 < j <= e -> boundary_at text j = false).
Proof.
  unfold chars_end. intros Hs He Hlt.
  set (end0 := wrap (start + size)) in *.
  destruct (end0 >? len text) eqn:Hgt.
  - rewrite Z.ltb_irrefl in He. injection He as <-. lia.
  - destruct (end0 <? len text) eqn:Hl; [|injection He as <-; lia].
    destruct (find_boundary_spec text start end0 Hs ltac:(lia)
                (wrap_range _)) as (r & Hr & _ & Hcases).
    rewrite Hr in He. injection He as <-.
    destruct Hcases as [Hb | [-> Hclear]]; auto.
Qed.

(** Where the sum does not overflow, a chunk is not empty and stays within
    the text. *)
Lemma chars_end_progress (start : Z) :
  0 <= start < len text -> 0 < size -> start + size <= int_max ->
  exists e, chars_end c text start = Some e
    /\ start < e <= len text /\ e <= start + size
    /\ (e < len text -> start + size < len text).
Proof.
  intros Hs Hsize Hmax. unfold chars_end.
  rewrite wrap_small by (unfold in_range, int_min, int_max in *; lia).
  destruct (start + size >? len text) eqn:Hgt.
  - rewrite Z.ltb_irrefl. exists (len text). split; [reflexivity|]. lia.
  - destruct (start + size <? len text) eqn:Hl.
    + destruct (find_boundary_spec text start (start + size) ltac:(lia)
                  ltac:(lia)) as (r & Hr & Hpos & _).
      { unfold in_range, int_min, int_max in *. lia. }
      exists r. split; [exact Hr|]. lia.
    + exists (start + size). split; [reflexivity|]. lia.
Qed.

(** Every chunk written is well placed, for every configuration, file
    system and amount of fuel. *)
Lemma chars_loop_chunks (fuel : nat) :
  forall cn start, 0 <= start ->
  Forall (chunk_end_ok c text) (fst (chars_loop create_ok c fuel text cn start)).
Proof.
  induction fuel as [|fuel IH]; intros cn start Hs;
    destruct (Z_lt_ge_dec start (len text)) as [Hlt|Hge];
    try (rewrite chars_loop_done by lia; constructor).
  - rewrite chars_loop_O by lia. constructor.
  - rewrite chars_loop_S by lia.
    destruct (chars_end c text start) as [e|] eqn:He; [|constructor].
    destruct (slice text start e) as [chunk|] eqn:Hsl; [|constructor].
    destruct (create_ok cn); [|constructor]. cbn [fst].
    constructor.
    + split; [exact Hsl|]. cbn [tc_start tc_end].
      apply chars_end_boundary; assumption.
    + apply IH. apply next_start_nonneg.
      apply slice_inv in Hsl. lia.
Qed.

(** A run that has come to an end is not changed by more fuel. *)
Lemma chars_loop_fuel_mono (fuel : nat) :
  forall cn start,
    snd (chars_loop create_ok c fuel text cn start) <> Unfinished ->
    forall extra,
      chars_loop create_ok c (fuel + extra) text cn start
      = chars_loop create_ok c fuel text cn start.
Proof.
  induction fuel as [|fuel IH]; intros cn start Hfin extra;
    destruct (Z_lt_ge_dec start (len text)) as [Hlt|Hge];
    try (rewrite !chars_loop_done by lia; reflexivity).
  - rewrite chars_loop_O in Hfin by lia. contradiction Hfin. reflexivity.
  - change (S fuel + extra)%nat with (S (fuel + extra)).
    rewrite chars_loop_S in Hfin by lia. rewrite !chars_loop_S by lia.
    destruct (chars_end c text start) as [e|]; [|reflexivity].
    destruct (slice text start e); [|reflexivity].
    destruct (create_ok cn); [|reflexivity].
    cbn [snd] in Hfin. rewrite (IH _ _ Hfin). reflexivity.
Qed.

(** Without overlap the next chunk starts where this one ends, the loop
    stops within [len text - start] turns, and what it has written when it
    completes is the text from [start] on. *)
Lemma chars_loop_no_overlap :
  overlap = 0 -> 0 < size ->
  forall fuel cn start,
    0 <= start <= len text ->
    (start < len text ->
     start + size <= int_max
     /\ (len text + size <= int_max \/ len text <= start + size)) ->
    (Z.to_nat (len text - start) <= fuel)%nat ->
    (snd (chars_loop create_ok c fuel text cn start) = Completed
     \/ exists n, snd (chars_loop create_ok c fuel text cn start)
                  = Failed (ErrCreate n))
    /\ (snd (chars_loop create_ok c fuel text cn start) = Completed ->
        concat (map tc_content (fst (chars_loop create_ok c fuel text cn start)))
        = skipn (Z.to_nat start) text).
Proof.
  intros Hov Hsize.
  induction fuel as [|fuel IH]; intros cn start Hs Hmax Hfuel;
    destruct (Z_lt_ge_dec start (len text)) as [Hlt|Hge];
    try (rewrite chars_loop_done by lia; cbn [fst snd map concat];
         split; [left; reflexivity | intros _; symmetry; apply skipn_all2;
                 unfold len in *; lia]).
  rewrite chars_loop_S by lia.
  destruct (Hmax Hlt) as [Hmax1 Hmax2].
  destruct (chars_end_progress start ltac:(lia) Hsize Hmax1)
    as (e & He & Hpos & Hle & Hmore).
  rewrite He, (slice_Some text start e) by lia.
  destruct (create_ok cn); cbn [fst snd];
    [|split; [right; eexists; reflexivity | discriminate]].
  assert (Hnext : next_start c e = e)
    by (unfold next_start; rewrite Hov; reflexivity).
  rewrite Hnext.
  destruct (IH (wrap (cn + 1)) e ltac:(lia) ltac:(lia) ltac:(lia))
    as [Hres Hcat].
  split; [exact Hres|]. intros Hdone. cbn [map concat tc_content].
  rewrite (Hcat Hdone). apply slice_skipn. lia.
Qed.

(** Without overlap the chunks written, however the run ends, are
    consecutive non-empty slices of the text. *)
Lemma chars_loop_tiles :
  overlap = 0 -> 0 < size ->
  forall fuel cn start,
    0 <= start <= len text ->
    (start < len text ->
     start + size <= int_max
     /\ (len text + size <= int_max \/ len text <= start + size)) ->
    tiles text start (fst (chars_loop create_ok c fuel text cn start)).
Proof.
  intros Hov Hsize.
  induction fuel as [|fuel IH]; intros cn start Hs Hmax;
    destruct (Z_lt_ge_dec start (len text)) as [Hlt|Hge];
    try (rewrite chars_loop_done by lia; exact I).
  - rewrite chars_loop_O by lia. exact I.
  - rewrite chars_loop_S by lia.
    destruct (Hmax Hlt) as [Hmax1 Hmax2].
    destruct (chars_end_progress start ltac:(lia) Hsize Hmax1)
      as (e & He & Hpos & Hle & Hmore).
    rewrite He, (slice_Some text start e) by lia.
    destruct (create_ok cn); cbn [fst]; [|exact I].
    assert (Hnext : next_start c e = e)
      by (unfold next_start; rewrite Hov; reflexivity).
    rewrite Hnext. cbn [tiles tc_start tc_end tc_content].
    split; [reflexivity|]. split; [lia|].
    split; [apply slice_Some; lia|]. apply IH; lia.
Qed.

(** With a positive overlap no longer than the text the cursor never reaches
    the end of the text: once a chunk ends at [len text], the next one starts
    [overlap] bytes before it, again and again. *)
Lemma chars_loop_overlap_diverges :
  0 < overlap <= len text -> 0 < size -> len text + size <= int_max ->
  (forall n, create_ok n = true) ->
  forall fuel cn start,
    0 <= start < len text ->
    snd (chars_loop create_ok c fuel text cn start) = Unfinished.
Proof.
  intros Hov Hsize Hmax Hok.
  induction fuel as [|fuel IH]; intros cn start Hs.
  - rewrite chars_loop_O by lia. reflexivity.
  - rewrite chars_loop_S by lia.
    destruct (chars_end_progress start Hs Hsize ltac:(lia))
      as (e & He & Hpos & Hle & Hmore).
    rewrite He, (slice_Some text start e), Hok by lia. cbn [snd].
    apply IH. unfold next_start.
    replace (overlap >? 0) with true by (symmetry; apply Z.gtb_lt; lia).
    rewrite wrap_small by (unfold in_range, int_min, int_max in *; lia).
    destruct (e - overlap <? 0) eqn:E; lia.
Qed.

End CharsFacts.

(** Only the two sizes of the configuration matter. *)
Lemma chars_loop_config (create_ok : Z -> bool) (c c' : Chunker)
  (text : gostring) :
  ChunkSize (config c) = ChunkSize (config c') ->
  OverlapSize (config c) = OverlapSize (config c') ->
  forall fuel cn start,
    chars_loop create_ok c fuel text cn start
    = chars_loop create_ok c' fuel text cn start.
Proof.
  intros Hsize Hov.
  assert (Hend : forall start, chars_end c text start = chars_end c' text start)
    by (intros start; unfold chars_end; rewrite Hsize; reflexivity).
  assert (Hnext : forall e, next_start c e = next_start c' e)
    by (intros e; unfold next_start; rewrite Hov; reflexivity).
  induction fuel as [|fuel IH]; intros cn start;
    destruct (Z_lt_ge_dec start (len text)) as [Hlt|Hge];
    try (rewrite !chars_loop_done by lia; reflexivity).
  - rewrite !chars_loop_O by lia. reflexivity.
  - rewrite !chars_loop_S by lia. rewrite Hend.
    destruct (chars_end c' text start) as [e|]; [|reflexivity].
    destruct (slice text start e); [|reflexivity].
    rewrite Hnext, IH. reflexivity.
Qed.

(** Only the answers of the file system matter. *)
Lemma chars_loop_ext (ok ok' : Z -> bool) (c : Chunker) (text : gostring) :
  (forall n, ok n = ok' n) ->
  forall fuel cn start,
    chars_loop ok c fuel text cn start = chars_loop ok' c fuel text cn start.
Proof.
  intros Hok.
  induction fuel as [|fuel IH]; intros cn start;
    destruct (Z_lt_ge_dec start (len text)) as [Hlt|Hge];
    try (rewrite !chars_loop_done by lia; reflexivity).
  - rewrite !chars_loop_O by lia. reflexivity.
  - rewrite !chars_loop_S by lia.
    destruct (chars_end c text start) as [e|]; [|reflexivity].
    destruct (slice text start e); [|reflexivity].
    rewrite Hok, IH. reflexivity.
Qed.

(** A sum of a position in the text and a Go [int] that comes out at or
    after the position has not wrapped. *)
Lemma wrap_add_ge (a b : Z) :
  0 <= a <= int_max -> in_range b -> a <= wrap (a + b) -> wrap (a + b) = a + b.
Proof.
  unfold in_range, int_min, int_max, wrap. intros Ha Hb Hge.
  destruct (Z_le_gt_dec (a + b) (2 ^ 63 - 1)) as [Hle|Hgt].
  - rewrite Z.mod_small; lia.
  - exfalso. revert Hge.
    replace (a + b + 2 ^ 63) with (a + b - 2 ^ 63 + 1 * 2 ^ 64) by lia.
    rewrite Z.mod_add by lia. rewrite Z.mod_small; lia.
Qed.

Lemma non_boundary_of_boundary (text : gostring) (j : Z) :
  0 <= j < len text -> boundary_at text j = false ->
  non_boundary_at text j = true.
Proof.
  intros Hj. unfold boundary_at, non_boundary_at.
  destruct (index_Some text j Hj) as [b ->]. intros ->. reflexivity.
Qed.

Lemma boundary_not_non_boundary (text : gostring) (j : Z) :
  boundary_at text j = true -> non_boundary_at text j = false.
Proof.
  unfold boundary_at, non_boundary_at.
  destruct (index text j); [intros ->; reflexivity | discriminate].
Qed.

Lemma run_back_ge (text : gostring) (lo : Z) (n : nat) :
  forall j,
    (forall i, lo < i <= j -> non_boundary_at text i = true) ->
    Z.min (Z.of_nat n) (j - lo) <= Z.of_nat (run_back text n j).
Proof.
  induction n as [|n IH]; intros j Hrun; simpl run_back; [lia|].
  destruct (Z_le_gt_dec j lo) as [Hle|Hgt]; [lia|].
  rewrite Hrun by lia.
  specialize (IH (j - 1) ltac:(intros i Hi; apply Hrun; lia)). lia.
Qed.

(** In consecutive chunks the byte at which one ends is the first byte of
    the next. *)
Lemma tiles_adjacent (text : gostring) (files : list TextChunk) :
  forall start i a b,
    0 <= start -> tiles text start files ->
    nth_error files i = Some a -> nth_error files (S i) = Some b ->
    tc_start b = tc_end a
    /\ hd_error (tc_content b) = index text (tc_end a).
Proof.
  induction files as [|ch rest IH]; intros start i a b Hs Htiles Ha Hb.
  - destruct i; discriminate.
  - destruct Htiles as (Hst & Hend & Hsl & Hrest).
    destruct i as [|i]; simpl in Ha, Hb.
    + injection Ha as <-. destruct rest as [|ch' rest]; [discriminate|].
      simpl in Hb. injection Hb as <-.
      destruct Hrest as (Hst' & Hend' & Hsl' & _).
      split; [exact Hst'|].
      apply slice_inv in Hsl'. destruct Hsl' as (_ & _ & ->).
      unfold index. replace (tc_end ch <? 0) with false by (symmetry; lia).
      rewrite <- hd_error_skipn.
      replace (Z.to_nat (tc_end ch' - tc_end ch))
        with (S (Z.to_nat (tc_end ch' - tc_end ch - 1))) by lia.
      destruct (skipn (Z.to_nat (tc_end ch)) text); reflexivity.
    + apply (IH (tc_end ch) i a b); [lia | assumption ..].
Qed.

(** *** Claims about the character chunker *)

(** C2 (corrected).  On the text "a b c d e" with strategy chars, chunk size
    5 and overlap 0 the chunker writes exactly two chunks: "a b c", bytes
    0-5, and " d e", bytes 5-9; the space the search stopped at is the first
    byte of the second chunk. *)
Theorem scenario_a_b_c_d_e (create_ok : Z -> bool) (c : Chunker) (fuel : nat) :
  ChunkSize (config c) = 5 -> OverlapSize (config c) = 0 ->
  create_ok 1 = true -> create_ok 2 = true -> (2 <= fuel)%nat ->
  ChunkByCharacters create_ok c fuel (ReadOk (lit "a b c d e"))
  = ([ {| tc_number := 1; tc_content := lit "a b c";
          tc_start := 0; tc_end := 5 |};
       {| tc_number := 2; tc_content := lit " d e";
          tc_start := 5; tc_end := 9 |} ],
     Completed).
Proof.
  intros Hsize Hov H1 H2 Hfuel.
  set (ok' := fun n => if (n =? 1) || (n =? 2) then true else create_ok n).
  assert (Hok : forall n, create_ok n = ok' n).
  { intros n. unfold ok'.
    destruct (n =? 1) eqn:E1; [apply Z.eqb_eq in E1; subst; exact H1|].
    destruct (n =? 2) eqn:E2; [apply Z.eqb_eq in E2; subst; exact H2|].
    reflexivity. }
  unfold ChunkByCharacters.
  rewrite (chars_loop_config create_ok c (sizes 5 0) _ Hsize Hov).
  rewrite (chars_loop_ext _ ok' _ _ Hok).
  replace fuel with (2 + (fuel - 2))%nat by lia.
  rewrite chars_loop_fuel_mono; vm_compute; [reflexivity | discriminate].
Qed.

Lemma scenario_a_b_c_d_e_witness :
  ChunkSize (config (sizes 5 0)) = 5 /\ OverlapSize (config (sizes 5 0)) = 0
  /\ always_ok 1 = true /\ always_ok 2 = true /\ (2 <= 9)%nat
  /\ ChunkByCharacters always_ok (sizes 5 0) 9 (ReadOk (lit "a b c d e"))
     = ([ {| tc_number := 1; tc_content := lit "a b c";
             tc_start := 0; tc_end := 5 |};
          {| tc_number := 2; tc_content := lit " d e";
             tc_start := 5; tc_end := 9 |} ],
        Completed).
Proof.
  do 4 (split; [reflexivity|]). split; [lia|].
  apply (scenario_a_b_c_d_e always_ok (sizes 5 0) 9); try reflexivity. lia.
Defined.

(** The scenario as the specification words it fails: the run completes,
    but its second chunk is " d e", not "d e". *)
Lemma scenario_a_b_c_d_e_as_stated_fails :
  snd (ChunkByCharacters always_ok (sizes 5 0) 9 (ReadOk (lit "a b c d e")))
  = Completed
  /\ map tc_content
       (fst (ChunkByCharacters always_ok (sizes 5 0) 9
               (ReadOk (lit "a b c d e"))))
     <> [lit "a b c"; lit "d e"].
Proof. split; [vm_compute; reflexivity | vm_compute; discriminate]. Qed.

(** A run of the character chunker fails only with a chunk file that could
    not be created. *)
Lemma chars_loop_status (create_ok : Z -> bool) (c : Chunker)
  (text : gostring) :
  forall fuel cn start e,
    snd (chars_loop create_ok c fuel text cn start) = Failed e ->
    exists n, e = ErrCreate n /\ create_ok n = false.
Proof.
  induction fuel as [|fuel IH]; intros cn start e;
    destruct (Z_lt_ge_dec start (len text)) as [Hlt|Hge];
    try (rewrite chars_loop_done by lia; discriminate).
  - rewrite chars_loop_O by lia. discriminate.
  - rewrite chars_loop_S by lia.
    destruct (chars_end c text start) as [e'|]; [|discriminate].
    destruct (slice text start e') as [chunk|]; [|discriminate].
    destruct (create_ok cn) eqn:Hok; cbn [snd].
    + apply IH.
    + intros [= <-]. exists cn. split; [reflexivity | exact Hok].
Qed.

(** The first chunk of a run starts where the run starts, and every other
    chunk where the overlap rule puts it. *)
Lemma chars_loop_first_start (create_ok : Z -> bool) (c : Chunker)
  (text : gostring) (fuel : nat) (cn start : Z) (ch : TextChunk) :
  hd_error (fst (chars_loop create_ok c fuel text cn start)) = Some ch ->
  tc_start ch = start.
Proof.
  destruct fuel as [|fuel];
    destruct (Z_lt_ge_dec start (len text)) as [Hlt|Hge];
    try (rewrite chars_loop_done by lia; discriminate).
  - rewrite chars_loop_O by lia. discriminate.
  - rewrite chars_loop_S by lia.
    destruct (chars_end c text start) as [e'|]; [|discriminate].
    destruct (slice text start e') as [chunk|]; [|discriminate].
    destruct (create_ok cn); [|discriminate].
    cbn [fst hd_error]. intros [= <-]. reflexivity.
Qed.

Lemma chars_loop_next_start (create_ok : Z -> bool) (c : Chunker)
  (text : gostring) :
  forall fuel cn start i a b,
    nth_error (fst (chars_loop create_ok c fuel text cn start)) i = Some a ->
    nth_error (fst (chars_loop create_ok c fuel text cn start)) (S i) = Some b ->
    tc_start b = next_start c (tc_end a).
Proof.
  induction fuel as [|fuel IH]; intros cn start i a b;
    destruct (Z_lt_ge_dec start (len text)) as [Hlt|Hge];
    try (rewrite chars_loop_done by lia; destruct i; discriminate).
  - rewrite chars_loop_O by lia. destruct i; discriminate.
  - rewrite chars_loop_S by lia.
    destruct (chars_end c text start) as [e'|]; [|destruct i; discriminate].
    destruct (slice text start e') as [chunk|]; [|destruct i; discriminate].
    destruct (create_ok cn); [|destruct i; discriminate].
    cbn [fst]. destruct i as [|i]; cbn [nth_error].
    + intros [= <-] Hb. cbn [tc_end].
      apply (chars_loop_first_start create_ok c text fuel (wrap (cn + 1))).
      destruct (fst (chars_loop create_ok c fuel text (wrap (cn + 1))
                       (next_start c e'))); [discriminate | exact Hb].
    + apply IH.
Qed.

(** The end of a chunk is a Go int. *)
Lemma chars_end_max (c : Chunker) (text : gostring) (start e : Z) :
  0 <= start -> chars_end c text start = Some e -> e <= int_max.
Proof.
  unfold chars_end. intros Hs.
  set (end0 := wrap (start + ChunkSize (config c))).
  pose proof (wrap_range (start + ChunkSize (config c))) as Hr.
  fold end0 in Hr.
  destruct (end0 >? len text) eqn:Hgt.
  - rewrite Z.ltb_irrefl. intros [= <-]. unfold in_range in Hr. lia.
  - destruct (end0 <? len text) eqn:Hl.
    + destruct (find_boundary_from text start end0 Hs ltac:(lia) 100 end0
                  (Z.le_refl _) Hr) as (r & Hf & Hcases).
      rewrite Hf. intros [= <-]. unfold in_range in Hr.
      destruct Hcases as [[-> _] | (_ & _ & Hle & _)]; lia.
    + intros [= <-]. unfold in_range in Hr. lia.
Qed.

Lemma chars_loop_end_max (create_ok : Z -> bool) (c : Chunker)
  (text : gostring) :
  forall fuel cn start, 0 <= start ->
    Forall (fun ch => tc_end ch <= int_max)
      (fst (chars_loop create_ok c fuel text cn start)).
Proof.
  induction fuel as [|fuel IH]; intros cn start Hs;
    destruct (Z_lt_ge_dec start (len text)) as [Hlt|Hge];
    try (rewrite chars_loop_done by lia; constructor).
  - rewrite chars_loop_O by lia. constructor.
  - rewrite chars_loop_S by lia.
    destruct (chars_end c text start) as [e|] eqn:He; [|constructor].
    destruct (slice text start e) as [chunk|] eqn:Hsl; [|constructor].
    destruct (create_ok cn); [|constructor]. cbn [fst].
    constructor.
    + cbn [tc_end]. apply (chars_end_max c text start); assumption.
    + apply IH. apply next_start_nonneg. apply slice_inv in Hsl. lia.
Qed.

(** Where the overlap rule puts the next start. *)
Lemma next_start_cases (c : Chunker) (e : Z) :
  0 <= e <= int_max ->
  (OverlapSize (config c) <= 0 -> next_start c e = e)
  /\ (0 < OverlapSize (config c) <= e ->
      next_start c e = e - OverlapSize (config c))
  /\ (e < OverlapSize (config c) <= int_max -> next_start c e = e).
Proof.
  intros He. unfold next_start. split; [|split]; intros Hov.
  - replace (OverlapSize (config c) >? 0) with false by (symmetry; lia).
    reflexivity.
  - replace (OverlapSize (config c) >? 0) with true by (symmetry; lia).
    rewrite wrap_small by (unfold in_range, int_min, int_max in *; lia).
    replace (e - OverlapSize (config c) <? 0) with false by (symmetry; lia).
    reflexivity.
  - replace (OverlapSize (config c) >? 0) with true by (symmetry; lia).
    rewrite wrap_small by (unfold in_range, int_min, int_max in *; lia).
    replace (e - OverlapSize (config c) <? 0) with true by (symmetry; lia).
    reflexivity.
Qed.

(** C8 (corrected).  A chunk of the character chunker that ends before the
    end of the text either ends at a boundary byte (space, newline or tab),
    or ends chunk-size bytes after its start with no boundary byte at any
    index j, max(start, end-100) < j <= end.  So a chunk end splits a run of
    non-boundary bytes only if the run has at least min(chunk size, 100)
    bytes.  The chunk holds the bytes from its start up to its end, the byte
    at the end excluded.  The chunk after it starts at that end when the
    overlap is not positive or larger than the end, and overlap bytes before
    the end when 0 < overlap <= end.  This holds for every configuration
    whose chunk size is a Go int, every file system and however long the
    loop runs. *)
Theorem chars_chunk_end_placement (create_ok : Z -> bool) (c : Chunker)
  (text : gostring) (fuel : nat) (ch : TextChunk) :
  in_range (ChunkSize (config c)) ->
  In ch (fst (ChunkByCharacters create_ok c fuel (ReadOk text))) ->
  tc_end ch < len text ->
  (boundary_at text (tc_end ch) = true
   \/ (tc_end ch = tc_start ch + ChunkSize (config c)
       /\ forall j, tc_start ch < j -> tc_end ch - 100 < j <= tc_end ch ->
            boundary_at text j = false))
  /\ (splits_run text (tc_end ch) = true ->
      Z.min (ChunkSize (config c)) 100
      <= Z.of_nat (run_length text (tc_end ch)))
  /\ slice text (tc_start ch) (tc_end ch) = Some (tc_content ch)
  /\ (forall i next,
        nth_error (fst (ChunkByCharacters create_ok c fuel (ReadOk text))) i
        = Some ch ->
        nth_error (fst (ChunkByCharacters create_ok c fuel (ReadOk text))) (S i)
        = Some next ->
        (OverlapSize (config c) <= 0 -> tc_start next = tc_end ch)
        /\ (0 < OverlapSize (config c) <= tc_end ch ->
            tc_start next = tc_end ch - OverlapSize (config c))
        /\ (tc_end ch < OverlapSize (config c) <= int_max ->
            tc_start next = tc_end ch)).
Proof.
  intros Hsize Hin Hlt. unfold ChunkByCharacters in *.
  pose proof (chars_loop_chunks create_ok c text fuel 1 0 (Z.le_refl 0)) as Hall.
  rewrite Forall_forall in Hall. destruct (Hall ch Hin) as [Hsl Hend].
  pose proof Hsl as Hbounds.
  apply slice_inv in Hbounds. destruct Hbounds as (Hlo & Hhi & _).
  assert (Hcases :
    boundary_at text (tc_end ch) = true
    \/ (tc_end ch = tc_start ch + ChunkSize (config c)
        /\ forall j, tc_start ch < j -> tc_end ch - 100 < j <= tc_end ch ->
             boundary_at text j = false)).
  { destruct (Hend Hlt) as [Hb | [Heq Hclear]]; [left; exact Hb | right].
    split; [|exact Hclear]. rewrite Heq. apply wrap_add_ge.
    - pose proof (wrap_range (tc_start ch + ChunkSize (config c))) as Hr.
      unfold in_range in Hr. lia.
    - exact Hsize.
    - lia. }
  split; [exact Hcases|]. split; [|split; [exact Hsl|]].
  - intros Hsplit.
    unfold splits_run in Hsplit. apply andb_true_iff in Hsplit.
    destruct Hsplit as [_ Hat].
    destruct Hcases as [Hb | [Heq Hclear]].
    + rewrite (boundary_not_non_boundary _ _ Hb) in Hat. discriminate.
    + unfold run_length.
      pose proof (run_back_ge text (Z.max (tc_start ch) (tc_end ch - 100))
                    (length text) (tc_end ch - 1)) as Hback.
      specialize (Hback ltac:(intros i Hi; apply non_boundary_of_boundary;
                              [lia | apply Hclear; lia])).
      assert (Hfwd : (1 <= run_fwd text (length text) (tc_end ch))%nat).
      { destruct text as [|b t] eqn:Ht; [unfold len in Hlt; simpl in Hlt; lia|].
        rewrite <- Ht in *. rewrite Ht at 2. simpl length. simpl run_fwd.
        rewrite Hat. lia. }
      unfold len in *. lia.
  - intros i next Hi Hnext.
    rewrite (chars_loop_next_start create_ok c text fuel 1 0 i ch next Hi Hnext).
    apply next_start_cases.
    pose proof (chars_loop_end_max create_ok c text fuel 1 0 (Z.le_refl 0))
      as Hmax.
    rewrite Forall_forall in Hmax. specialize (Hmax ch Hin). lia.
Qed.

Lemma chars_chunk_end_placement_witness :
  in_range (ChunkSize (config (sizes 8 3)))
  /\ In {| tc_number := 1; tc_content := lit "hello";
           tc_start := 0; tc_end := 5 |}
       (fst (ChunkByCharacters always_ok (sizes 8 3) 3
               (ReadOk (lit "hello world foo bar"))))
  /\ 5 < len (lit "hello world foo bar")
  /\ boundary_at (lit "hello world foo bar") 5 = true
  /\ slice (lit "hello world foo bar") 0 5 = Some (lit "hello")
  /\ nth_error (fst (ChunkByCharacters always_ok (sizes 8 3) 3
                       (ReadOk (lit "hello world foo bar")))) 1
     = Some {| tc_number := 2; tc_content := lit "llo";
               tc_start := 2; tc_end := 5 |}
  /\ 2 = 5 - OverlapSize (config (sizes 8 3)).
Proof.
  split; [unfold in_range; vm_compute; split; discriminate|].
  split; [vm_compute; left; reflexivity|]. split; [vm_compute; reflexivity|].
  split; [vm_compute; reflexivity|].
  destruct (chars_chunk_end_placement always_ok (sizes 8 3)
              (lit "hello world foo bar") 3
              {| tc_number := 1; tc_content := lit "hello";
                 tc_start := 0; tc_end := 5 |})
    as (_ & _ & Hslice & Hnext).
  - unfold in_range. vm_compute. split; discriminate.
  - vm_compute. left. reflexivity.
  - vm_compute. reflexivity.
  - split; [exact Hslice|]. split; [vm_compute; reflexivity|].
    destruct (Hnext 0%nat {| tc_number := 2; tc_content := lit "llo";
                             tc_start := 2; tc_end := 5 |})
      as (_ & Hov & _).
    + vm_compute. reflexivity.
    + vm_compute. reflexivity.
    + apply Hov. vm_compute. split; [reflexivity | discriminate].
Defined.

(** The property as the specification words it fails: with chunk size 5 the
    8 byte word "abcdefgh" is cut after "abcde". *)
Lemma never_splits_short_runs_fails :
  ~ never_splits_short_runs (lit "abcdefgh")
      (fst (ChunkByCharacters always_ok (sizes 5 0) 8
              (ReadOk (lit "abcdefgh")))).
Proof.
  intros H.
  assert (Hlen : (100 < run_length (lit "abcdefgh") 5)%nat).
  { apply (H {| tc_number := 1; tc_content := lit "abcde";
                tc_start := 0; tc_end := 5 |}).
    - vm_compute. left. reflexivity.
    - vm_compute. reflexivity.
    - vm_compute. reflexivity. }
  assert (Hrun : run_length (lit "abcdefgh") 5 = 8%nat)
    by (vm_compute; reflexivity).
  rewrite Hrun in Hlen. lia.
Qed.

(** Nor does it hold for large chunks: with chunk size 100, a run of exactly
    100 bytes that starts at index 1 is cut before its last byte. *)
Example run_of_100_is_split :
  let text := lit " " ++ repeat "a"%char 100 ++ lit " b" in
  exists ch,
    In ch (fst (ChunkByCharacters always_ok (sizes 100 0) 103 (ReadOk text)))
    /\ tc_end ch = 100
    /\ splits_run text (tc_end ch) = true
    /\ run_length text (tc_end ch) = 100%nat.
Proof.
  intros text.
  exists {| tc_number := 1; tc_content := lit " " ++ repeat "a"%char 99;
            tc_start := 0; tc_end := 100 |}.
  vm_compute. auto.
Qed.

(** With an overlap a chunk starts [overlap] bytes before the end of the one
    before it, wherever that is: here in the middle of "hello". *)
Example overlap_chunk_starts_inside_word :
  fst (ChunkByCharacters always_ok (sizes 8 3) 2
         (ReadOk (lit "hello world foo bar")))
  = [ {| tc_number := 1; tc_content := lit "hello";
         tc_start := 0; tc_end := 5 |};
      {| tc_number := 2; tc_content := lit "llo";
         tc_start := 2; tc_end := 5 |} ].
Proof. vm_compute. reflexivity. Qed.

(** C9.  With strategy chars and overlap 0, for a chunk size that is a
    positive Go int and a text shorter than 2^62 bytes, the loop ends within
    [len text] turns.  When every chunk file can be created the run
    completes; a run that fails stopped at a chunk file that could not be
    created.  When the run completes, the contents of the chunks in order
    concatenate to the text, byte for byte.  Each chunk starts at the index
    at which the one before it ended, so the boundary byte the search
    stopped at is the first byte of the next chunk. *)
Theorem chars_no_overlap_concat (create_ok : Z -> bool) (c : Chunker)
  (text : gostring) (fuel : nat) :
  OverlapSize (config c) = 0 ->
  0 < ChunkSize (config c) <= int_max ->
  len text < 2 ^ 62 ->
  (length text <= fuel)%nat ->
  ((forall n, create_ok n = true) ->
   snd (ChunkByCharacters create_ok c fuel (ReadOk text)) = Completed)
  /\ (forall e, snd (ChunkByCharacters create_ok c fuel (ReadOk text))
                = Failed e ->
      exists n, e = ErrCreate n /\ create_ok n = false)
  /\ (snd (ChunkByCharacters create_ok c fuel (ReadOk text)) = Completed
      \/ exists n, snd (ChunkByCharacters create_ok c fuel (ReadOk text))
                   = Failed (ErrCreate n))
  /\ (snd (ChunkByCharacters create_ok c fuel (ReadOk text)) = Completed ->
      concat (map tc_content
                (fst (ChunkByCharacters create_ok c fuel (ReadOk text))))
      = text)
  /\ (forall i a b,
        nth_error (fst (ChunkByCharacters create_ok c fuel (ReadOk text))) i
        = Some a ->
        nth_error (fst (ChunkByCharacters create_ok c fuel (ReadOk text))) (S i)
        = Some b ->
        tc_start b = tc_end a
        /\ hd_error (tc_content b) = index text (tc_end a)).
Proof.
  intros Hov Hsize Hlen Hfuel. unfold ChunkByCharacters.
  assert (H0 : 0 <= 0 <= len text) by (pose proof (len_nonneg text); lia).
  assert (Hmax : 0 < len text ->
            0 + ChunkSize (config c) <= int_max
            /\ (len text + ChunkSize (config c) <= int_max
                \/ len text <= 0 + ChunkSize (config c))).
  { intros _. unfold int_max in *.
    destruct (Z_le_gt_dec (len text) (ChunkSize (config c))); lia. }
  destruct (chars_loop_no_overlap create_ok c text Hov ltac:(lia) fuel 1 0
              H0 Hmax ltac:(unfold len; lia)) as [Hres Hcat].
  pose proof (chars_loop_status create_ok c text fuel 1 0) as Hwhy.
  split; [|split; [exact Hwhy|split; [exact Hres|split; [exact Hcat|]]]].
  - intros Hok. destruct Hres as [Hdone | (n & Hn)]; [exact Hdone|].
    destruct (Hwhy _ Hn) as (m & _ & Hm). rewrite Hok in Hm. discriminate.
  - intros i a b Ha Hb.
    apply (tiles_adjacent text _ 0 i a b (Z.le_refl 0)
             (chars_loop_tiles create_ok c text Hov ltac:(lia) fuel 1 0 H0 Hmax)
             Ha Hb).
Qed.

Lemma chars_no_overlap_concat_witness :
  OverlapSize (config (sizes 5 0)) = 0
  /\ 0 < ChunkSize (config (sizes 5 0)) <= int_max
  /\ len (lit "a b c d e") < 2 ^ 62
  /\ (length (lit "a b c d e") <= 9)%nat
  /\ (forall n, always_ok n = true)
  /\ snd (ChunkByCharacters always_ok (sizes 5 0) 9
            (ReadOk (lit "a b c d e"))) = Completed
  /\ map tc_content
       (fst (ChunkByCharacters always_ok (sizes 5 0) 9
               (ReadOk (lit "a b c d e"))))
     = [lit "a b c"; lit " d e"]
  /\ concat (map tc_content
               (fst (ChunkByCharacters always_ok (sizes 5 0) 9
                       (ReadOk (lit "a b c d e")))))
     = lit "a b c d e".
Proof.
  split; [reflexivity|].
  split; [unfold int_max; simpl; lia|].
  split; [vm_compute; reflexivity|]. split; [simpl; lia|].
  split; [reflexivity|].
  destruct (chars_no_overlap_concat always_ok (sizes 5 0)
              (lit "a b c d e") 9)
    as (Hdone & _ & _ & Hcat & _).
  - reflexivity.
  - unfold int_max. simpl. lia.
  - vm_compute. reflexivity.
  - simpl. lia.
  - split; [apply Hdone; reflexivity|].
    split; [vm_compute; reflexivity|].
    apply Hcat, Hdone. reflexivity.
Defined.

(** ** Runes *)

Lemma byte_val_range (b : ascii) : 0 <= byte_val b < 256.
Proof. unfold byte_val. pose proof (N_ascii_bounded b). lia. Qed.

Lemma byte_val_to_byte (z : Z) : 0 <= z < 256 -> byte_val (to_byte z) = z.
Proof.
  intros H. unfold byte_val, to_byte. rewrite Z.mod_small by lia.
  rewrite N_ascii_embedding by lia. lia.
Qed.

(** What [range] yields is always a scalar value. *)
Lemma decoderune_valid (b : ascii) (rest : gostring) :
  valid_rune (fst (decoderune b rest)).
Proof.
  pose proof (byte_val_range b) as Hb.
  assert (Herr : valid_rune RuneError)
    by (unfold valid_rune, RuneError, MaxRune; lia).
  unfold decoderune.
  destruct (byte_val b <? 128) eqn:E1;
    [cbn [fst]; unfold valid_rune; lia|].
  destruct ((192 <=? byte_val b) && (byte_val b <? 224)) eqn:E2.
  { destruct rest as [|b1 rest]; [exact Herr|].
    pose proof (byte_val_range b1).
    destruct (is_cont b1 && _) eqn:E3; [|exact Herr].
    cbn [fst]. unfold valid_rune, is_cont in *. lia. }
  destruct ((224 <=? byte_val b) && (byte_val b <? 240)) eqn:E3.
  { destruct rest as [|b1 [|b2 rest]]; try exact Herr.
    pose proof (byte_val_range b1). pose proof (byte_val_range b2).
    destruct (is_cont b1 && _ && _ && _) eqn:E4; [|exact Herr].
    cbn [fst]. unfold valid_rune, is_cont, MaxRune in *. lia. }
  destruct ((240 <=? byte_val b) && (byte_val b <? 248)) eqn:E4;
    [|exact Herr].
  destruct rest as [|b1 [|b2 [|b3 rest]]]; try exact Herr.
  destruct (is_cont b1 && _ && _ && _ && _) eqn:E5; [|exact Herr].
  cbn [fst]. unfold valid_rune, is_cont, MaxRune in *. lia.
Qed.

Lemma runes_from_valid (s : gostring) :
  forall skip, Forall valid_rune (runes_from skip s).
Proof.
  induction s as [|b rest IH]; intros skip; simpl; [constructor|].
  destruct skip as [|k]; [|apply IH].
  pose proof (decoderune_valid b rest) as Hv.
  destruct (decoderune b rest) as [r width]. constructor; [exact Hv | apply IH].
Qed.

Lemma runes_from_length (s : gostring) :
  forall skip, (length (runes_from skip s) <= length s)%nat.
Proof.
  induction s as [|b rest IH]; intros skip; simpl; [lia|].
  destruct skip as [|k]; [|specialize (IH k); lia].
  destruct (decoderune b rest) as [r width]. simpl.
  specialize (IH (Nat.pred width)). lia.
Qed.

(** Decoding the encoding of a scalar value gives it back, whatever
    follows. *)
Lemma runes_from_encoded (r : rune) (rest : gostring) :
  valid_rune r ->
  runes_from 0 (encoderune r ++ rest) = r :: runes_from 0 rest.
Proof.
  unfold valid_rune, MaxRune. intros Hv. unfold encoderune, MaxRune, RuneError.
  destruct ((0 <=? r) && (r <=? 127)) eqn:C1.
  { cbn [app runes_from]. unfold decoderune.
    rewrite !byte_val_to_byte by lia. decide_tests. reflexivity. }
  destruct ((0 <=? r) && (r <=? 2047)) eqn:C2.
  { cbn [app runes_from]. unfold decoderune, is_cont.
    rewrite !byte_val_to_byte by (Z.to_euclidean_division_equations; lia).
    decide_tests. cbn [Nat.pred runes_from]. f_equal.
    Z.to_euclidean_division_equations. lia. }
  replace ((r <? 0) || (1114111 <? r) || ((55296 <=? r) && (r <=? 57343)))
    with false by (symmetry; lia).
  destruct (r <=? 65535) eqn:C3.
  { cbn [app runes_from]. unfold decoderune, is_cont.
    rewrite !byte_val_to_byte by (Z.to_euclidean_division_equations; lia).
    decide_tests. cbn [Nat.pred runes_from]. f_equal.
    Z.to_euclidean_division_equations. lia. }
  cbn [app runes_from]. unfold decoderune, is_cont, MaxRune.
  rewrite !byte_val_to_byte by (Z.to_euclidean_division_equations; lia).
  decide_tests. cbn [Nat.pred runes_from]. f_equal.
  Z.to_euclidean_division_equations. lia.
Qed.

Lemma encode_all_app (rs1 rs2 : list rune) :
  encode_all (rs1 ++ rs2) = encode_all rs1 ++ encode_all rs2.
Proof. unfold encode_all. rewrite map_app, concat_app. reflexivity. Qed.

Lemma runes_encode_all (rs : list rune) (rest : gostring) :
  Forall valid_rune rs ->
  runes (encode_all rs ++ rest) = rs ++ runes rest.
Proof.
  unfold runes. induction 1 as [|r rs Hr Hrs IH]; [reflexivity|].
  unfold encode_all in *. cbn [map concat]. rewrite <- app_assoc.
  rewrite runes_from_encoded by exact Hr. rewrite IH. reflexivity.
Qed.

Lemma encoderune_nonempty (r : rune) : 0 < len (encoderune r).
Proof.
  unfold encoderune.
  repeat match goal with
  | |- context [if ?b then _ else _] => destruct b
  end; unfold len; simpl; lia.
Qed.

Lemma encode_all_nonempty (rs : list rune) :
  rs <> [] -> 0 < len (encode_all rs).
Proof.
  destruct rs as [|r rs]; [contradiction|]. intros _.
  unfold encode_all. cbn [map concat]. rewrite len_app.
  pose proof (encoderune_nonempty r). pose proof (len_nonneg (concat (map encoderune rs))).
  lia.
Qed.

(** ** Tokenizer *)

Lemma tokenize_unfold (text : gostring) :
  tokenize text = flush_current (fold_left tokenize_step (runes text) ([], [])).
Proof. reflexivity. Qed.

Lemma punct_rune_valid (p : rune) :
  is_punct_rune p = true -> valid_rune p /\ is_space_rune p = false.
Proof.
  unfold is_punct_rune, is_space_rune, valid_rune, MaxRune.
  change (rune_lit ".") with 46. change (rune_lit ",") with 44.
  change (rune_lit ";") with 59. change (rune_lit ":") with 58.
  change (rune_lit "!") with 33. change (rune_lit "?") with 63.
  change (rune_lit "(") with 40. change (rune_lit ")") with 41.
  change (rune_lit "[") with 91. change (rune_lit "]") with 93.
  change (rune_lit "{") with 123. change (rune_lit "}") with 125.
  change (rune_lit " ") with 32. change (rune_lit "009") with 9.
  change (rune_lit "010") with 10.
  intros H. split; lia.
Qed.

Lemma space_decoded (rest : gostring) :
  runes (lit " " ++ rest) = rune_lit " " :: runes rest.
Proof. reflexivity. Qed.

(** The loop of [tokenize] over a run of plain runes only extends the
    current run. *)
Lemma tokenize_plain_run (rs : list rune) :
  Forall plain_rune rs ->
  forall tokens current,
    fold_left tokenize_step rs (tokens, current)
    = (tokens, current ++ encode_all rs).
Proof.
  induction 1 as [|r rs (Hv & Hs & Hp) Hrs IH]; intros tokens current.
  - unfold encode_all. simpl. rewrite app_nil_r. reflexivity.
  - cbn [fold_left]. unfold tokenize_step at 2. rewrite Hs, Hp, IH.
    unfold encode_all. cbn [map concat]. rewrite app_assoc. reflexivity.
Qed.

(** A token followed by a space is appended to the tokens, and leaves no
    run behind. *)
Lemma tokenize_token_space (t : gostring) (tokens : list gostring) :
  is_token t ->
  fold_left tokenize_step (runes (t ++ lit " ")) (tokens, [])
  = (tokens ++ [t], [])
  /\ flush_current (fold_left tokenize_step (runes t) (tokens, []))
     = tokens ++ [t]
  /\ forall rest, runes (t ++ rest) = runes t ++ runes rest.
Proof.
  intros (rs & Hne & -> & Hshape).
  assert (Hvalid : Forall valid_rune rs).
  { destruct Hshape as [Hplain | (p & -> & Hp)].
    - eapply Forall_impl; [|exact Hplain]. intros r Hr. apply Hr.
    - constructor; [apply punct_rune_valid; exact Hp | constructor]. }
  assert (Hrunes : forall rest, runes (encode_all rs ++ rest) = rs ++ runes rest)
    by (intros rest; apply runes_encode_all; exact Hvalid).
  assert (Hself : runes (encode_all rs) = rs).
  { rewrite <- (app_nil_r (encode_all rs)), Hrunes. apply app_nil_r. }
  pose proof (encode_all_nonempty rs Hne) as Hlen.
  split; [|split].
  - rewrite Hrunes, fold_left_app.
    destruct Hshape as [Hplain | (p & -> & Hp)].
    + rewrite tokenize_plain_run by exact Hplain. cbn [app].
      change (runes (lit " ")) with [rune_lit " "]. cbn [fold_left].
      unfold tokenize_step. change (is_space_rune (rune_lit " ")) with true.
      cbv iota. replace (len (encode_all rs) >? 0) with true by (symmetry; lia).
      reflexivity.
    + destruct (punct_rune_valid p Hp) as [_ Hs].
      change (runes (lit " ")) with [rune_lit " "]. cbn [fold_left].
      unfold tokenize_step. rewrite Hs, Hp.
      change (is_space_rune (rune_lit " ")) with true. cbv iota.
      change (len (@nil ascii) >? 0) with false. cbv iota.
      unfold encode_all. cbn [map concat]. rewrite app_nil_r. reflexivity.
  - rewrite Hself. destruct Hshape as [Hplain | (p & -> & Hp)].
    + rewrite tokenize_plain_run by exact Hplain. cbn [app flush_current].
      replace (len (encode_all rs) >? 0) with true by (symmetry; lia).
      reflexivity.
    + destruct (punct_rune_valid p Hp) as [_ Hs]. cbn [fold_left].
      unfold tokenize_step. rewrite Hs, Hp.
      change (len (@nil ascii) >? 0) with false. cbv iota.
      unfold encode_all, flush_current. cbn [map concat].
      rewrite app_nil_r. reflexivity.
  - intros rest. rewrite Hrunes, Hself. reflexivity.
Qed.

(** Tokenizing tokens joined by single spaces gives the tokens back. *)
Lemma tokenize_Join (toks : list gostring) :
  Forall is_token toks ->
  forall tokens,
    flush_current
      (fold_left tokenize_step (runes (Join toks (lit " "))) (tokens, []))
    = tokens ++ toks.
Proof.
  induction 1 as [|t toks Ht Htoks IH]; intros tokens.
  - simpl. rewrite app_nil_r. reflexivity.
  - destruct (tokenize_token_space t tokens Ht) as (Hsp & Hlast & Hrunes).
    destruct toks as [|t' toks].
    + cbn [Join]. exact Hlast.
    + change (Join (t :: t' :: toks) (lit " "))
        with (t ++ lit " " ++ Join (t' :: toks) (lit " ")).
      rewrite app_assoc.
      destruct (tokenize_token_space t tokens Ht) as (_ & _ & Hr).
      assert (Hsplit : forall rest,
                runes ((t ++ lit " ") ++ rest) = runes (t ++ lit " ") ++ runes rest).
      { intros rest. rewrite <- app_assoc, !Hr. rewrite space_decoded.
        change (runes (lit " ")) with [rune_lit " "].
        rewrite <- app_assoc. reflexivity. }
      rewrite Hsplit, fold_left_app, Hsp, IH, <- app_assoc. reflexivity.
Qed.

(** The invariant of the loop of [tokenize]: the tokens have the shape of
    tokens and the current run is made of plain runes. *)
Lemma tokenize_step_shape (rs : list rune) :
  Forall valid_rune rs ->
  forall tokens run,
    Forall is_token tokens -> Forall plain_rune run ->
    exists tokens' run',
      fold_left tokenize_step rs (tokens, encode_all run) = (tokens', encode_all run')
      /\ Forall is_token tokens' /\ Forall plain_rune run'.
Proof.
  induction 1 as [|r rs Hr Hrs IH]; intros tokens run Htok Hrun.
  - exists tokens, run. auto.
  - cbn [fold_left]. unfold tokenize_step at 2.
    assert (Hflush : (len (encode_all run) >? 0) = true ->
                     Forall is_token (tokens ++ [encode_all run])).
    { intros Hlen. apply Forall_app. split; [exact Htok|].
      constructor; [|constructor]. exists run.
      split; [intros ->; discriminate Hlen|]. auto. }
    destruct (is_space_rune r) eqn:Hs.
    + destruct (len (encode_all run) >? 0) eqn:Hlen.
      * apply (IH _ [] (Hflush eq_refl)). constructor.
      * apply IH; assumption.
    + destruct (is_punct_rune r) eqn:Hp.
      * apply (IH _ []); [|constructor].
        apply Forall_app. split.
        -- destruct (len (encode_all run) >? 0); auto.
        -- constructor; [|constructor]. exists [r].
           split; [discriminate|]. split.
           ++ unfold encode_all. simpl. rewrite app_nil_r. reflexivity.
           ++ right. exists r. auto.
      * replace (encode_all run ++ encoderune r) with (encode_all (run ++ [r])).
        -- apply IH; [exact Htok|]. apply Forall_app. split; [exact Hrun|].
           constructor; [|constructor]. repeat split; assumption.
        -- rewrite encode_all_app. unfold encode_all at 2. simpl.
           rewrite app_nil_r. reflexivity.
Qed.

Lemma tokenize_tokens (text : gostring) : Forall is_token (tokenize text).
Proof.
  rewrite tokenize_unfold.
  destruct (tokenize_step_shape (runes text) (runes_from_valid text 0) [] []
              (Forall_nil _) (Forall_nil _)) as (tokens & run & Hfold & Htok & Hrun).
  match type of Hfold with
  | ?l = _ => change (Forall is_token (flush_current l))
  end.
  rewrite Hfold.
  unfold flush_current. destruct (len (encode_all run) >? 0) eqn:Hlen;
    [|exact Htok].
  apply Forall_app. split; [exact Htok|]. constructor; [|constructor].
  exists run. split; [intros ->; discriminate Hlen|]. auto.
Qed.

(** Re-tokenizing the tokens of a text, joined by spaces, changes nothing. *)
Lemma tokenize_Join_tokenize (text : gostring) :
  tokenize (Join (tokenize text) (lit " ")) = tokenize text.
Proof.
  rewrite (tokenize_unfold (Join _ _)).
  apply (tokenize_Join _ (tokenize_tokens text) []).
Qed.

(** There are no more tokens than bytes. *)
Lemma tokenize_step_count (rs : list rune) :
  forall tokens current,
    (length (flush_current (fold_left tokenize_step rs (tokens, current)))
     <= length (flush_current (tokens, current)) + length rs)%nat.
Proof.
  induction rs as [|r rs IH]; intros tokens current; [simpl; lia|].
  cbn [fold_left]. unfold tokenize_step at 2.
  destruct (is_space_rune r).
  - destruct (len current >? 0) eqn:Hlen.
    + etransitivity; [apply IH|]. unfold flush_current. rewrite Hlen.
      change (len (@nil ascii) >? 0) with false. cbv iota. simpl. lia.
    + etransitivity; [apply IH|]. simpl. lia.
  - destruct (is_punct_rune r).
    + etransitivity; [apply IH|]. unfold flush_current.
      change (len (@nil ascii) >? 0) with false. cbv iota.
      destruct (len current >? 0); rewrite ?length_app; simpl; lia.
    + etransitivity; [apply IH|]. unfold flush_current.
      destruct (len (current ++ encoderune r) >? 0), (len current >? 0);
        rewrite ?length_app; simpl; lia.
Qed.

Lemma tokenize_length (text : gostring) :
  (length (tokenize text) <= length text)%nat.
Proof.
  rewrite tokenize_unfold.
  etransitivity; [apply tokenize_step_count|]. simpl.
  apply runes_from_length.
Qed.

(** ** Token chunker *)

Lemma Join_app (p q : list gostring) (sep : gostring) :
  p <> [] -> q <> [] -> Join (p ++ q) sep = Join p sep ++ sep ++ Join q sep.
Proof.
  intros Hp Hq. induction p as [|x p IH]; [contradiction|].
  destruct p as [|y p].
  - destruct q as [|z q]; [contradiction|]. reflexivity.
  - change (Join ((x :: y :: p) ++ q) sep)
      with (x ++ sep ++ Join ((y :: p) ++ q) sep).
    rewrite IH by discriminate.
    change (Join (x :: y :: p) sep) with (x ++ sep ++ Join (y :: p) sep).
    rewrite <- !app_assoc. reflexivity.
Qed.

(** Joining chunks that are themselves joined tokens joins all the tokens. *)
Lemma Join_concat (parts : list (list gostring)) (sep : gostring) :
  Forall (fun p => p <> []) parts ->
  Join (map (fun p => Join p sep) parts) sep = Join (concat parts) sep.
Proof.
  induction 1 as [|p parts Hp Hparts IH]; [reflexivity|].
  destruct parts as [|q parts].
  - simpl. rewrite app_nil_r. reflexivity.
  - change (Join (map (fun p => Join p sep) (p :: q :: parts)) sep)
      with (Join p sep ++ sep ++ Join (map (fun p => Join p sep) (q :: parts)) sep).
    rewrite IH.
    change (concat (p :: q :: parts)) with (p ++ concat (q :: parts)).
    rewrite Join_app; [reflexivity | exact Hp |].
    inversion Hparts as [|? ? Hq _]. destruct q; [contradiction | discriminate].
Qed.

Section TokensFacts.

Variable create_ok : Z -> bool.
Variable c : Chunker.
Variable tokens : list gostring.

#[local] Abbreviation size := (ChunkSize (config c)).
#[local] Abbreviation overlap := (OverlapSize (config c)).

Lemma tokens_loop_done (fuel : nat) (cn start : Z) :
  len tokens <= start ->
  tokens_loop create_ok c fuel tokens cn start = ([], Completed).
Proof.
  intros H. destruct fuel; cbn [tokens_loop];
    (replace (start <? len tokens) with false by (symmetry; apply Z.ltb_ge; lia));
    reflexivity.
Qed.

Lemma tokens_loop_O (cn start : Z) :
  start < len tokens ->
  tokens_loop create_ok c 0 tokens cn start = ([], Unfinished).
Proof.
  intros H. cbn [tokens_loop].
  replace (start <? len tokens) with true by (symmetry; apply Z.ltb_lt; lia).
  reflexivity.
Qed.

(** One turn of the loop. *)
Lemma tokens_loop_S (fuel : nat) (cn start : Z) :
  start < len tokens ->
  tokens_loop create_ok c (S fuel) tokens cn start
  = match slice tokens start (tokens_end c tokens start) with
    | None => ([], Panicked)
    | Some chunkTokens =>
        if create_ok cn then
          ({| tc_number := cn; tc_content := Join chunkTokens (lit " ");
              tc_start := start; tc_end := tokens_end c tokens start |}
           :: fst (tokens_loop create_ok c fuel tokens (wrap (cn + 1))
                     (next_start c (tokens_end c tokens start))),
           snd (tokens_loop create_ok c fuel tokens (wrap (cn + 1))
                  (next_start c (tokens_end c tokens start))))
        else ([], Failed (ErrCreate cn))
    end.
Proof.
  intros H. cbn [tokens_loop]. unfold tokens_end.
  replace (start <? len tokens) with true by (symmetry; apply Z.ltb_lt; lia).
  destruct (slice tokens start _); [|reflexivity].
  unfold writeTextChunk. destruct (create_ok cn); [|reflexivity].
  destruct (tokens_loop create_ok c fuel tokens _ _). reflexivity.
Qed.

Lemma tokens_end_progress (start : Z) :
  0 <= start < len tokens -> 0 < size -> start + size <= int_max ->
  start < tokens_end c tokens start <= len tokens
  /\ (tokens_end c tokens start < len tokens -> start + size < len tokens).
Proof.
  intros Hs Hsize Hmax. unfold tokens_end.
  rewrite wrap_small by (unfold in_range, int_min, int_max in *; lia).
  destruct (start + size >? len tokens) eqn:Hgt; lia.
Qed.

Lemma tokens_loop_fuel_mono (fuel : nat) :
  forall cn start,
    snd (tokens_loop create_ok c fuel tokens cn start) <> Unfinished ->
    forall extra,
      tokens_loop create_ok c (fuel + extra) tokens cn start
      = tokens_loop create_ok c fuel tokens cn start.
Proof.
  induction fuel as [|fuel IH]; intros cn start Hfin extra;
    destruct (Z_lt_ge_dec start (len tokens)) as [Hlt|Hge];
    try (rewrite !tokens_loop_done by lia; reflexivity).
  - rewrite tokens_loop_O in Hfin by lia. contradiction Hfin. reflexivity.
  - change (S fuel + extra)%nat with (S (fuel + extra)).
    rewrite tokens_loop_S in Hfin by lia. rewrite !tokens_loop_S by lia.
    destruct (slice tokens start _); [|reflexivity].
    destruct (create_ok cn); [|reflexivity].
    cbn [snd] in Hfin. rewrite (IH _ _ Hfin). reflexivity.
Qed.

(** Without overlap the chunks written by a completed run are the tokens
    from [start] on, cut into non-empty pieces, each joined by spaces. *)
Lemma tokens_loop_no_overlap :
  overlap = 0 -> 0 < size ->
  forall fuel cn start,
    0 <= start <= len tokens ->
    (start < len tokens ->
     start + size <= int_max
     /\ (len tokens + size <= int_max \/ len tokens <= start + size)) ->
    (Z.to_nat (len tokens - start) <= fuel)%nat ->
    (snd (tokens_loop create_ok c fuel tokens cn start) = Completed
     \/ exists n, snd (tokens_loop create_ok c fuel tokens cn start)
                  = Failed (ErrCreate n))
    /\ (snd (tokens_loop create_ok c fuel tokens cn start) = Completed ->
        exists parts,
          map tc_content (fst (tokens_loop create_ok c fuel tokens cn start))
          = map (fun p => Join p (lit " ")) parts
          /\ concat parts = skipn (Z.to_nat start) tokens
          /\ Forall (fun p => p <> []) parts).
Proof.
  intros Hov Hsize.
  induction fuel as [|fuel IH]; intros cn start Hs Hmax Hfuel;
    destruct (Z_lt_ge_dec start (len tokens)) as [Hlt|Hge];
    try (rewrite tokens_loop_done by lia; cbn [fst snd map];
         split; [left; reflexivity | intros _; exists []];
         split; [reflexivity | split; [|constructor]];
         symmetry; apply skipn_all2; unfold len in *; lia).
  rewrite tokens_loop_S by lia.
  destruct (Hmax Hlt) as [Hmax1 Hmax2].
  destruct (tokens_end_progress start ltac:(lia) Hsize Hmax1) as [Hpos Hmore].
  set (e := tokens_end c tokens start) in *.
  rewrite (slice_Some tokens start e) by lia.
  destruct (create_ok cn); cbn [fst snd];
    [|split; [right; eexists; reflexivity | discriminate]].
  assert (Hnext : next_start c e = e)
    by (unfold next_start; rewrite Hov; reflexivity).
  rewrite Hnext.
  destruct (IH (wrap (cn + 1)) e ltac:(lia) ltac:(lia) ltac:(lia))
    as [Hres Hparts].
  split; [exact Hres|]. intros Hdone.
  destruct (Hparts Hdone) as (parts & Hmap & Hcat & Hne).
  exists (firstn (Z.to_nat (e - start)) (skipn (Z.to_nat start) tokens) :: parts).
  cbn [map concat tc_content]. rewrite Hmap, Hcat.
  split; [reflexivity|]. split; [apply slice_skipn; lia|].
  constructor; [|exact Hne]. intros Hnil.
  apply (f_equal (@length gostring)) in Hnil.
  rewrite length_firstn, length_skipn in Hnil. unfold len in *.
  simpl in Hnil. lia.
Qed.

(** With a positive overlap no larger than the number of tokens the loop
    never ends. *)
Lemma tokens_loop_overlap_diverges :
  0 < overlap <= len tokens -> 0 < size -> len tokens + size <= int_max ->
  (forall n, create_ok n = true) ->
  forall fuel cn start,
    0 <= start < len tokens ->
    snd (tokens_loop create_ok c fuel tokens cn start) = Unfinished.
Proof.
  intros Hov Hsize Hmax Hok.
  induction fuel as [|fuel IH]; intros cn start Hs.
  - rewrite tokens_loop_O by lia. reflexivity.
  - rewrite tokens_loop_S by lia.
    destruct (tokens_end_progress start Hs Hsize ltac:(lia)) as [Hpos Hmore].
    set (e := tokens_end c tokens start) in *.
    rewrite (slice_Some tokens start e), Hok by lia. cbn [snd].
    apply IH. unfold next_start.
    replace (overlap >? 0) with true by (symmetry; apply Z.gtb_lt; lia).
    rewrite wrap_small by (unfold in_range, int_min, int_max in *; lia).
    destruct (e - overlap <? 0) eqn:E; lia.
Qed.

End TokensFacts.

(** *** Claims about the token chunker and about termination *)

(** A run of the token chunker fails only with a chunk file that could not
    be created. *)
Lemma tokens_loop_status (create_ok : Z -> bool) (c : Chunker)
  (tokens : list gostring) :
  forall fuel cn start e,
    snd (tokens_loop create_ok c fuel tokens cn start) = Failed e ->
    exists n, e = ErrCreate n /\ create_ok n = false.
Proof.
  induction fuel as [|fuel IH]; intros cn start e;
    destruct (Z_lt_ge_dec start (len tokens)) as [Hlt|Hge];
    try (rewrite tokens_loop_done by lia; discriminate).
  - rewrite tokens_loop_O by lia. discriminate.
  - rewrite tokens_loop_S by lia.
    destruct (slice tokens start _) as [chunk|]; [|discriminate].
    destruct (create_ok cn) eqn:Hok; cbn [snd].
    + apply IH.
    + intros [= <-]. exists cn. split; [reflexivity | exact Hok].
Qed.

(** C5.  With strategy tokens and overlap 0, for a chunk size that is a
    positive Go int and a text shorter than 2^62 bytes, the loop ends within
    [len text] turns.  When every chunk file can be created the run
    completes; a run that fails stopped at a chunk file that could not be
    created.  When the run completes, the chunk contents joined by single
    spaces tokenize to the tokens of the whole text. *)
Theorem tokens_no_overlap_reassemble (create_ok : Z -> bool) (c : Chunker)
  (text : gostring) (fuel : nat) :
  OverlapSize (config c) = 0 ->
  0 < ChunkSize (config c) <= int_max ->
  len text < 2 ^ 62 ->
  (length text <= fuel)%nat ->
  ((forall n, create_ok n = true) ->
   snd (ChunkByTokens create_ok c fuel (ReadOk text)) = Completed)
  /\ (forall e, snd (ChunkByTokens create_ok c fuel (ReadOk text)) = Failed e ->
      exists n, e = ErrCreate n /\ create_ok n = false)
  /\ (snd (ChunkByTokens create_ok c fuel (ReadOk text)) = Completed
      \/ exists n, snd (ChunkByTokens create_ok c fuel (ReadOk text))
                   = Failed (ErrCreate n))
  /\ (snd (ChunkByTokens create_ok c fuel (ReadOk text)) = Completed ->
      tokenize
        (Join (map tc_content
                 (fst (ChunkByTokens create_ok c fuel (ReadOk text))))
           (lit " "))
      = tokenize text).
Proof.
  intros Hov Hsize Hlen Hfuel. unfold ChunkByTokens.
  pose proof (tokenize_length text) as Hcount.
  pose proof (tokens_loop_status create_ok c (tokenize text) fuel 1 0) as Hwhy.
  destruct (tokens_loop_no_overlap create_ok c (tokenize text) Hov
              ltac:(lia) fuel 1 0) as [Hres Hparts].
  - pose proof (len_nonneg (tokenize text)). lia.
  - intros _. unfold int_max, len in *.
    destruct (Z_le_gt_dec (Z.of_nat (length (tokenize text)))
                (ChunkSize (config c))); lia.
  - unfold len. lia.
  - split; [|split; [exact Hwhy|split; [exact Hres|]]].
    + intros Hok. destruct Hres as [Hdone | (n & Hn)]; [exact Hdone|].
      destruct (Hwhy _ Hn) as (m & _ & Hm). rewrite Hok in Hm. discriminate.
    + intros Hdone.
      destruct (Hparts Hdone) as (parts & Hmap & Hcat & Hne).
      rewrite Hmap, Join_concat, Hcat by exact Hne.
      apply tokenize_Join_tokenize.
Qed.

Lemma tokens_no_overlap_reassemble_witness :
  OverlapSize (config (sizes 3 0)) = 0
  /\ 0 < ChunkSize (config (sizes 3 0)) <= int_max
  /\ len (lit "Hello, world! (a b)") < 2 ^ 62
  /\ (length (lit "Hello, world! (a b)") <= 19)%nat
  /\ (forall n, always_ok n = true)
  /\ snd (ChunkByTokens always_ok (sizes 3 0) 19
            (ReadOk (lit "Hello, world! (a b)"))) = Completed
  /\ map tc_content
       (fst (ChunkByTokens always_ok (sizes 3 0) 19
               (ReadOk (lit "Hello, world! (a b)"))))
     = [lit "Hello , world"; lit "! ( a"; lit "b )"]
  /\ tokenize
       (Join (map tc_content
                (fst (ChunkByTokens always_ok (sizes 3 0) 19
                        (ReadOk (lit "Hello, world! (a b)")))))
          (lit " "))
     = tokenize (lit "Hello, world! (a b)").
Proof.
  split; [reflexivity|].
  split; [unfold int_max; simpl; lia|].
  split; [vm_compute; reflexivity|]. split; [simpl; lia|].
  split; [reflexivity|].
  destruct (tokens_no_overlap_reassemble always_ok (sizes 3 0)
              (lit "Hello, world! (a b)") 19)
    as (Hdone & _ & _ & Heq).
  - reflexivity.
  - unfold int_max. simpl. lia.
  - vm_compute. reflexivity.
  - simpl. lia.
  - split; [apply Hdone; reflexivity|].
    split; [vm_compute; reflexivity|].
    apply Heq, Hdone. reflexivity.
Defined.

(** The defect in general: with 0 < overlap < chunk size, on a text of at
    least [overlap] bytes (tokens) the loop never ends, if every chunk file
    can be created. *)
Corollary chars_overlap_never_ends (c : Chunker) (text : gostring) (fuel : nat) :
  0 < OverlapSize (config c) < ChunkSize (config c) ->
  OverlapSize (config c) <= len text ->
  len text + ChunkSize (config c) <= int_max ->
  snd (ChunkByCharacters always_ok c fuel (ReadOk text)) = Unfinished.
Proof.
  intros Hov Hlen Hmax. unfold ChunkByCharacters.
  apply chars_loop_overlap_diverges; try lia. reflexivity.
Qed.

Corollary tokens_overlap_never_ends (c : Chunker) (text : gostring) (fuel : nat) :
  0 < OverlapSize (config c) < ChunkSize (config c) ->
  OverlapSize (config c) <= len (tokenize text) ->
  len (tokenize text) + ChunkSize (config c) <= int_max ->
  snd (ChunkByTokens always_ok c fuel (ReadOk text)) = Unfinished.
Proof.
  intros Hov Hlen Hmax. unfold ChunkByTokens.
  apply tokens_loop_overlap_diverges; try lia. reflexivity.
Qed.

(** C1 (defect in the code).  With chunk size 5 and overlap 2 neither loop
    terminates on a three-byte, three-token input, although every chunk
    file can be created: on "abc" the character chunker, and on "a b c" the
    token chunker, is still running after any number of turns. *)
Theorem overlap_loops_do_not_terminate (fuel : nat) :
  snd (ChunkByCharacters always_ok (sizes 5 2) fuel (ReadOk (lit "abc")))
  = Unfinished
  /\ snd (ChunkByTokens always_ok (sizes 5 2) fuel (ReadOk (lit "a b c")))
     = Unfinished.
Proof.
  split.
  - apply chars_loop_overlap_diverges; try reflexivity; vm_compute;
      intuition congruence.
  - apply tokens_loop_overlap_diverges; try reflexivity; vm_compute;
      intuition congruence.
Qed.

(** ** Further properties of the code *)

(** ** More on the line chunker *)

Lemma slice_middle {A : Type} (pre mid post : list A) :
  slice (pre ++ mid ++ post) (len pre) (len pre + len mid) = Some mid.
Proof.
  rewrite slice_Some.
  - f_equal. unfold len.
    replace (Z.to_nat (Z.of_nat (length pre) + Z.of_nat (length mid)
                       - Z.of_nat (length pre))) with (length mid) by lia.
    rewrite Nat2Z.id, skipn_app, skipn_all, Nat.sub_diag. simpl.
    rewrite firstn_app, firstn_all, Nat.sub_diag. simpl. apply app_nil_r.
  - pose proof (len_nonneg pre). pose proof (len_nonneg mid). lia.
  - rewrite !len_app. pose proof (len_nonneg post). lia.
Qed.

(** The buffer and, right after a flush, the carried-over lines are the
    lines read last; so a chunk is the window of the input that its line
    range names. *)
Lemma scan_loop_ranges {Line : Type} (create_ok : Z -> bool) (c : Chunker)
  (all : list Line) :
  len all <= int_max ->
  forall lines done sf st,
    all = done ++ lines ->
    lineNumber st = len done ->
    (exists pre, done = pre ++ currentChunk st) ->
    (currentChunk st = [] -> exists pre, done = pre ++ previousOverlap st) ->
    Forall (fun ch =>
              slice all (lc_startLine ch - 1) (lc_endLine ch) = Some (lc_lines ch)
              /\ 1 <= lc_startLine ch <= lc_endLine ch)
      (fst (scan_loop create_ok c lines sf st)).
Proof.
  intros Hmax lines.
  induction lines as [|line rest IH]; intros done sf st Hall Hln Hcur Hprev.
  - simpl. rewrite app_nil_r in Hall. subst all.
    destruct (len (currentChunk st) >? 0) eqn:Hlen; [|constructor].
    destruct (create_ok _); [|constructor].
    constructor; [|constructor]. cbn [lc_startLine lc_endLine lc_lines].
    destruct Hcur as [pre Hpre]. rewrite Hln.
    assert (Hlens : len done = len pre + len (currentChunk st))
      by (rewrite Hpre at 1; apply len_app).
    pose proof (len_nonneg pre).
    rewrite (wrap_small (len done - _))
      by (unfold in_range, int_min, int_max in *; lia).
    rewrite wrap_small by (unfold in_range, int_min, int_max in *; lia).
    split; [|lia].
    replace (len done - len (currentChunk st) + 1 - 1) with (len pre) by lia.
    rewrite Hlens. rewrite Hpre at 1.
    rewrite <- (app_nil_r (currentChunk st)) at 1. apply slice_middle.
  - simpl.
    set (cur0 := if _ && _ then _ else _).
    assert (Hcur0 : exists pre, done = pre ++ cur0).
    { subst cur0. destruct (_ && _) eqn:Ht; [|exact Hcur].
      apply andb_true_iff in Ht. destruct Ht as [Ht _].
      apply Z.eqb_eq, len_nil_iff in Ht. rewrite Ht. simpl. auto. }
    clearbody cur0. destruct Hcur0 as [pre Hpre].
    assert (Hall' : all = (done ++ [line]) ++ rest)
      by (rewrite <- app_assoc; exact Hall).
    assert (Hlens : len (done ++ [line]) = len pre + len (cur0 ++ [line])).
    { rewrite Hpre, <- app_assoc. apply len_app. }
    assert (Hdone : len (done ++ [line]) = len done + 1) by apply len_app.
    assert (Hbound : len (done ++ [line]) <= int_max).
    { rewrite Hall', len_app in Hmax. pose proof (len_nonneg rest). lia. }
    pose proof (len_nonneg pre). pose proof (len_nonneg done).
    assert (Hone : len (cur0 ++ [line]) = len cur0 + 1) by apply len_app.
    pose proof (len_nonneg cur0).
    assert (Hln' : wrap (lineNumber st + 1) = len (done ++ [line])).
    { rewrite Hln, wrap_small; [lia|].
      unfold in_range, int_min, int_max in *. lia. }
    rewrite Hln'.
    destruct (_ >=? _) eqn:Hfull.
    + destruct (create_ok _); [|constructor].
      match goal with
      | |- context [scan_loop _ _ _ _ ?s] =>
          specialize (IH (done ++ [line]) sf s Hall')
      end.
      destruct (scan_loop create_ok c rest sf _) as [files res].
      cbn [fst] in *. constructor.
      * cbn [lc_startLine lc_endLine lc_lines].
        rewrite (wrap_small (len (done ++ [line]) - _))
          by (unfold in_range, int_min, int_max in *; lia).
        rewrite wrap_small by (unfold in_range, int_min, int_max in *; lia).
        split; [|lia].
        replace (len (done ++ [line]) - len (cur0 ++ [line]) + 1 - 1)
          with (len pre) by lia.
        rewrite Hlens, Hall', Hpre, <- !app_assoc.
        rewrite (app_assoc cur0 [line] rest). apply slice_middle.
      * apply IH; cbn [lineNumber currentChunk previousOverlap].
        -- reflexivity.
        -- exists (done ++ [line]). symmetry. apply app_nil_r.
        -- intros _. destruct (_ && _).
           ++ exists (pre ++ firstn (Z.to_nat (len (cur0 ++ [line])
                                               - OverlapSize (config c)))
                                (cur0 ++ [line])).
              rewrite <- app_assoc, firstn_skipn, Hpre, <- app_assoc.
              reflexivity.
           ++ exists (done ++ [line]). symmetry. apply app_nil_r.
    + apply (IH (done ++ [line])); cbn [lineNumber currentChunk previousOverlap].
      * exact Hall'.
      * reflexivity.
      * exists pre. rewrite Hpre, <- app_assoc. reflexivity.
      * intros Hnil. destruct cur0; discriminate.
Qed.

(** Chunk numbers count up from the number the loop is in. *)
Lemma scan_loop_numbers {Line : Type} (create_ok : Z -> bool) (c : Chunker)
  (lines : list Line) (sf : bool) :
  forall st i ch,
    nth_error (fst (scan_loop create_ok c lines sf st)) i = Some ch ->
    int_min <= chunkNumber st -> chunkNumber st + Z.of_nat i <= int_max ->
    lc_number ch = chunkNumber st + Z.of_nat i.
Proof.
  induction lines as [|line rest IH]; intros st i ch Hi Hmin Hmax; simpl in Hi.
  - destruct (_ >? 0); [destruct (create_ok _)|]; simpl in Hi;
      try (destruct i; discriminate).
    destruct i as [|i]; [|destruct i; discriminate].
    injection Hi as <-. simpl. lia.
  - destruct (_ >=? _); [|apply (IH _ _ _ Hi); assumption].
    destruct (create_ok _); [|destruct i; discriminate].
    match type of Hi with
    | context [scan_loop _ _ _ _ ?s] => specialize (IH s)
    end.
    destruct (scan_loop create_ok c rest sf _) as [files res].
    cbn [fst] in *. destruct i as [|i]; simpl in Hi.
    + injection Hi as <-. simpl. lia.
    + rewrite (IH i ch Hi); cbn [chunkNumber];
        rewrite ?wrap_small by (unfold in_range, int_min, int_max in *; lia);
        unfold int_min, int_max in *; lia.
Qed.

Lemma without_overlap_seeded {A : Type} (k : nat) (files : list (list A)) :
  without_overlap k true files = concat (map (skipn k) files).
Proof. destruct files; reflexivity. Qed.

Section OverlapRemoved.

Context {Line : Type}.
Variable create_ok : Z -> bool.
Variable c : Chunker.
Variable k : nat.
Hypothesis Hk : OverlapSize (config c) = Z.of_nat k.
Hypothesis Hpos : 0 < OverlapSize (config c) < ChunkSize (config c).

#[local] Abbreviation fresh := (@fresh_lines Line k).
#[local] Abbreviation seeded := (@is_seeded Line).

(** Dropping the carried-over lines from the chunks gives the lines read. *)
Lemma scan_loop_without_overlap (lines : list Line) (sf : bool) :
  forall st last,
    carries k last st ->
    (forall n, snd (scan_loop create_ok c lines sf st) <> Failed (ErrCreate n)) ->
    without_overlap k (seeded last)
      (map lc_lines (fst (scan_loop create_ok c lines sf st)))
    = fresh last (currentChunk st) ++ lines.
Proof.
  induction lines as [|line rest IH]; intros st last Hc Hok; simpl in *.
  - destruct (len (currentChunk st) >? 0) eqn:Hlen.
    + destruct (create_ok _); [|exfalso; eapply Hok; reflexivity].
      simpl. destruct last; reflexivity.
    + assert (Hnil : currentChunk st = []).
      { apply len_nil_iff. pose proof (len_nonneg (currentChunk st)). lia. }
      rewrite Hnil. simpl. destruct last; simpl; rewrite ?skipn_nil; reflexivity.
  - set (cur0 := if _ && _ then _ else _) in *.
    assert (Hfresh : fresh last (cur0 ++ [line])
                     = fresh last (currentChunk st) ++ [line]).
    { subst cur0. destruct last as [l|]; simpl.
      - destruct Hc as (Hprev & Hl & Hcur).
        pose proof (lastn_length k l Hl) as Hlast.
        destruct Hcur as [Hnil | [Hfirst Hge]].
        + rewrite Hnil, Hprev. simpl.
          replace (len (lastn k l) >? 0) with true
            by (unfold len; rewrite Hlast; lia).
          rewrite skipn_nil, skipn_app, skipn_all2, Hlast, Nat.sub_diag by lia.
          reflexivity.
        + replace (len (currentChunk st) =? 0) with false
            by (symmetry; apply Z.eqb_neq; unfold len; lia).
          simpl. rewrite skipn_app.
          replace (k - length (currentChunk st))%nat with 0%nat by lia.
          reflexivity.
      - simpl in Hc. rewrite Hc. simpl. rewrite andb_false_r. reflexivity. }
    assert (Hcarry : carries k last
                       {| currentChunk := cur0 ++ [line];
                          previousOverlap := previousOverlap st;
                          chunkNumber := chunkNumber st;
                          lineNumber := wrap (lineNumber st + 1) |}).
    { subst cur0. destruct last as [l|]; simpl; [|exact Hc].
      destruct Hc as (Hprev & Hl & Hcur).
      pose proof (lastn_length k l Hl) as Hlast.
      split; [exact Hprev|]. split; [exact Hl|]. right.
      destruct Hcur as [Hnil | [Hfirst Hge]].
      - rewrite Hnil, Hprev. simpl.
        replace (len (lastn k l) >? 0) with true
          by (unfold len; rewrite Hlast; lia).
        rewrite length_app, firstn_app, Hlast, Nat.sub_diag.
        rewrite <- Hlast at 1. rewrite firstn_all. simpl. rewrite app_nil_r.
        split; [reflexivity | lia].
      - replace (len (currentChunk st) =? 0) with false
          by (symmetry; apply Z.eqb_neq; unfold len; lia).
        simpl. rewrite length_app, firstn_app.
        replace (k - length (currentChunk st))%nat with 0%nat by lia.
        simpl. rewrite app_nil_r. split; [exact Hfirst | lia]. }
    clearbody cur0.
    destruct (_ >=? _) eqn:Hfull.
    + destruct (create_ok _); [|exfalso; eapply Hok; reflexivity].
      match goal with
      | |- context [scan_loop _ _ _ _ ?s] =>
          specialize (IH s (Some (cur0 ++ [line])))
      end.
      destruct (scan_loop create_ok c rest sf _) as [files res].
      cbn [fst snd] in *. cbn [map lc_lines without_overlap].
      rewrite <- without_overlap_seeded.
      change true with (seeded (Some (cur0 ++ [line]))).
      rewrite IH.
      * cbn [fresh_lines currentChunk]. rewrite skipn_nil. simpl.
        unfold fresh_lines, is_seeded in *.
        destruct last; rewrite Hfresh, <- app_assoc; reflexivity.
      * unfold carries. cbn [previousOverlap currentChunk].
        assert (Hlen : ChunkSize (config c) <= len (cur0 ++ [line])) by lia.
        replace ((OverlapSize (config c) >? 0)
                 && (len (cur0 ++ [line]) >? OverlapSize (config c)))
          with true by (symmetry; apply andb_true_iff; split; lia).
        unfold len in Hlen. unfold lastn, len.
        split; [f_equal; lia | split; [lia | left; reflexivity]].
      * exact Hok.
    + rewrite (IH _ last Hcarry Hok). cbn [currentChunk].
      rewrite Hfresh, <- app_assoc. reflexivity.
Qed.

End OverlapRemoved.

(** A buffer that stays below the chunk size only grows. *)
Lemma scan_loop_fill {Line : Type} (create_ok : Z -> bool) (c : Chunker)
  (lines more : list Line) (sf : bool) :
  forall st,
    currentChunk st <> [] \/ previousOverlap st = [] ->
    len (currentChunk st) + len lines < ChunkSize (config c) ->
    0 <= lineNumber st -> lineNumber st + len lines <= int_max ->
    scan_loop create_ok c (lines ++ more) sf st
    = scan_loop create_ok c more sf
        {| currentChunk := currentChunk st ++ lines;
           previousOverlap := previousOverlap st;
           chunkNumber := chunkNumber st;
           lineNumber := lineNumber st + len lines |}.
Proof.
  induction lines as [|line rest IH]; intros st Hseed Hlen Hln Hmax.
  - rewrite app_nil_r. change (len (@nil Line)) with 0. rewrite Z.add_0_r.
    destruct st; reflexivity.
  - assert (Hrest : len (line :: rest) = 1 + len rest)
      by (unfold len; simpl length; lia).
    pose proof (len_nonneg rest). pose proof (len_nonneg (currentChunk st)).
    set (final := scan_loop create_ok c more sf) in *.
    change ((line :: rest) ++ more) with (line :: (rest ++ more)).
    cbn [scan_loop].
    replace ((len (currentChunk st) =? 0) && (len (previousOverlap st) >? 0))
      with false.
    2:{ symmetry. apply andb_false_iff. destruct Hseed as [Hne | ->].
        - left. apply Z.eqb_neq. intros H1. apply len_nil_iff in H1. auto.
        - right. reflexivity. }
    assert (Hone : len (currentChunk st ++ [line]) = len (currentChunk st) + 1)
      by apply len_app.
    replace (len (currentChunk st ++ [line]) >=? ChunkSize (config c))
      with false by (symmetry; lia).
    rewrite IH; cbn [currentChunk previousOverlap chunkNumber lineNumber].
    + rewrite wrap_small by (unfold in_range, int_min, int_max in *; lia).
      f_equal. f_equal; [rewrite <- app_assoc; reflexivity | lia].
    + left. destruct (currentChunk st); discriminate.
    + lia.
    + rewrite wrap_small by (unfold in_range, int_min, int_max in *; lia). lia.
    + rewrite wrap_small by (unfold in_range, int_min, int_max in *; lia). lia.
Qed.

(** The chunks written when some chunk file cannot be created are the first
    chunks of the run in which all can. *)
Lemma scan_loop_failure_prefix {Line : Type} (create_ok : Z -> bool)
  (c : Chunker) (lines : list Line) (sf : bool) :
  forall st, exists rest,
    fst (scan_loop always_ok c lines sf st)
    = fst (scan_loop create_ok c lines sf st) ++ rest
    /\ (forall n, snd (scan_loop create_ok c lines sf st) = Failed (ErrCreate n) ->
        create_ok n = false
        /\ exists ch tl, rest = ch :: tl /\ lc_number ch = n)
    /\ ((forall n, snd (scan_loop create_ok c lines sf st) <> Failed (ErrCreate n)) ->
        rest = []
        /\ snd (scan_loop create_ok c lines sf st)
           = snd (scan_loop always_ok c lines sf st)).
Proof.
  induction lines as [|line rest IH]; intros st; simpl.
  - destruct (_ >? 0).
    + destruct (create_ok (chunkNumber st)) eqn:Hok; simpl.
      * exists []. split; [reflexivity|]. split; [|auto].
        intros n Hn. destruct sf; discriminate.
      * eexists. split; [reflexivity|]. split.
        -- intros n [= <-]. split; [exact Hok|]. eauto.
        -- intros Hno. exfalso. eapply Hno. reflexivity.
    + exists []. simpl. split; [reflexivity|]. split; [|auto].
      intros n Hn. destruct sf; discriminate.
  - destruct (_ >=? _); [|apply IH].
    match goal with
    | |- context [scan_loop always_ok _ _ _ ?s] =>
        destruct (IH s) as (tl & Hfiles & Hfail & Hfine)
    end.
    destruct (scan_loop always_ok c rest sf _) as [files1 res1].
    destruct (create_ok (chunkNumber st)) eqn:Hok.
    + destruct (scan_loop create_ok c rest sf _) as [files2 res2].
      cbn [fst snd] in *. exists tl. rewrite Hfiles. auto.
    + cbn [fst snd] in *. eexists. split; [reflexivity|]. split.
      * intros n [= <-]. split; [exact Hok|]. eauto.
      * intros Hno. exfalso. eapply Hno. reflexivity.
Qed.

(** *** Further properties of the line chunker *)

(** X1.  The line range reported for a chunk is accurate: with at most
    2^63 - 1 input lines, every chunk written holds exactly the input lines
    startLine..endLine (1-based, inclusive), however the sizes are set and
    whether or not lines are carried over. *)
Theorem lines_chunk_is_its_line_range {Line : Type} (create_ok : Z -> bool)
  (c : Chunker) (lines : list Line) (sf : bool) (ch : LineChunk Line) :
  len lines <= int_max ->
  In ch (fst (ChunkByLines create_ok c (Opened lines sf))) ->
  slice lines (lc_startLine ch - 1) (lc_endLine ch) = Some (lc_lines ch)
  /\ 1 <= lc_startLine ch <= lc_endLine ch
  /\ len (lc_lines ch) = lc_endLine ch - lc_startLine ch + 1.
Proof.
  intros Hmax Hin. rewrite ChunkByLines_opened in Hin.
  pose proof (scan_loop_ranges create_ok c lines Hmax lines [] sf
                {| currentChunk := []; previousOverlap := [];
                   chunkNumber := 1; lineNumber := 0 |}
                eq_refl eq_refl
                (ex_intro _ [] eq_refl) (fun _ => ex_intro _ [] eq_refl)) as Hall.
  rewrite Forall_forall in Hall. destruct (Hall ch Hin) as [Hsl Hrange].
  split; [exact Hsl|]. split; [exact Hrange|].
  apply slice_inv in Hsl. destruct Hsl as (Hlo & Hhi & ->).
  unfold len in *. rewrite length_firstn, length_skipn. lia.
Qed.

Lemma lines_chunk_is_its_line_range_witness :
  len [lit "a"; lit "b"; lit "c"; lit "d"; lit "e"; lit "f"] <= int_max
  /\ In {| lc_number := 2; lc_lines := [lit "c"; lit "d"; lit "e"];
           lc_startLine := 3; lc_endLine := 5 |}
       (fst (ChunkByLines always_ok (sizes 3 1)
               (Opened [lit "a"; lit "b"; lit "c"; lit "d"; lit "e"; lit "f"]
                  false)))
  /\ (slice [lit "a"; lit "b"; lit "c"; lit "d"; lit "e"; lit "f"] (3 - 1) 5
      = Some [lit "c"; lit "d"; lit "e"]
      /\ 1 <= 3 <= 5
      /\ len [lit "c"; lit "d"; lit "e"] = 5 - 3 + 1).
Proof.
  split; [vm_compute; discriminate|].
  split; [vm_compute; right; left; reflexivity|].
  apply (lines_chunk_is_its_line_range always_ok (sizes 3 1)
           [lit "a"; lit "b"; lit "c"; lit "d"; lit "e"; lit "f"] false
           {| lc_number := 2; lc_lines := [lit "c"; lit "d"; lit "e"];
              lc_startLine := 3; lc_endLine := 5 |}).
  - vm_compute. discriminate.
  - vm_compute. right. left. reflexivity.
Defined.

(** X2.  Chunk numbers are contiguous from 1: the chunk written (i+1)-th has
    number i+1 (for i below 2^63 - 1, so that the counter has not wrapped). *)
Theorem lines_chunks_numbered_from_one {Line : Type} (create_ok : Z -> bool)
  (c : Chunker) (src : LineSource Line) (i : nat) (ch : LineChunk Line) :
  Z.of_nat i < int_max ->
  nth_error (fst (ChunkByLines create_ok c src)) i = Some ch ->
  lc_number ch = Z.of_nat i + 1.
Proof.
  intros Hi Hnth. destruct src as [|lines sf]; [destruct i; discriminate|].
  rewrite ChunkByLines_opened in Hnth.
  rewrite (scan_loop_numbers create_ok c lines sf _ i ch Hnth);
    cbn [chunkNumber]; unfold int_min, int_max in *; lia.
Qed.

Lemma lines_chunks_numbered_from_one_witness :
  Z.of_nat 1 < int_max
  /\ nth_error
       (fst (ChunkByLines always_ok (sizes 3 1)
               (Opened [lit "a"; lit "b"; lit "c"; lit "d"; lit "e"; lit "f"]
                  false))) 1
     = Some {| lc_number := 2; lc_lines := [lit "c"; lit "d"; lit "e"];
               lc_startLine := 3; lc_endLine := 5 |}
  /\ 2 = Z.of_nat 1 + 1.
Proof.
  split; [vm_compute; reflexivity|]. split; [vm_compute; reflexivity|].
  apply (lines_chunks_numbered_from_one always_ok (sizes 3 1)
           (Opened [lit "a"; lit "b"; lit "c"; lit "d"; lit "e"; lit "f"] false)
           1 {| lc_number := 2; lc_lines := [lit "c"; lit "d"; lit "e"];
                lc_startLine := 3; lc_endLine := 5 |});
    vm_compute; reflexivity.
Defined.

(** X3.  With overlap k, 0 < k < chunk size, when no chunk file creation
    fails, the first chunk followed by the other chunks without their first
    k lines is the sequence of lines the scanner delivered (all the lines of
    the input when the scanner reports no error, a prefix of them
    otherwise): the overlap is the only duplication and no line read is
    lost. *)
Theorem lines_overlap_removed_reconstruct {Line : Type} (create_ok : Z -> bool)
  (c : Chunker) (lines : list Line) (sf : bool) (k : nat) :
  OverlapSize (config c) = Z.of_nat k ->
  0 < OverlapSize (config c) < ChunkSize (config c) ->
  snd (ChunkByLines create_ok c (Opened lines sf)) = after_scan sf ->
  without_overlap k false
    (map lc_lines (fst (ChunkByLines create_ok c (Opened lines sf))))
  = lines.
Proof.
  intros Hk Hpos Hres. rewrite ChunkByLines_opened in *.
  apply (scan_loop_without_overlap create_ok c k Hk Hpos lines sf
           {| currentChunk := []; previousOverlap := [];
              chunkNumber := 1; lineNumber := 0 |} None).
  - reflexivity.
  - intros n Hn. rewrite Hn in Hres. destruct sf; discriminate.
Qed.

Lemma lines_overlap_removed_reconstruct_witness :
  OverlapSize (config (sizes 3 1)) = Z.of_nat 1
  /\ 0 < OverlapSize (config (sizes 3 1)) < ChunkSize (config (sizes 3 1))
  /\ snd (ChunkByLines always_ok (sizes 3 1)
            (Opened [lit "a"; lit "b"; lit "c"; lit "d"; lit "e"; lit "f"] false))
     = after_scan false
  /\ without_overlap 1 false
       (map lc_lines
          (fst (ChunkByLines always_ok (sizes 3 1)
                  (Opened [lit "a"; lit "b"; lit "c"; lit "d"; lit "e"; lit "f"]
                     false))))
     = [lit "a"; lit "b"; lit "c"; lit "d"; lit "e"; lit "f"].
Proof.
  split; [reflexivity|]. split; [vm_compute; split; reflexivity|].
  split; [vm_compute; reflexivity|].
  apply (lines_overlap_removed_reconstruct always_ok (sizes 3 1)
           [lit "a"; lit "b"; lit "c"; lit "d"; lit "e"; lit "f"] false 1).
  - reflexivity.
  - vm_compute. split; reflexivity.
  - vm_compute. reflexivity.
Defined.

(** X4.  An input that is not empty and has no more lines than the chunk
    size gives exactly one chunk, number 1, holding all the lines, with range
    1..n; the run then ends as the scanner did. *)
Theorem lines_small_input_one_chunk {Line : Type} (create_ok : Z -> bool)
  (c : Chunker) (lines : list Line) (sf : bool) :
  lines <> [] ->
  len lines <= ChunkSize (config c) -> ChunkSize (config c) <= int_max ->
  create_ok 1 = true ->
  ChunkByLines create_ok c (Opened lines sf)
  = ([ {| lc_number := 1; lc_lines := lines;
          lc_startLine := 1; lc_endLine := len lines |} ],
     after_scan sf).
Proof.
  intros Hne Hlen Hmax Hok. rewrite ChunkByLines_opened.
  destruct (exists_last Hne) as (init & x & ->).
  assert (Hall : len (init ++ [x]) = len init + 1) by apply len_app.
  pose proof (len_nonneg init).
  rewrite scan_loop_fill; cbn [currentChunk previousOverlap lineNumber];
    [| right; reflexivity | change (len (@nil Line)) with 0; lia | lia | lia].
  cbn [scan_loop currentChunk previousOverlap chunkNumber lineNumber app].
  change (len (@nil Line) >? 0) with false. rewrite andb_false_r.
  rewrite Z.add_0_l, Hall.
  rewrite (wrap_small (len init + 1))
    by (unfold in_range, int_min, int_max in *; lia).
  rewrite (wrap_small (len init + 1 - (len init + 1)))
    by (unfold in_range, int_min, int_max in *; lia).
  replace (len init + 1 - (len init + 1) + 1) with 1 by lia.
  change (wrap 1) with 1.
  destruct (len init + 1 >=? ChunkSize (config c)).
  - unfold writeChunk. rewrite Hok. reflexivity.
  - replace (len init + 1 >? 0) with true by (symmetry; lia).
    unfold writeChunk. rewrite Hok. reflexivity.
Qed.

Lemma lines_small_input_one_chunk_witness :
  [lit "a"; lit "b"] <> []
  /\ len [lit "a"; lit "b"] <= ChunkSize (config (sizes 1000 50))
  /\ ChunkSize (config (sizes 1000 50)) <= int_max
  /\ always_ok 1 = true
  /\ ChunkByLines always_ok (sizes 1000 50) (Opened [lit "a"; lit "b"] false)
     = ([ {| lc_number := 1; lc_lines := [lit "a"; lit "b"];
             lc_startLine := 1; lc_endLine := len [lit "a"; lit "b"] |} ],
        after_scan false).
Proof.
  split; [discriminate|]. split; [vm_compute; discriminate|].
  split; [vm_compute; discriminate|]. split; [reflexivity|].
  apply (lines_small_input_one_chunk always_ok (sizes 1000 50)
           [lit "a"; lit "b"] false);
    [discriminate | vm_compute; discriminate | vm_compute; discriminate
    | reflexivity].
Defined.

(** X5.  A chunk file that cannot be created stops the run without touching
    what was written before: the chunks written are the first chunks of the
    run in which every file can be created, the error names the number of
    the chunk that run would write next, and that is a file the file system
    refused. *)
Theorem lines_create_failure_keeps_prefix {Line : Type}
  (create_ok : Z -> bool) (c : Chunker) (src : LineSource Line) :
  exists rest,
    fst (ChunkByLines always_ok c src)
    = fst (ChunkByLines create_ok c src) ++ rest
    /\ (forall n, snd (ChunkByLines create_ok c src) = Failed (ErrCreate n) ->
        create_ok n = false
        /\ exists ch tl, rest = ch :: tl /\ lc_number ch = n)
    /\ ((forall n, snd (ChunkByLines create_ok c src) <> Failed (ErrCreate n)) ->
        rest = []
        /\ snd (ChunkByLines create_ok c src) = snd (ChunkByLines always_ok c src)).
Proof.
  destruct src as [|lines sf].
  - exists []. simpl. split; [reflexivity|]. split; [discriminate | auto].
  - rewrite !ChunkByLines_opened. apply scan_loop_failure_prefix.
Qed.

(** *** Further properties of the character and token chunkers *)

Ltac int_bounds := unfold in_range, int_min, int_max in *; lia.

Lemma slice_all {A : Type} (s : list A) : slice s 0 (len s) = Some s.
Proof.
  rewrite slice_Some by (pose proof (len_nonneg s); lia).
  unfold len. rewrite Z.sub_0_r, Nat2Z.id. simpl. rewrite firstn_all.
  reflexivity.
Qed.

Lemma slice_len {A : Type} (s : list A) (lo hi : Z) (x : list A) :
  slice s lo hi = Some x -> len x = hi - lo.
Proof.
  intros H. apply slice_inv in H. destruct H as (Hlo & Hhi & ->).
  unfold len in *. rewrite length_firstn, length_skipn. lia.
Qed.

Lemma next_start_ignored (c : Chunker) (e bound : Z) :
  0 <= e <= bound ->
  OverlapSize (config c) <= 0 \/ bound < OverlapSize (config c) <= int_max ->
  next_start c e = e.
Proof.
  intros He Hov. unfold next_start.
  destruct (OverlapSize (config c) >? 0) eqn:Hpos; [|reflexivity].
  destruct Hov as [Hov|Hov]; [lia|].
  rewrite wrap_small by int_bounds.
  replace (e - OverlapSize (config c) <? 0) with true by (symmetry; lia).
  reflexivity.
Qed.

Section TextFacts.

Variable create_ok : Z -> bool.
Variable c : Chunker.

#[local] Abbreviation size := (ChunkSize (config c)).
#[local] Abbreviation overlap := (OverlapSize (config c)).

(** The backward search shortens a chunk by less than 100 bytes. *)
Lemma chars_end_window (text : gostring) (start : Z) :
  0 <= start < len text -> 0 < size -> start + size <= int_max ->
  exists e, chars_end c text start = Some e
    /\ start < e <= len text /\ e <= start + size
    /\ (e < len text -> start + size - 100 < e).
Proof.
  intros Hs Hsize Hmax. unfold chars_end.
  rewrite wrap_small by int_bounds.
  destruct (start + size >? len text) eqn:Hgt.
  - rewrite Z.ltb_irrefl. exists (len text). split; [reflexivity|]. lia.
  - destruct (start + size <? len text) eqn:Hl.
    + destruct (find_boundary_from text start (start + size) ltac:(lia)
                  ltac:(lia) 100 (start + size) (Z.le_refl _))
        as (r & Hr & Hcases); [int_bounds|].
      exists r. split; [exact Hr|].
      assert (Hw : wrap (start + size - 100) = start + size - 100)
        by (apply wrap_small; int_bounds).
      rewrite Hw in Hcases.
      destruct Hcases as [[-> _] | (H1 & H2 & H3 & _)]; lia.
    + exists (start + size). split; [reflexivity|]. lia.
Qed.

Lemma chars_loop_bounds (text : gostring) :
  0 < size -> len text + size <= int_max ->
  forall fuel cn start, 0 <= start ->
    Forall (chunk_in_bounds c text)
      (fst (chars_loop create_ok c fuel text cn start)).
Proof.
  intros Hsize Hmax.
  induction fuel as [|fuel IH]; intros cn start Hs;
    destruct (Z_lt_ge_dec start (len text)) as [Hlt|Hge];
    try (rewrite chars_loop_done by lia; constructor).
  - rewrite chars_loop_O by lia. constructor.
  - rewrite chars_loop_S by lia.
    destruct (chars_end_window text start ltac:(lia) Hsize ltac:(lia))
      as (e & He & Hpos & Hle & Hwin).
    rewrite He.
    destruct (slice text start e) as [chunk|] eqn:Hsl; [|constructor].
    destruct (create_ok cn); [|constructor]. cbn [fst].
    constructor.
    + pose proof (slice_len _ _ _ _ Hsl) as Hlen.
      unfold chunk_in_bounds. cbn [tc_start tc_end tc_content].
      rewrite Hlen. repeat split; lia.
    + apply IH. apply next_start_nonneg. lia.
Qed.

Lemma chars_loop_no_panic (text : gostring) :
  0 < size -> len text + size <= int_max ->
  forall fuel cn start, 0 <= start ->
    snd (chars_loop create_ok c fuel text cn start) <> Panicked.
Proof.
  intros Hsize Hmax.
  induction fuel as [|fuel IH]; intros cn start Hs;
    destruct (Z_lt_ge_dec start (len text)) as [Hlt|Hge];
    try (rewrite chars_loop_done by lia; discriminate).
  - rewrite chars_loop_O by lia. discriminate.
  - rewrite chars_loop_S by lia.
    destruct (chars_end_window text start ltac:(lia) Hsize ltac:(lia))
      as (e & He & Hpos & Hle & Hwin).
    rewrite He, (slice_Some text start e) by lia.
    destruct (create_ok cn); [|discriminate]. cbn [snd].
    apply IH. apply next_start_nonneg. lia.
Qed.

Lemma tokens_loop_no_panic (tokens : list gostring) :
  0 < size -> len tokens + size <= int_max ->
  forall fuel cn start, 0 <= start ->
    snd (tokens_loop create_ok c fuel tokens cn start) <> Panicked.
Proof.
  intros Hsize Hmax.
  induction fuel as [|fuel IH]; intros cn start Hs;
    destruct (Z_lt_ge_dec start (len tokens)) as [Hlt|Hge];
    try (rewrite tokens_loop_done by lia; discriminate).
  - rewrite tokens_loop_O by lia. discriminate.
  - rewrite tokens_loop_S by lia.
    destruct (tokens_end_progress c tokens start ltac:(lia) Hsize ltac:(lia))
      as (Hpos & _).
    rewrite (slice_Some tokens start _) by lia.
    destruct (create_ok cn); [|discriminate]. cbn [snd].
    apply IH. apply next_start_nonneg. lia.
Qed.

(** The chunk counter goes up by one with every chunk. *)
Lemma chars_loop_numbers (text : gostring) :
  forall fuel cn start i ch,
    nth_error (fst (chars_loop create_ok c fuel text cn start)) i = Some ch ->
    int_min <= cn -> cn + Z.of_nat i <= int_max ->
    tc_number ch = cn + Z.of_nat i.
Proof.
  induction fuel as [|fuel IH]; intros cn start i ch;
    destruct (Z_lt_ge_dec start (len text)) as [Hlt|Hge];
    try (rewrite chars_loop_done by lia; destruct i; discriminate).
  - rewrite chars_loop_O by lia. destruct i; discriminate.
  - rewrite chars_loop_S by lia.
    destruct (chars_end c text start) as [e|]; [|destruct i; discriminate].
    destruct (slice text start e) as [chunk|]; [|destruct i; discriminate].
    destruct (create_ok cn); [|destruct i; discriminate]. cbn [fst].
    destruct i as [|i]; simpl nth_error.
    + intros [= <-] _ _. simpl. lia.
    + intros Hnth Hlo Hhi.
      rewrite (IH _ _ _ _ Hnth); rewrite wrap_small by int_bounds; lia.
Qed.

Lemma tokens_loop_numbers (tokens : list gostring) :
  forall fuel cn start i ch,
    nth_error (fst (tokens_loop create_ok c fuel tokens cn start)) i = Some ch ->
    int_min <= cn -> cn + Z.of_nat i <= int_max ->
    tc_number ch = cn + Z.of_nat i.
Proof.
  induction fuel as [|fuel IH]; intros cn start i ch;
    destruct (Z_lt_ge_dec start (len tokens)) as [Hlt|Hge];
    try (rewrite tokens_loop_done by lia; destruct i; discriminate).
  - rewrite tokens_loop_O by lia. destruct i; discriminate.
  - rewrite tokens_loop_S by lia.
    destruct (slice tokens start _) as [chunk|]; [|destruct i; discriminate].
    destruct (create_ok cn); [|destruct i; discriminate]. cbn [fst].
    destruct i as [|i]; simpl nth_error.
    + intros [= <-] _ _. simpl. lia.
    + intros Hnth Hlo Hhi.
      rewrite (IH _ _ _ _ Hnth); rewrite wrap_small by int_bounds; lia.
Qed.

Lemma tokens_loop_slices (tokens : list gostring) :
  0 < size -> len tokens + size <= int_max ->
  forall fuel cn start, 0 <= start ->
    Forall (token_chunk_ok c tokens)
      (fst (tokens_loop create_ok c fuel tokens cn start)).
Proof.
  intros Hsize Hmax.
  induction fuel as [|fuel IH]; intros cn start Hs;
    destruct (Z_lt_ge_dec start (len tokens)) as [Hlt|Hge];
    try (rewrite tokens_loop_done by lia; constructor).
  - rewrite tokens_loop_O by lia. constructor.
  - rewrite tokens_loop_S by lia.
    destruct (tokens_end_progress c tokens start ltac:(lia) Hsize ltac:(lia))
      as (Hpos & _).
    assert (Hle : tokens_end c tokens start <= start + size).
    { unfold tokens_end. rewrite wrap_small by int_bounds.
      destruct (_ >? _) eqn:E; lia. }
    destruct (slice tokens start _) as [toks|] eqn:Hsl; [|constructor].
    destruct (create_ok cn); [|constructor]. cbn [fst].
    constructor.
    + exists toks. cbn [tc_start tc_end tc_content].
      split; [exact Hsl|]. split; [reflexivity|].
      rewrite (slice_len _ _ _ _ Hsl). lia.
    + apply IH. apply next_start_nonneg. lia.
Qed.

End TextFacts.

Lemma Forall_slice {A : Type} (P : A -> Prop) (s : list A) (lo hi : Z)
  (x : list A) :
  Forall P s -> slice s lo hi = Some x -> Forall P x.
Proof.
  intros Hall H. apply slice_inv in H. destruct H as (_ & _ & ->).
  rewrite <- (firstn_skipn (Z.to_nat lo) s) in Hall.
  apply Forall_app in Hall. destruct Hall as [_ Hall].
  rewrite <- (firstn_skipn (Z.to_nat (hi - lo)) (skipn (Z.to_nat lo) s)) in Hall.
  apply Forall_app in Hall. apply Hall.
Qed.

(** Overlap that is not positive, or larger than the input, changes
    nothing. *)
Lemma chars_loop_overlap_ignored (create_ok : Z -> bool) (c c0 : Chunker)
  (text : gostring) :
  ChunkSize (config c0) = ChunkSize (config c) ->
  OverlapSize (config c0) = 0 ->
  OverlapSize (config c) <= 0 \/ len text < OverlapSize (config c) <= int_max ->
  forall fuel cn start,
    chars_loop create_ok c fuel text cn start
    = chars_loop create_ok c0 fuel text cn start.
Proof.
  intros Hsize Hzero Hov.
  induction fuel as [|fuel IH]; intros cn start;
    destruct (Z_lt_ge_dec start (len text)) as [Hlt|Hge];
    try (rewrite !chars_loop_done by lia; reflexivity).
  - rewrite !chars_loop_O by lia. reflexivity.
  - rewrite !chars_loop_S by lia.
    assert (He : chars_end c0 text start = chars_end c text start)
      by (unfold chars_end; rewrite Hsize; reflexivity).
    rewrite He.
    destruct (chars_end c text start) as [e|]; [|reflexivity].
    destruct (slice text start e) as [chunk|] eqn:Hsl; [|reflexivity].
    destruct (create_ok cn); [|reflexivity].
    apply slice_inv in Hsl. destruct Hsl as (Hlo & Hhi & _).
    rewrite (next_start_ignored c e (len text)) by (auto; lia).
    rewrite (next_start_ignored c0 e (len text)) by (try lia; left; lia).
    rewrite IH. reflexivity.
Qed.

Lemma tokens_loop_overlap_ignored (create_ok : Z -> bool) (c c0 : Chunker)
  (tokens : list gostring) :
  ChunkSize (config c0) = ChunkSize (config c) ->
  OverlapSize (config c0) = 0 ->
  OverlapSize (config c) <= 0 \/ len tokens < OverlapSize (config c) <= int_max ->
  forall fuel cn start,
    tokens_loop create_ok c fuel tokens cn start
    = tokens_loop create_ok c0 fuel tokens cn start.
Proof.
  intros Hsize Hzero Hov.
  induction fuel as [|fuel IH]; intros cn start;
    destruct (Z_lt_ge_dec start (len tokens)) as [Hlt|Hge];
    try (rewrite !tokens_loop_done by lia; reflexivity).
  - rewrite !tokens_loop_O by lia. reflexivity.
  - rewrite !tokens_loop_S by lia.
    assert (He : tokens_end c0 tokens start = tokens_end c tokens start)
      by (unfold tokens_end; rewrite Hsize; reflexivity).
    rewrite He.
    destruct (slice tokens start _) as [chunk|] eqn:Hsl; [|reflexivity].
    destruct (create_ok cn); [|reflexivity].
    apply slice_inv in Hsl. destruct Hsl as (Hlo & Hhi & _).
    rewrite (next_start_ignored c _ (len tokens)) by (auto; lia).
    rewrite (next_start_ignored c0 _ (len tokens)) by (try lia; left; lia).
    rewrite IH. reflexivity.
Qed.

(** With chunk size 0 every turn writes an empty chunk and starts again at
    offset 0. *)
Lemma chars_loop_zero_size (create_ok : Z -> bool) (c : Chunker)
  (text : gostring) :
  ChunkSize (config c) = 0 -> in_range (OverlapSize (config c)) ->
  (forall n, create_ok n = true) -> text <> [] ->
  forall fuel cn,
    snd (chars_loop create_ok c fuel text cn 0) = Unfinished
    /\ map tc_content (fst (chars_loop create_ok c fuel text cn 0))
       = repeat [] fuel.
Proof.
  intros Hsize Hov Hok Hne.
  assert (Hlen : 0 < len text).
  { pose proof (len_nonneg text). pose proof (len_nil_iff text).
    destruct (Z.eq_dec (len text) 0); [tauto | lia]. }
  assert (Hend : chars_end c text 0 = Some 0).
  { unfold chars_end. rewrite Hsize. change (wrap (0 + 0)) with 0.
    replace (0 >? len text) with false by (symmetry; lia).
    replace (0 <? len text) with true by (symmetry; lia).
    reflexivity. }
  assert (Hnext : next_start c 0 = 0).
  { unfold next_start. destruct (_ >? 0) eqn:E; [|reflexivity].
    rewrite wrap_small by int_bounds.
    replace (0 - OverlapSize (config c) <? 0) with true by (symmetry; lia).
    reflexivity. }
  induction fuel as [|fuel IH]; intros cn.
  - rewrite chars_loop_O by lia. split; reflexivity.
  - rewrite chars_loop_S by lia.
    rewrite Hend, (slice_Some text 0 0) by lia.
    rewrite Hok, Hnext. cbn [fst snd map tc_content repeat].
    destruct (IH (wrap (cn + 1))) as [IH1 IH2].
    split; [exact IH1|]. rewrite IH2. reflexivity.
Qed.

Lemma tokens_loop_zero_size (create_ok : Z -> bool) (c : Chunker)
  (tokens : list gostring) :
  ChunkSize (config c) = 0 -> in_range (OverlapSize (config c)) ->
  (forall n, create_ok n = true) -> tokens <> [] ->
  forall fuel cn,
    snd (tokens_loop create_ok c fuel tokens cn 0) = Unfinished
    /\ map tc_content (fst (tokens_loop create_ok c fuel tokens cn 0))
       = repeat [] fuel.
Proof.
  intros Hsize Hov Hok Hne.
  assert (Hlen : 0 < len tokens).
  { pose proof (len_nonneg tokens). pose proof (len_nil_iff tokens).
    destruct (Z.eq_dec (len tokens) 0); [tauto | lia]. }
  assert (Hend : tokens_end c tokens 0 = 0).
  { unfold tokens_end. rewrite Hsize. change (wrap (0 + 0)) with 0.
    replace (0 >? len tokens) with false by (symmetry; lia).
    reflexivity. }
  assert (Hnext : next_start c 0 = 0).
  { unfold next_start. destruct (_ >? 0) eqn:E; [|reflexivity].
    rewrite wrap_small by int_bounds.
    replace (0 - OverlapSize (config c) <? 0) with true by (symmetry; lia).
    reflexivity. }
  induction fuel as [|fuel IH]; intros cn.
  - rewrite tokens_loop_O by lia. split; reflexivity.
  - rewrite tokens_loop_S by lia.
    rewrite Hend, (slice_Some tokens 0 0) by lia.
    rewrite Hok, Hnext. cbn [fst snd map tc_content repeat].
    destruct (IH (wrap (cn + 1))) as [IH1 IH2].
    split; [exact IH1|]. rewrite IH2. reflexivity.
Qed.

(** With a chunk size that is not positive every line is a chunk of its
    own, and nothing is carried over. *)
Lemma scan_loop_one_line_chunks {Line : Type} (create_ok : Z -> bool)
  (c : Chunker) (lines : list Line) (sf : bool) :
  ChunkSize (config c) <= 0 -> (forall n, create_ok n = true) ->
  forall st, currentChunk st = [] -> previousOverlap st = [] ->
    map lc_lines (fst (scan_loop create_ok c lines sf st))
    = map (fun line => [line]) lines
    /\ snd (scan_loop create_ok c lines sf st) = after_scan sf.
Proof.
  intros Hsize Hok.
  induction lines as [|line rest IH]; intros st Hcur Hprev.
  - cbn [scan_loop]. rewrite Hcur. split; reflexivity.
  - cbn [scan_loop]. rewrite Hcur, Hprev.
    change (len (@nil Line) >? 0) with false. rewrite andb_false_r.
    cbv iota. cbn [app]. change (len [line]) with 1.
    replace (1 >=? ChunkSize (config c)) with true by (symmetry; lia).
    unfold writeChunk. rewrite Hok.
    replace ((OverlapSize (config c) >? 0) && (1 >? OverlapSize (config c)))
      with false by (symmetry; apply andb_false_iff; lia).
    match goal with
    | |- context [scan_loop create_ok c rest sf ?st'] =>
        destruct (IH st' eq_refl eq_refl) as [IH1 IH2];
        destruct (scan_loop create_ok c rest sf st') as [files res]
    end.
    cbn [fst snd map lc_lines] in *. split; [rewrite IH1; reflexivity | exact IH2].
Qed.

(** X6.  In character mode, for a positive chunk size (with
    len(text) + size representable), every chunk written is the piece
    text[start:end] of the text, is not empty and has at most ChunkSize
    bytes, and a chunk that ends before the end of the text has more than
    ChunkSize - 100 bytes: looking for a word boundary shortens a chunk by
    fewer than 100 bytes. *)
Theorem chars_chunk_size_bounds (create_ok : Z -> bool) (c : Chunker)
  (text : gostring) (fuel : nat) (ch : TextChunk) :
  0 < ChunkSize (config c) -> len text + ChunkSize (config c) <= int_max ->
  In ch (fst (ChunkByCharacters create_ok c fuel (ReadOk text))) ->
  slice text (tc_start ch) (tc_end ch) = Some (tc_content ch)
  /\ 0 <= tc_start ch < tc_end ch /\ tc_end ch <= len text
  /\ len (tc_content ch) = tc_end ch - tc_start ch
  /\ len (tc_content ch) <= ChunkSize (config c)
  /\ (tc_end ch < len text ->
      ChunkSize (config c) - 100 < len (tc_content ch)).
Proof.
  intros Hsize Hmax Hin.
  pose proof (chars_loop_bounds create_ok c text Hsize Hmax fuel 1 0
                (Z.le_refl 0)) as Hall.
  pose proof (chars_loop_chunks create_ok c text fuel 1 0 (Z.le_refl 0))
    as Hslices.
  rewrite Forall_forall in Hall, Hslices.
  split; [exact (proj1 (Hslices ch Hin)) | exact (Hall ch Hin)].
Qed.

Lemma chars_chunk_size_bounds_witness :
  0 < ChunkSize (config (sizes 3 0))
  /\ len (lit "a b c d e") + ChunkSize (config (sizes 3 0)) <= int_max
  /\ In {| tc_number := 1; tc_content := lit "a b"; tc_start := 0; tc_end := 3 |}
       (fst (ChunkByCharacters always_ok (sizes 3 0) 9
               (ReadOk (lit "a b c d e"))))
  /\ (slice (lit "a b c d e") 0 3 = Some (lit "a b")
      /\ 0 <= 0 < 3 /\ 3 <= len (lit "a b c d e")
      /\ len (lit "a b") = 3 - 0
      /\ len (lit "a b") <= ChunkSize (config (sizes 3 0))
      /\ (3 < len (lit "a b c d e") ->
          ChunkSize (config (sizes 3 0)) - 100 < len (lit "a b"))).
Proof.
  split; [reflexivity|]. split; [vm_compute; discriminate|].
  split; [vm_compute; left; reflexivity|].
  exact (chars_chunk_size_bounds always_ok (sizes 3 0) (lit "a b c d e") 9
           {| tc_number := 1; tc_content := lit "a b";
              tc_start := 0; tc_end := 3 |}
           eq_refl
           ltac:(vm_compute; discriminate)
           ltac:(vm_compute; left; reflexivity)).
Defined.

(** X7.  For a positive chunk size (with len(text) + size representable)
    neither the character chunker nor the token chunker panics, whatever
    the overlap and the file system: a run ends normally, with a chunk file
    that could not be created, or not at all. *)
Theorem text_chunkers_never_panic (create_ok : Z -> bool) (c : Chunker)
  (text : gostring) (fuel : nat) :
  0 < ChunkSize (config c) -> len text + ChunkSize (config c) <= int_max ->
  snd (ChunkByCharacters create_ok c fuel (ReadOk text)) <> Panicked
  /\ snd (ChunkByTokens create_ok c fuel (ReadOk text)) <> Panicked.
Proof.
  intros Hsize Hmax. split.
  - apply chars_loop_no_panic; [assumption | assumption | lia].
  - apply tokens_loop_no_panic; [assumption | | lia].
    pose proof (tokenize_length text). unfold len in *. lia.
Qed.

Lemma text_chunkers_never_panic_witness :
  0 < ChunkSize (config (sizes 5 2))
  /\ len (lit "a b c") + ChunkSize (config (sizes 5 2)) <= int_max
  /\ snd (ChunkByCharacters always_ok (sizes 5 2) 7 (ReadOk (lit "a b c")))
     <> Panicked
  /\ snd (ChunkByTokens always_ok (sizes 5 2) 7 (ReadOk (lit "a b c")))
     <> Panicked.
Proof.
  split; [reflexivity|]. split; [vm_compute; discriminate|].
  apply (text_chunkers_never_panic always_ok (sizes 5 2) (lit "a b c") 7).
  - reflexivity.
  - vm_compute. discriminate.
Defined.

(** X8.  A negative chunk size makes the character chunker and the token
    chunker panic on their first slice expression, before any chunk is
    written, as soon as there is something to chunk. *)
Theorem negative_size_panics (create_ok : Z -> bool) (c : Chunker)
  (text : gostring) (fuel : nat) :
  in_range (ChunkSize (config c)) -> ChunkSize (config c) < 0 ->
  (text <> [] ->
   ChunkByCharacters create_ok c (S fuel) (ReadOk text) = ([], Panicked))
  /\ (tokenize text <> [] ->
      ChunkByTokens create_ok c (S fuel) (ReadOk text) = ([], Panicked)).
Proof.
  intros Hr Hneg.
  assert (Hpos : forall A (l : list A), l <> [] -> 0 < len l).
  { intros A l Hne. pose proof (len_nonneg l). pose proof (len_nil_iff l).
    destruct (Z.eq_dec (len l) 0); [tauto | lia]. }
  split; intros Hne; apply Hpos in Hne.
  - unfold ChunkByCharacters. rewrite chars_loop_S by lia.
    unfold chars_end. rewrite Z.add_0_l, wrap_small by assumption.
    replace (ChunkSize (config c) >? len text) with false by (symmetry; lia).
    replace (ChunkSize (config c) <? len text) with true by (symmetry; lia).
    cbn [find_boundary].
    replace (ChunkSize (config c) >? 0) with false by (symmetry; lia).
    cbn [andb]. unfold slice.
    replace (0 <=? ChunkSize (config c)) with false by (symmetry; lia).
    reflexivity.
  - unfold ChunkByTokens. rewrite tokens_loop_S by lia.
    unfold tokens_end. rewrite Z.add_0_l, wrap_small by assumption.
    replace (ChunkSize (config c) >? len (tokenize text)) with false
      by (symmetry; lia).
    unfold slice.
    replace (0 <=? ChunkSize (config c)) with false by (symmetry; lia).
    reflexivity.
Qed.

Lemma negative_size_panics_witness :
  in_range (ChunkSize (config (sizes (-1) 0)))
  /\ ChunkSize (config (sizes (-1) 0)) < 0
  /\ (lit "abc" <> [] ->
      ChunkByCharacters always_ok (sizes (-1) 0) 1 (ReadOk (lit "abc"))
      = ([], Panicked))
  /\ (tokenize (lit "abc") <> [] ->
      ChunkByTokens always_ok (sizes (-1) 0) 1 (ReadOk (lit "abc"))
      = ([], Panicked)).
Proof.
  split; [vm_compute; split; discriminate|]. split; [reflexivity|].
  apply (negative_size_panics always_ok (sizes (-1) 0) (lit "abc") 0).
  - vm_compute. split; discriminate.
  - reflexivity.
Defined.

(** X9.  With chunk size 0 the character chunker and the token chunker
    never finish on an input that has something to chunk: every turn of the
    loop writes an empty chunk and leaves the loop where it was, so a run of
    n turns has written n empty chunks and is not at its end. *)
Theorem zero_size_never_ends (create_ok : Z -> bool) (c : Chunker)
  (text : gostring) (fuel : nat) :
  ChunkSize (config c) = 0 -> in_range (OverlapSize (config c)) ->
  (forall n, create_ok n = true) ->
  (text <> [] ->
   snd (ChunkByCharacters create_ok c fuel (ReadOk text)) = Unfinished
   /\ map tc_content (fst (ChunkByCharacters create_ok c fuel (ReadOk text)))
      = repeat [] fuel)
  /\ (tokenize text <> [] ->
      snd (ChunkByTokens create_ok c fuel (ReadOk text)) = Unfinished
      /\ map tc_content (fst (ChunkByTokens create_ok c fuel (ReadOk text)))
         = repeat [] fuel).
Proof.
  intros Hsize Hov Hok. split; intros Hne.
  - apply chars_loop_zero_size; assumption.
  - apply tokens_loop_zero_size; assumption.
Qed.

Lemma zero_size_never_ends_witness :
  ChunkSize (config (sizes 0 0)) = 0
  /\ in_range (OverlapSize (config (sizes 0 0)))
  /\ (forall n, always_ok n = true)
  /\ (lit "abc" <> [] ->
      snd (ChunkByCharacters always_ok (sizes 0 0) 4 (ReadOk (lit "abc")))
      = Unfinished
      /\ map tc_content
           (fst (ChunkByCharacters always_ok (sizes 0 0) 4 (ReadOk (lit "abc"))))
         = repeat [] 4)
  /\ (tokenize (lit "abc") <> [] ->
      snd (ChunkByTokens always_ok (sizes 0 0) 4 (ReadOk (lit "abc")))
      = Unfinished
      /\ map tc_content
           (fst (ChunkByTokens always_ok (sizes 0 0) 4 (ReadOk (lit "abc"))))
         = repeat [] 4).
Proof.
  split; [reflexivity|]. split; [vm_compute; split; discriminate|].
  split; [reflexivity|].
  apply (zero_size_never_ends always_ok (sizes 0 0) (lit "abc") 4).
  - reflexivity.
  - vm_compute. split; discriminate.
  - reflexivity.
Defined.

(** X10.  In line mode a chunk size that is zero or negative is not an
    error: every input line becomes a chunk of its own, and no line is
    carried over, whatever the overlap. *)
Theorem lines_nonpositive_size_one_line_per_chunk {Line : Type}
  (create_ok : Z -> bool) (c : Chunker) (lines : list Line) (sf : bool) :
  ChunkSize (config c) <= 0 -> (forall n, create_ok n = true) ->
  map lc_lines (fst (ChunkByLines create_ok c (Opened lines sf)))
  = map (fun line => [line]) lines
  /\ snd (ChunkByLines create_ok c (Opened lines sf)) = after_scan sf.
Proof.
  intros Hsize Hok. rewrite ChunkByLines_opened.
  apply scan_loop_one_line_chunks; auto.
Qed.

Lemma lines_nonpositive_size_one_line_per_chunk_witness :
  ChunkSize (config (sizes 0 5)) <= 0
  /\ (forall n, always_ok n = true)
  /\ map lc_lines
       (fst (ChunkByLines always_ok (sizes 0 5)
               (Opened [lit "a"; lit "b"; lit "c"] false)))
     = map (fun line => [line]) [lit "a"; lit "b"; lit "c"]
  /\ snd (ChunkByLines always_ok (sizes 0 5)
            (Opened [lit "a"; lit "b"; lit "c"] false))
     = after_scan false.
Proof.
  split; [vm_compute; discriminate|]. split; [reflexivity|].
  apply (lines_nonpositive_size_one_line_per_chunk always_ok (sizes 0 5)
           [lit "a"; lit "b"; lit "c"] false).
  - vm_compute. discriminate.
  - reflexivity.
Defined.

(** X11.  In character mode and in token mode chunk numbers are
    contiguous from 1: the chunk written (i+1)-th has number i+1. *)
Theorem text_chunks_numbered_from_one (create_ok : Z -> bool) (c : Chunker)
  (src : FileContent) (fuel : nat) (i : nat) (ch : TextChunk) :
  Z.of_nat i < int_max ->
  nth_error (fst (ChunkByCharacters create_ok c fuel src)) i = Some ch
  \/ nth_error (fst (ChunkByTokens create_ok c fuel src)) i = Some ch ->
  tc_number ch = Z.of_nat i + 1.
Proof.
  intros Hi Hnth. destruct src as [|text].
  - destruct Hnth as [H|H]; destruct i; discriminate.
  - destruct Hnth as [H|H].
    + rewrite (chars_loop_numbers _ _ _ _ _ _ _ _ H); int_bounds.
    + rewrite (tokens_loop_numbers _ _ _ _ _ _ _ _ H); int_bounds.
Qed.

Lemma text_chunks_numbered_from_one_witness :
  Z.of_nat 1 < int_max
  /\ (nth_error
        (fst (ChunkByCharacters always_ok (sizes 3 0) 9
                (ReadOk (lit "a b c d e")))) 1
      = Some {| tc_number := 2; tc_content := lit " c";
                tc_start := 3; tc_end := 5 |}
      \/ nth_error
           (fst (ChunkByTokens always_ok (sizes 3 0) 9
                   (ReadOk (lit "a b c d e")))) 1
         = Some {| tc_number := 2; tc_content := lit " c";
                   tc_start := 3; tc_end := 5 |})
  /\ 2 = Z.of_nat 1 + 1.
Proof.
  split; [vm_compute; reflexivity|].
  split; [left; vm_compute; reflexivity|].
  apply (text_chunks_numbered_from_one always_ok (sizes 3 0)
           (ReadOk (lit "a b c d e")) 9 1
           {| tc_number := 2; tc_content := lit " c";
              tc_start := 3; tc_end := 5 |}).
  - vm_compute. reflexivity.
  - left. vm_compute. reflexivity.
Defined.

(** X12.  A text that is not empty and not longer than the chunk size, with
    an overlap that is not positive or is larger than the text, gives one
    chunk, number 1, holding the whole text at offsets 0..len, and the run
    ends normally after one turn of the loop. *)
Theorem chars_small_input_one_chunk (create_ok : Z -> bool) (c : Chunker)
  (text : gostring) (fuel : nat) :
  text <> [] ->
  len text <= ChunkSize (config c) -> ChunkSize (config c) <= int_max ->
  OverlapSize (config c) <= 0 \/ len text < OverlapSize (config c) <= int_max ->
  create_ok 1 = true ->
  ChunkByCharacters create_ok c (S fuel) (ReadOk text)
  = ([ {| tc_number := 1; tc_content := text;
          tc_start := 0; tc_end := len text |} ], Completed).
Proof.
  intros Hne Hlen Hmax Hov Hok.
  assert (Hpos : 0 < len text).
  { pose proof (len_nonneg text). pose proof (len_nil_iff text).
    destruct (Z.eq_dec (len text) 0); [tauto | lia]. }
  unfold ChunkByCharacters. rewrite chars_loop_S by lia.
  assert (Hend : chars_end c text 0 = Some (len text)).
  { unfold chars_end. rewrite Z.add_0_l, wrap_small by int_bounds.
    destruct (ChunkSize (config c) >? len text) eqn:E.
    - rewrite Z.ltb_irrefl. reflexivity.
    - replace (ChunkSize (config c) <? len text) with false by (symmetry; lia).
      f_equal. lia. }
  rewrite Hend, slice_all, Hok.
  rewrite (next_start_ignored c (len text) (len text)) by (auto; lia).
  rewrite chars_loop_done by lia. reflexivity.
Qed.

Lemma chars_small_input_one_chunk_witness :
  lit "hello world" <> []
  /\ len (lit "hello world") <= ChunkSize (config (sizes 1000 50))
  /\ ChunkSize (config (sizes 1000 50)) <= int_max
  /\ (OverlapSize (config (sizes 1000 50)) <= 0
      \/ len (lit "hello world") < OverlapSize (config (sizes 1000 50)) <= int_max)
  /\ always_ok 1 = true
  /\ ChunkByCharacters always_ok (sizes 1000 50) 1 (ReadOk (lit "hello world"))
     = ([ {| tc_number := 1; tc_content := lit "hello world";
             tc_start := 0; tc_end := len (lit "hello world") |} ], Completed).
Proof.
  split; [discriminate|]. split; [vm_compute; discriminate|].
  split; [vm_compute; discriminate|].
  split; [right; vm_compute; split; [reflexivity | discriminate]|].
  split; [reflexivity|].
  apply (chars_small_input_one_chunk always_ok (sizes 1000 50)
           (lit "hello world") 0).
  - discriminate.
  - vm_compute. discriminate.
  - vm_compute. discriminate.
  - right. vm_compute. split; [reflexivity | discriminate].
  - reflexivity.
Defined.

(** X13.  In token mode, for a positive chunk size, every chunk written
    holds between one and ChunkSize tokens: its content is the tokens
    tc_start..tc_end of the input joined by single spaces, and tokenizing
    the content gives back exactly those tokens. *)
Theorem tokens_chunk_is_token_slice (create_ok : Z -> bool) (c : Chunker)
  (text : gostring) (fuel : nat) (ch : TextChunk) :
  0 < ChunkSize (config c) -> len text + ChunkSize (config c) <= int_max ->
  In ch (fst (ChunkByTokens create_ok c fuel (ReadOk text))) ->
  exists toks,
    slice (tokenize text) (tc_start ch) (tc_end ch) = Some toks
    /\ tc_content ch = Join toks (lit " ")
    /\ tokenize (tc_content ch) = toks
    /\ 1 <= len toks <= ChunkSize (config c).
Proof.
  intros Hsize Hmax Hin.
  assert (Hmax' : len (tokenize text) + ChunkSize (config c) <= int_max).
  { pose proof (tokenize_length text). unfold len in *. lia. }
  pose proof (tokens_loop_slices create_ok c (tokenize text) Hsize Hmax' fuel
                1 0 (Z.le_refl 0)) as Hall.
  rewrite Forall_forall in Hall.
  destruct (Hall ch Hin) as (toks & Hsl & Hcontent & Hlen).
  exists toks. split; [exact Hsl|]. split; [exact Hcontent|].
  split; [|exact Hlen].
  rewrite Hcontent, tokenize_unfold.
  apply (tokenize_Join toks (Forall_slice _ _ _ _ _ (tokenize_tokens text) Hsl) []).
Qed.

Lemma tokens_chunk_is_token_slice_witness :
  0 < ChunkSize (config (sizes 2 0))
  /\ len (lit "a, b c") + ChunkSize (config (sizes 2 0)) <= int_max
  /\ In {| tc_number := 2; tc_content := lit "b c"; tc_start := 2; tc_end := 4 |}
       (fst (ChunkByTokens always_ok (sizes 2 0) 9 (ReadOk (lit "a, b c"))))
  /\ exists toks,
       slice (tokenize (lit "a, b c")) 2 4 = Some toks
       /\ lit "b c" = Join toks (lit " ")
       /\ tokenize (lit "b c") = toks
       /\ 1 <= len toks <= ChunkSize (config (sizes 2 0)).
Proof.
  split; [reflexivity|]. split; [vm_compute; discriminate|].
  split; [vm_compute; right; left; reflexivity|].
  apply (tokens_chunk_is_token_slice always_ok (sizes 2 0) (lit "a, b c") 9
           {| tc_number := 2; tc_content := lit "b c";
              tc_start := 2; tc_end := 4 |}).
  - reflexivity.
  - vm_compute. discriminate.
  - vm_compute. right. left. reflexivity.
Defined.

(** X14.  In character mode and in token mode an overlap that is not
    positive, or is larger than the number of bytes (of tokens) of the
    input, has no effect at all: the run is the run with overlap 0. *)
Theorem text_overlap_without_effect (create_ok : Z -> bool) (c c0 : Chunker)
  (text : gostring) (fuel : nat) :
  ChunkSize (config c0) = ChunkSize (config c) ->
  OverlapSize (config c0) = 0 ->
  (OverlapSize (config c) <= 0
   \/ len text < OverlapSize (config c) <= int_max ->
   ChunkByCharacters create_ok c fuel (ReadOk text)
   = ChunkByCharacters create_ok c0 fuel (ReadOk text))
  /\ (OverlapSize (config c) <= 0
      \/ len (tokenize text) < OverlapSize (config c) <= int_max ->
      ChunkByTokens create_ok c fuel (ReadOk text)
      = ChunkByTokens create_ok c0 fuel (ReadOk text)).
Proof.
  intros Hsize Hzero. split; intros Hov.
  - apply chars_loop_overlap_ignored; assumption.
  - apply tokens_loop_overlap_ignored; assumption.
Qed.

Lemma text_overlap_without_effect_witness :
  ChunkSize (config (sizes 3 0)) = ChunkSize (config (sizes 3 50))
  /\ OverlapSize (config (sizes 3 0)) = 0
  /\ (OverlapSize (config (sizes 3 50)) <= 0
      \/ len (lit "a b c d e") < OverlapSize (config (sizes 3 50)) <= int_max ->
      ChunkByCharacters always_ok (sizes 3 50) 9 (ReadOk (lit "a b c d e"))
      = ChunkByCharacters always_ok (sizes 3 0) 9 (ReadOk (lit "a b c d e")))
  /\ (OverlapSize (config (sizes 3 50)) <= 0
      \/ len (tokenize (lit "a b c d e")) < OverlapSize (config (sizes 3 50))
         <= int_max ->
      ChunkByTokens always_ok (sizes 3 50) 9 (ReadOk (lit "a b c d e"))
      = ChunkByTokens always_ok (sizes 3 0) 9 (ReadOk (lit "a b c d e"))).
Proof.
  split; [reflexivity|]. split; [reflexivity|].
  apply (text_overlap_without_effect always_ok (sizes 3 50) (sizes 3 0)
           (lit "a b c d e") 9); reflexivity.
Defined.

(** *** Further properties of the tokenizer *)

(** The byte test of the character chunker and the rune test of the
    tokenizer agree on bytes. *)
Lemma is_boundary_space (b : ascii) : is_boundary b = is_space_rune (byte_val b).
Proof. destruct b as [[] [] [] [] [] [] [] []]; reflexivity. Qed.

Lemma is_space_rune_high (z : Z) : 128 <= z -> is_space_rune z = false.
Proof.
  intros H. unfold is_space_rune.
  change (rune_lit " ") with 32. change (rune_lit "009") with 9.
  change (rune_lit "010") with 10. lia.
Qed.

Lemma is_space_rune_low (r : rune) : is_space_rune r = true -> 0 <= r <= 127.
Proof.
  unfold is_space_rune.
  change (rune_lit " ") with 32. change (rune_lit "009") with 9.
  change (rune_lit "010") with 10. lia.
Qed.

Lemma to_byte_not_boundary (z : Z) :
  128 <= z < 256 -> is_boundary (to_byte z) = false.
Proof.
  intros H. rewrite is_boundary_space, byte_val_to_byte by lia.
  apply is_space_rune_high. lia.
Qed.

(** The encoding of a rune that is not white space has no white space
    byte. *)
Lemma encoderune_no_boundary (r : rune) :
  is_space_rune r = false ->
  Forall (fun b => is_boundary b = false) (encoderune r).
Proof.
  intros Hs. unfold encoderune, MaxRune, RuneError.
  destruct ((0 <=? r) && (r <=? 127)) eqn:C1.
  { constructor; [|constructor].
    rewrite is_boundary_space, byte_val_to_byte by lia. exact Hs. }
  destruct ((0 <=? r) && (r <=? 2047)) eqn:C2.
  { repeat constructor; apply to_byte_not_boundary;
      Z.to_euclidean_division_equations; lia. }
  destruct ((r <? 0) || (1114111 <? r) || ((55296 <=? r) && (r <=? 57343)))
    eqn:C3.
  { repeat constructor. }
  destruct (r <=? 65535) eqn:C4.
  { repeat constructor; apply to_byte_not_boundary;
      Z.to_euclidean_division_equations; lia. }
  repeat constructor; apply to_byte_not_boundary;
    Z.to_euclidean_division_equations; lia.
Qed.

Lemma encoderune_space (r : rune) :
  is_space_rune r = true ->
  exists b, encoderune r = [b] /\ is_boundary b = true.
Proof.
  intros Hs. pose proof (is_space_rune_low r Hs) as Hr.
  exists (to_byte r). unfold encoderune.
  replace ((0 <=? r) && (r <=? 127)) with true by (symmetry; lia).
  split; [reflexivity|].
  rewrite is_boundary_space, byte_val_to_byte by lia. exact Hs.
Qed.

Lemma filter_all {A : Type} (f : A -> bool) (l : list A) :
  Forall (fun a => f a = true) l -> filter f l = l.
Proof.
  induction 1 as [|a l Ha _ IH]; simpl; [reflexivity|].
  rewrite Ha, IH. reflexivity.
Qed.

(** Dropping the white space bytes of an encoding drops the white space
    runes. *)
Lemma filter_encode_all (rs : list rune) :
  filter not_boundary (encode_all rs) = encode_all (filter not_space_rune rs).
Proof.
  induction rs as [|r rs IH]; [reflexivity|].
  change (encode_all (r :: rs)) with (encoderune r ++ encode_all rs).
  rewrite filter_app, IH. cbn [filter].
  assert (Hr : not_space_rune r = negb (is_space_rune r)) by reflexivity.
  rewrite Hr.
  destruct (is_space_rune r) eqn:Hs; cbn [negb].
  - destruct (encoderune_space r Hs) as (b & -> & Hb).
    cbn [filter].
    assert (Hnb : not_boundary b = false)
      by (unfold not_boundary; rewrite Hb; reflexivity).
    rewrite Hnb. reflexivity.
  - change (encode_all (r :: filter not_space_rune rs))
      with (encoderune r ++ encode_all (filter not_space_rune rs)).
    f_equal. apply filter_all.
    eapply Forall_impl; [|apply (encoderune_no_boundary r Hs)].
    intros b Hb. unfold not_boundary. rewrite Hb. reflexivity.
Qed.

Lemma concat_flush_current (tokens : list gostring) (current : gostring) :
  concat (flush_current (tokens, current)) = concat tokens ++ current.
Proof.
  unfold flush_current. destruct (len current >? 0) eqn:E.
  - rewrite concat_app. simpl. rewrite app_nil_r. reflexivity.
  - assert (H : current = []).
    { apply len_nil_iff. pose proof (len_nonneg current). lia. }
    rewrite H, app_nil_r. reflexivity.
Qed.

(** The tokens, one after the other, are the runes read that are not white
    space. *)
Lemma tokenize_step_concat (rs : list rune) :
  forall tokens current,
    concat (flush_current (fold_left tokenize_step rs (tokens, current)))
    = concat tokens ++ current ++ encode_all (filter not_space_rune rs).
Proof.
  induction rs as [|r rs IH]; intros tokens current.
  - cbn [fold_left filter]. rewrite concat_flush_current.
    change (encode_all []) with (@nil ascii). rewrite app_nil_r. reflexivity.
  - cbn [fold_left filter]. unfold tokenize_step at 2.
    assert (Hr : not_space_rune r = negb (is_space_rune r)) by reflexivity.
    rewrite Hr.
    pose proof (concat_flush_current tokens current) as Hflush.
    unfold flush_current in Hflush.
    destruct (is_space_rune r) eqn:Hs; cbn [negb].
    + destruct (len current >? 0); rewrite IH.
      * rewrite Hflush. cbn [app]. rewrite app_assoc. reflexivity.
      * reflexivity.
    + change (encode_all (r :: filter not_space_rune rs))
        with (encoderune r ++ encode_all (filter not_space_rune rs)).
      destruct (is_punct_rune r); rewrite IH.
      * rewrite concat_app, Hflush. cbn [concat app].
        rewrite app_nil_r, <- !app_assoc. reflexivity.
      * rewrite <- !app_assoc. reflexivity.
Qed.

(** Decoding in front of an ASCII byte: what follows the byte plays no
    part. *)
Lemma decoderune_before_ascii (x ws : ascii) (a b : gostring) :
  byte_val ws < 128 ->
  decoderune x (a ++ ws :: b) = decoderune x a
  /\ (Nat.pred (snd (decoderune x a)) <= length a)%nat.
Proof.
  intros Hws.
  assert (Hcont : is_cont ws = false) by (unfold is_cont; lia).
  unfold decoderune.
  destruct (byte_val x <? 128); [split; [reflexivity | simpl; lia]|].
  destruct ((192 <=? byte_val x) && (byte_val x <? 224)).
  { destruct a as [|b1 a]; cbn [app].
    - rewrite Hcont. split; [reflexivity | simpl; lia].
    - split; [reflexivity|]. destruct (_ && _); simpl; lia. }
  destruct ((224 <=? byte_val x) && (byte_val x <? 240)).
  { destruct a as [|b1 [|b2 a]]; cbn [app].
    - rewrite Hcont. destruct b; split; try reflexivity; simpl; lia.
    - rewrite Hcont, andb_false_r. split; [reflexivity | simpl; lia].
    - split; [reflexivity|]. destruct (_ && _); simpl; lia. }
  destruct ((240 <=? byte_val x) && (byte_val x <? 248)).
  { destruct a as [|b1 [|b2 [|b3 a]]]; cbn [app].
    - rewrite Hcont. destruct b as [|? [|? ?]];
        split; try reflexivity; simpl; lia.
    - rewrite Hcont, andb_false_r. destruct b;
        split; try reflexivity; simpl; lia.
    - rewrite Hcont, andb_false_r. split; [reflexivity | simpl; lia].
    - split; [reflexivity|]. destruct (_ && _); simpl; lia. }
  split; [reflexivity | simpl; lia].
Qed.

Lemma runes_from_app_ascii (ws : ascii) (b : gostring) :
  byte_val ws < 128 ->
  forall a skip, (skip <= length a)%nat ->
    runes_from skip (a ++ ws :: b)
    = runes_from skip a ++ byte_val ws :: runes_from 0 b.
Proof.
  intros Hws. induction a as [|x a IH]; intros skip Hskip.
  - simpl in Hskip. assert (skip = 0%nat) as -> by lia.
    cbn [app runes_from]. unfold decoderune.
    replace (byte_val ws <? 128) with true by (symmetry; lia).
    reflexivity.
  - cbn [app runes_from]. destruct skip as [|k].
    + destruct (decoderune_before_ascii x ws a b Hws) as [-> Hwidth].
      destruct (decoderune x a) as [r width]. cbn [snd] in Hwidth.
      rewrite IH by exact Hwidth. reflexivity.
    + apply IH. simpl in Hskip. lia.
Qed.

(** Tokens already finished are not looked at again. *)
Lemma tokenize_step_prefix (rs : list rune) (pre : list gostring) :
  forall tokens current,
    fold_left tokenize_step rs (pre ++ tokens, current)
    = (pre ++ fst (fold_left tokenize_step rs (tokens, current)),
       snd (fold_left tokenize_step rs (tokens, current))).
Proof.
  induction rs as [|r rs IH]; intros tokens current; [reflexivity|].
  cbn [fold_left]. unfold tokenize_step at 2 4 6.
  destruct (is_space_rune r).
  - destruct (len current >? 0); [rewrite <- app_assoc|]; apply IH.
  - destruct (is_punct_rune r); [|apply IH].
    destruct (len current >? 0); rewrite <- !app_assoc; apply IH.
Qed.

Lemma flush_current_prefix (pre tokens : list gostring) (current : gostring) :
  flush_current (pre ++ tokens, current)
  = pre ++ flush_current (tokens, current).
Proof.
  unfold flush_current. destruct (len current >? 0);
    [rewrite app_assoc|]; reflexivity.
Qed.

(** White space ends the run being built. *)
Lemma tokenize_step_space (tokens : list gostring) (current : gostring)
  (r : rune) :
  is_space_rune r = true ->
  tokenize_step (tokens, current) r = (flush_current (tokens, current), []).
Proof.
  intros Hs. unfold tokenize_step, flush_current. rewrite Hs.
  destruct (len current >? 0) eqn:E; [reflexivity|].
  f_equal. apply len_nil_iff. pose proof (len_nonneg current). lia.
Qed.

Lemma tokenize_concat (text : gostring) :
  concat (tokenize text) = encode_all (filter not_space_rune (runes text)).
Proof.
  rewrite tokenize_unfold. apply (tokenize_step_concat (runes text) [] []).
Qed.

Lemma token_nonempty (t : gostring) : is_token t -> t <> [].
Proof.
  intros (rs & Hne & -> & _) H.
  pose proof (encode_all_nonempty rs Hne) as Hlen.
  rewrite H in Hlen. discriminate Hlen.
Qed.

(** X15.  The tokenizer loses white space and nothing else: the tokens of a
    text written one after the other are the encodings of the runes of the
    text that are not a space, a tab or a newline; for a text that is valid
    UTF-8 they are the text without its space, tab and newline bytes. *)
Theorem tokenize_drops_only_whitespace (text : gostring) :
  concat (tokenize text) = encode_all (filter not_space_rune (runes text))
  /\ (encode_all (runes text) = text ->
      concat (tokenize text) = filter not_boundary text).
Proof.
  pose proof (tokenize_concat text) as H.
  split; [exact H|]. intros Hvalid.
  rewrite H, <- filter_encode_all, Hvalid. reflexivity.
Qed.

Lemma tokenize_drops_only_whitespace_witness :
  encode_all (runes (lit "Hi, you (two)")) = lit "Hi, you (two)"
  /\ concat (tokenize (lit "Hi, you (two)"))
     = filter not_boundary (lit "Hi, you (two)").
Proof.
  split; [vm_compute; reflexivity|].
  apply (proj2 (tokenize_drops_only_whitespace (lit "Hi, you (two)"))).
  vm_compute. reflexivity.
Defined.

(** X16.  No token is empty and no token contains a space, tab or newline
    byte, whatever the bytes of the text are. *)
Theorem tokens_have_no_whitespace (text : gostring) :
  Forall (fun t => t <> [] /\ Forall (fun b => is_boundary b = false) t)
    (tokenize text).
Proof.
  eapply Forall_impl; [|apply tokenize_tokens].
  intros t Htok. split; [apply token_nonempty; exact Htok|].
  destruct Htok as (rs & Hne & -> & Hshape).
  assert (Hns : Forall (fun r => is_space_rune r = false) rs).
  { destruct Hshape as [Hplain | (p & -> & Hp)].
    - eapply Forall_impl; [|exact Hplain]. intros r Hr. apply Hr.
    - constructor; [apply punct_rune_valid; exact Hp | constructor]. }
  clear Hne Hshape. induction Hns as [|r rs Hr _ IH]; [constructor|].
  change (encode_all (r :: rs)) with (encoderune r ++ encode_all rs).
  apply Forall_app. split; [apply encoderune_no_boundary; exact Hr | exact IH].
Qed.

(** X17.  Tokenizing is done piece by piece between white space bytes: the
    tokens of two texts with a space, tab or newline between them are the
    tokens of the first followed by the tokens of the second, also where the
    first text ends in the middle of a UTF-8 sequence. *)
Theorem tokenize_split_at_whitespace (a b : gostring) (ws : ascii) :
  is_boundary ws = true ->
  tokenize (a ++ ws :: b) = tokenize a ++ tokenize b.
Proof.
  intros Hws. rewrite is_boundary_space in Hws.
  pose proof (is_space_rune_low _ Hws) as Hlow.
  rewrite !tokenize_unfold. unfold runes.
  rewrite runes_from_app_ascii by (simpl; lia).
  rewrite fold_left_app. cbn [fold_left].
  destruct (fold_left tokenize_step (runes_from 0 a) ([], []))
    as [tokens current].
  rewrite (tokenize_step_space _ _ _ Hws).
  rewrite <- (app_nil_r (flush_current (tokens, current))) at 1.
  rewrite tokenize_step_prefix.
  rewrite flush_current_prefix. f_equal.
  rewrite <- surjective_pairing. reflexivity.
Qed.

Lemma tokenize_split_at_whitespace_witness :
  is_boundary "010" = true
  /\ tokenize (lit "a, b" ++ "010"%char :: lit "c d")
     = tokenize (lit "a, b") ++ tokenize (lit "c d").
Proof.
  split; [reflexivity|].
  apply (tokenize_split_at_whitespace (lit "a, b") (lit "c d") "010").
  reflexivity.
Defined.

(** *** Names of the chunk files *)

Lemma string_of_uint_pad (k : nat) (u : Decimal.uint) :
  list_ascii_of_string (NilEmpty.string_of_uint (Nat.iter k Decimal.D0 u))
  = repeat "0"%char k ++ list_ascii_of_string (NilEmpty.string_of_uint u).
Proof.
  induction k as [|k IH]; [reflexivity|].
  cbn [Nat.iter nat_rect repeat app]. simpl. rewrite <- IH. reflexivity.
Qed.

Lemma of_uint_pad (k : nat) (u : Decimal.uint) :
  N.of_uint (Nat.iter k Decimal.D0 u) = N.of_uint u.
Proof. induction k as [|k IH]; [reflexivity | exact IH]. Qed.

Lemma to_uint_not_nil (n : N) : N.to_uint n <> Decimal.Nil.
Proof.
  intros H. pose proof (DecimalN.Unsigned.of_to n) as Hn. rewrite H in Hn.
  destruct n as [|p]; [discriminate H|].
  discriminate Hn.
Qed.

Lemma digits_NilEmpty (n : N) :
  digits n = list_ascii_of_string (NilEmpty.string_of_uint (N.to_uint n)).
Proof.
  unfold digits, lit, NilZero.string_of_uint.
  pose proof (to_uint_not_nil n). destruct (N.to_uint n); congruence.
Qed.

(** Zero padding does not change the number written. *)
Lemma padded_digits_inj (a b : nat) (x y : N) :
  repeat "0"%char a ++ digits x = repeat "0"%char b ++ digits y -> x = y.
Proof.
  rewrite !digits_NilEmpty, <- !string_of_uint_pad. intros H.
  apply (f_equal string_of_list_ascii) in H.
  rewrite !string_of_list_ascii_of_string in H.
  apply (f_equal NilEmpty.uint_of_string) in H.
  rewrite !NilEmpty.usu in H. injection H as H.
  apply (f_equal N.of_uint) in H. rewrite !of_uint_pad in H.
  rewrite !DecimalN.Unsigned.of_to in H. exact H.
Qed.

(** Digits, padded or not, do not start with a minus sign. *)
Lemma padded_digits_no_sign (a : nat) (x : N) (rest : gostring) :
  repeat "0"%char a ++ digits x <> "-"%char :: rest.
Proof.
  destruct a as [|a]; [|discriminate].
  rewrite digits_NilEmpty. cbn [repeat app].
  destruct (N.to_uint x); discriminate.
Qed.

Lemma format_03d_inj (n m : Z) : format_03d n = format_03d m -> n = m.
Proof.
  unfold format_03d.
  destruct (n <? 0) eqn:Hn; destruct (m <? 0) eqn:Hm; intros H.
  - injection H as H. apply padded_digits_inj in H. lia.
  - symmetry in H. apply padded_digits_no_sign in H. destruct H.
  - apply padded_digits_no_sign in H. destruct H.
  - apply padded_digits_inj in H. lia.
Qed.

Lemma string_lt_app (p a b : gostring) :
  string_lt (p ++ a) (p ++ b) = string_lt a b.
Proof.
  induction p as [|x p IH]; [reflexivity|].
  cbn [app string_lt]. rewrite Z.ltb_irrefl, Z.eqb_refl, IH. reflexivity.
Qed.

Lemma string_lt_trans (a : gostring) :
  forall b c, string_lt a b = true -> string_lt b c = true ->
    string_lt a c = true.
Proof.
  induction a as [|x a IH]; intros [|y b] [|z c]; cbn [string_lt];
    try discriminate; try reflexivity.
  intros Hab Hbc.
  apply orb_true_iff in Hab. apply orb_true_iff in Hbc. apply orb_true_iff.
  destruct Hab as [Hab | Hab]; destruct Hbc as [Hbc | Hbc];
    rewrite ?andb_true_iff in *; try (left; lia).
  right. split; [lia|]. apply (IH b c); tauto.
Qed.

Lemma ascending_seq_step (g : nat -> gostring) (count : nat) :
  forall first,
    ascending (map g (seq first count)) = true ->
    forall i, (first <= i)%nat -> (S i < first + count)%nat ->
      string_lt (g i) (g (S i)) = true.
Proof.
  induction count as [|count IH]; intros first Hasc i Hi Hlast; [lia|].
  cbn [seq map ascending] in Hasc. apply andb_true_iff in Hasc.
  destruct Hasc as [Hhead Htail].
  destruct (Nat.eq_dec i first) as [->|Hne].
  - destruct count as [|count]; [lia|]. exact Hhead.
  - apply (IH (S first) Htail); lia.
Qed.

Lemma ascending_seq (g : nat -> gostring) (first count : nat) :
  ascending (map g (seq first count)) = true ->
  forall j i, (first <= i < j)%nat -> (j < first + count)%nat ->
    string_lt (g i) (g j) = true.
Proof.
  intros Hasc. induction j as [|j IH]; intros i Hij Hj; [lia|].
  destruct (Nat.eq_dec i j) as [->|Hne].
  - apply (ascending_seq_step g count first Hasc); lia.
  - apply (string_lt_trans _ (g j)).
    + apply IH; lia.
    + apply (ascending_seq_step g count first Hasc); lia.
Qed.

Lemma names_ascending : ascending (map name_tail (seq 0 1000)) = true.
Proof. vm_compute. reflexivity. Qed.

Lemma names_after_999 :
  forallb (fun i => string_lt (name_tail 1000) (name_tail i)) (seq 101 899)
  = true.
Proof. vm_compute. reflexivity. Qed.

Lemma chunk_filename_tail (c : Chunker) (i : nat) :
  chunk_filename c (Z.of_nat i)
  = (Prefix (config c) ++ lit "_chunk_") ++ name_tail i.
Proof. unfold chunk_filename, name_tail. rewrite <- app_assoc. reflexivity. Qed.

(** X18.  Two chunk numbers never give the same file name, for every
    prefix and every pair of numbers, negative ones and numbers of more than
    three digits included: within a run no chunk file is written over by
    another chunk. *)
Theorem chunk_filename_injective (c : Chunker) (n m : Z) :
  chunk_filename c n = chunk_filename c m -> n = m.
Proof.
  unfold chunk_filename. intros H.
  apply app_inv_head in H. apply app_inv_head in H. apply app_inv_tail in H.
  apply format_03d_inj. exact H.
Qed.

Lemma chunk_filename_injective_witness :
  chunk_filename (sizes 3 0) 7 = chunk_filename (sizes 3 0) (3 + 4)
  /\ 7 = 3 + 4.
Proof.
  split; [reflexivity|].
  apply (chunk_filename_injective (sizes 3 0) 7 (3 + 4)). reflexivity.
Defined.

(** X19.  Padding the chunk number to three digits makes the file names
    sort in the order of the chunks up to chunk 999: for 0 <= n < m <= 999
    the name of chunk n is below the name of chunk m in the order of the
    bytes.  From chunk 1000 on this is lost: the name of chunk 1000 is below
    the names of the chunks 101 to 999. *)
Theorem chunk_filenames_sort_up_to_999 (c : Chunker) (n m : Z) :
  (0 <= n < m -> m <= 999 ->
   string_lt (chunk_filename c n) (chunk_filename c m) = true)
  /\ (100 < n <= 999 ->
      string_lt (chunk_filename c 1000) (chunk_filename c n) = true).
Proof.
  split.
  - intros Hnm Hm.
    rewrite <- (Z2Nat.id n), <- (Z2Nat.id m) by lia.
    rewrite !chunk_filename_tail, string_lt_app.
    apply (ascending_seq name_tail 0 1000 names_ascending); lia.
  - intros Hn.
    rewrite <- (Z2Nat.id n) by lia.
    change 1000 with (Z.of_nat 1000).
    rewrite !chunk_filename_tail, string_lt_app.
    pose proof names_after_999 as H. rewrite forallb_forall in H.
    apply H. apply in_seq. lia.
Qed.

Lemma chunk_filenames_sort_up_to_999_witness :
  (0 <= 9 < 10 /\ 10 <= 999)
  /\ string_lt (chunk_filename (sizes 3 0) 9) (chunk_filename (sizes 3 0) 10)
     = true.
Proof.
  split; [lia|].
  apply (proj1 (chunk_filenames_sort_up_to_999 (sizes 3 0) 9 10)); lia.
Defined.

(** *** Overlap without effect, and blank texts *)

(** In line mode nothing is carried over when the overlap is not positive
    or not below the chunk size. *)
Lemma scan_loop_overlap_ignored {Line : Type} (create_ok : Z -> bool)
  (c c0 : Chunker) (lines : list Line) (sf : bool) :
  ChunkSize (config c0) = ChunkSize (config c) ->
  OverlapSize (config c0) = 0 ->
  OverlapSize (config c) <= 0 \/ ChunkSize (config c) <= OverlapSize (config c) ->
  forall st,
    previousOverlap st = [] ->
    len (currentChunk st) < ChunkSize (config c) \/ currentChunk st = [] ->
    scan_loop create_ok c lines sf st = scan_loop create_ok c0 lines sf st.
Proof.
  intros Hsize Hzero Hov.
  induction lines as [|line rest IH]; intros st Hprev Hcur; [reflexivity|].
  cbn [scan_loop]. rewrite Hprev, Hsize, Hzero.
  change (len (@nil Line) >? 0) with false. rewrite andb_false_r.
  cbv iota. change (0 >? 0) with false. cbn [andb].
  assert (Hone : len (currentChunk st ++ [line]) = len (currentChunk st) + 1)
    by apply len_app.
  pose proof (len_nonneg (currentChunk st)) as Hnn.
  destruct (len (currentChunk st ++ [line]) >=? ChunkSize (config c)) eqn:Hfull.
  - destruct (writeChunk create_ok _ _ _ _) as [file|err]; [|reflexivity].
    replace ((OverlapSize (config c) >? 0)
             && (len (currentChunk st ++ [line]) >? OverlapSize (config c)))
      with false.
    + rewrite IH; [reflexivity | reflexivity | right; reflexivity].
    + symmetry. apply andb_false_iff.
      destruct Hcur as [Hlt | Hnil].
      * destruct Hov; [left | right]; lia.
      * rewrite Hnil in Hone |- *. change (len (@nil Line)) with 0 in Hone.
        destruct (Z_le_gt_dec (OverlapSize (config c)) 0); [left | right]; lia.
  - apply IH; [reflexivity | left; cbn [currentChunk]; lia].
Qed.

(** X20.  In line mode an overlap that is not positive, or is not smaller
    than the chunk size, has no effect at all: no line is repeated, and the
    run is the run with overlap 0. *)
Theorem lines_overlap_without_effect {Line : Type} (create_ok : Z -> bool)
  (c c0 : Chunker) (src : LineSource Line) :
  ChunkSize (config c0) = ChunkSize (config c) ->
  OverlapSize (config c0) = 0 ->
  OverlapSize (config c) <= 0 \/ ChunkSize (config c) <= OverlapSize (config c) ->
  ChunkByLines create_ok c src = ChunkByLines create_ok c0 src.
Proof.
  intros Hsize Hzero Hov. destruct src as [|lines sf]; [reflexivity|].
  rewrite !ChunkByLines_opened.
  apply scan_loop_overlap_ignored; auto.
Qed.

Lemma lines_overlap_without_effect_witness :
  ChunkSize (config (sizes 2 0)) = ChunkSize (config (sizes 2 2))
  /\ OverlapSize (config (sizes 2 0)) = 0
  /\ (OverlapSize (config (sizes 2 2)) <= 0
      \/ ChunkSize (config (sizes 2 2)) <= OverlapSize (config (sizes 2 2)))
  /\ ChunkByLines always_ok (sizes 2 2)
       (Opened [lit "a"; lit "b"; lit "c"] false)
     = ChunkByLines always_ok (sizes 2 0)
         (Opened [lit "a"; lit "b"; lit "c"] false).
Proof.
  split; [reflexivity|]. split; [reflexivity|].
  split; [right; vm_compute; discriminate|].
  apply (lines_overlap_without_effect always_ok (sizes 2 2) (sizes 2 0)
           (Opened [lit "a"; lit "b"; lit "c"] false)).
  - reflexivity.
  - reflexivity.
  - right. vm_compute. discriminate.
Defined.

(** A text of white space bytes is read as that many white space runes. *)
Lemma runes_blank (text : gostring) :
  Forall blank text ->
  Forall (fun r => is_space_rune r = true) (runes text).
Proof.
  unfold runes. induction 1 as [|b text Hb _ IH]; [constructor|].
  unfold blank in Hb. rewrite is_boundary_space in Hb.
  pose proof (is_space_rune_low _ Hb) as Hlow.
  cbn [runes_from]. unfold decoderune.
  replace (byte_val b <? 128) with true by (symmetry; lia).
  cbn [Nat.pred]. constructor; assumption.
Qed.

(** Only a single byte below 128 is read as a white space rune. *)
Lemma decoderune_space (b : ascii) (rest : gostring) :
  is_space_rune (fst (decoderune b rest)) = true ->
  decoderune b rest = (byte_val b, 1%nat) /\ is_boundary b = true.
Proof.
  intros Hs. pose proof (is_space_rune_low _ Hs) as Hlow.
  rewrite is_boundary_space. revert Hs Hlow. unfold decoderune, RuneError.
  destruct (byte_val b <? 128); [cbn [fst]; auto|].
  repeat match goal with
  | |- context [if ?t then _ else _] => destruct t eqn:?
  | |- context [match ?l with [] => _ | _ :: _ => _ end] => destruct l
  end; cbn [fst]; intros Hs Hlow; try lia;
    rewrite ?andb_true_iff in *; lia.
Qed.

Lemma runes_space_blank (text : gostring) :
  Forall (fun r => is_space_rune r = true) (runes text) -> Forall blank text.
Proof.
  unfold runes. induction text as [|b text IH]; [constructor|].
  cbn [runes_from]. destruct (decoderune b text) as [r width] eqn:Hd.
  intros H. inversion H as [|? ? Hr Hrest]; subst.
  destruct (decoderune_space b text) as [Hdec Hb];
    [rewrite Hd; exact Hr|].
  rewrite Hd in Hdec. injection Hdec as -> ->.
  constructor; [exact Hb | apply IH; exact Hrest].
Qed.

Lemma filter_nil_iff {A : Type} (f : A -> bool) (l : list A) :
  filter f l = [] <-> Forall (fun a => f a = false) l.
Proof.
  induction l as [|a l IH]; simpl.
  - split; constructor.
  - destruct (f a) eqn:E.
    + split; [discriminate|]. intros H. inversion H; congruence.
    + rewrite IH. split; [constructor; assumption|].
      intros H. inversion H; assumption.
Qed.

Lemma tokenize_nil_iff (text : gostring) :
  tokenize text = [] <-> Forall blank text.
Proof.
  pose proof (tokenize_concat text) as Hcat.
  pose proof (tokenize_tokens text) as Htok.
  assert (Hspace : forall rs,
            Forall (fun r => not_space_rune r = false) rs
            <-> Forall (fun r => is_space_rune r = true) rs).
  { intros rs. split; intros H; (eapply Forall_impl; [|exact H]);
      intros r; unfold not_space_rune; destruct (is_space_rune r);
      simpl; congruence. }
  split.
  - intros Hnil. rewrite Hnil in Hcat. cbn [concat] in Hcat.
    apply runes_space_blank, Hspace, filter_nil_iff.
    destruct (filter not_space_rune (runes text)) as [|r rs]; [reflexivity|].
    pose proof (encode_all_nonempty (r :: rs) ltac:(discriminate)) as Hlen.
    rewrite <- Hcat in Hlen. discriminate Hlen.
  - intros Hblank. apply runes_blank, Hspace, filter_nil_iff in Hblank.
    rewrite Hblank in Hcat. change (encode_all []) with (@nil ascii) in Hcat.
    destruct (tokenize text) as [|t toks]; [reflexivity|].
    inversion Htok as [|? ? Hne _]; subst. apply token_nonempty in Hne.
    cbn [concat] in Hcat. destruct t; [congruence | discriminate Hcat].
Qed.

(** X21.  The tokenizer finds no token exactly in the texts that consist
    of space, tab and newline bytes only (the empty text among them), and
    for such a text the token chunker writes no chunk and ends normally,
    whatever the sizes are. *)
Theorem tokens_blank_text_no_chunk (create_ok : Z -> bool) (c : Chunker)
  (text : gostring) (fuel : nat) :
  (tokenize text = [] <-> Forall blank text)
  /\ (Forall blank text ->
      ChunkByTokens create_ok c fuel (ReadOk text) = ([], Completed)).
Proof.
  split; [apply tokenize_nil_iff|].
  intros Hblank. apply tokenize_nil_iff in Hblank.
  unfold ChunkByTokens. rewrite Hblank.
  apply tokens_loop_done. change (len (@nil gostring)) with 0. lia.
Qed.

Lemma tokens_blank_text_no_chunk_witness :
  Forall blank (lit "  " ++ ["009"%char; "010"%char])
  /\ ChunkByTokens always_ok (sizes 3 1) 0
       (ReadOk (lit "  " ++ ["009"%char; "010"%char]))
     = ([], Completed).
Proof.
  split; [repeat constructor|].
  apply (proj2 (tokens_blank_text_no_chunk always_ok (sizes 3 1)
                  (lit "  " ++ ["009"%char; "010"%char]) 0)).
  repeat constructor.
Defined.

(** *** Content of the chunk files *)

(** A piece without newline is part of the line being dropped. *)
Lemma drop_lines_skip (h rest : gostring) (k : nat) :
  one_line h -> drop_lines (h ++ rest) (S k) = drop_lines rest (S k).
Proof.
  induction 1 as [|b h Hb _ IH]; [reflexivity|].
  cbn [app drop_lines]. rewrite Hb. exact IH.
Qed.

Lemma drop_lines_newline (rest : gostring) (k : nat) :
  drop_lines (newline ++ rest) (S k) = drop_lines rest k.
Proof. reflexivity. Qed.

Lemma drop_lines_O (s : gostring) : drop_lines s 0 = s.
Proof. destruct s; reflexivity. Qed.

Lemma one_line_digits (n : N) : one_line (digits n).
Proof.
  rewrite digits_NilEmpty. induction (N.to_uint n); simpl;
    constructor; (reflexivity || assumption).
Qed.

Lemma one_line_format_d (n : Z) : one_line (format_d n).
Proof.
  unfold format_d. destruct (n <? 0).
  - apply Forall_app. split; [repeat constructor | apply one_line_digits].
  - apply one_line_digits.
Qed.

Lemma one_line_lit (s : string) :
  forallb (fun b => negb (Ascii.eqb b "010")) (lit s) = true -> one_line (lit s).
Proof.
  intros H. rewrite forallb_forall in H. apply Forall_forall.
  intros b Hb. specialize (H b Hb). destruct (Ascii.eqb b "010");
    [discriminate | reflexivity].
Qed.

(** Proves that a header line has no newline in it. *)
Ltac header_line :=
  first [ assumption | apply one_line_format_d
        | apply one_line_lit; reflexivity ].



(** X23.  With the metadata header, when the name of the input file has no
    newline in it, the header is exactly six lines in a chunk file of line
    mode and five lines in a chunk file of character or token mode, the
    last of them empty: what follows these lines is the content as it is
    written without header. *)
Theorem metadata_header_line_count (c : Chunker) (lch : LineChunk gostring)
  (tch : TextChunk) :
  AddMetadata (config c) = true -> one_line (InputFile (config c)) ->
  drop_lines (line_chunk_file c lch) 6
  = concat (map (fun line => line ++ newline) (lc_lines lch))
  /\ drop_lines (text_chunk_file c tch) 5 = tc_content tch.
Proof.
  intros Hmeta Hname. unfold line_chunk_file, text_chunk_file.
  rewrite Hmeta. repeat rewrite <- app_assoc.
  split;
    repeat first [ rewrite drop_lines_skip by header_line
                 | rewrite drop_lines_newline ];
    apply drop_lines_O.
Qed.

Lemma metadata_header_line_count_witness :
  AddMetadata (config (sizes 3 0)) = true
  /\ one_line (InputFile (config (sizes 3 0)))
  /\ drop_lines
       (line_chunk_file (sizes 3 0)
          {| lc_number := 2; lc_lines := [lit "c"; lit "d"];
             lc_startLine := 3; lc_endLine := 4 |}) 6
     = concat (map (fun line => line ++ newline) [lit "c"; lit "d"])
  /\ drop_lines
       (text_chunk_file (sizes 3 0)
          {| tc_number := 2; tc_content := lit " c";
             tc_start := 3; tc_end := 5 |}) 5
     = lit " c".
Proof.
  split; [reflexivity|]. split; [repeat constructor|].
  apply (metadata_header_line_count (sizes 3 0)
           {| lc_number := 2; lc_lines := [lit "c"; lit "d"];
              lc_startLine := 3; lc_endLine := 4 |}
           {| tc_number := 2; tc_content := lit " c";
              tc_start := 3; tc_end := 5 |}).
  - reflexivity.
  - repeat constructor.
Defined.
